(** * TradingCrew web service: session lifecycle and streaming core

    A shallow embedding of the class [SessionManager] and of [getNextAgent]
    (session-manager.ts; in the sources at hand it is the third part of
    [web/src/services/sse-manager.ts]), of the types of [types.ts] (the last
    part of the same file), of [AGENT_ORDER] and [MARKET_OPTIONS] of
    [web/src/config.ts] and of the session routes (routes/sessions.ts),
    followed by the properties of the specification that were checked against
    them; and of what surrounds them: the class [SSEManager] and the ticker
    validator (the first two parts of [sse-manager.ts]), the framing of the
    feed in [AnalysisClient] (analysis-client.ts), the administrators and the
    invite codes of [config.ts], the middleware of [app.ts] and the login of
    [routes/auth.ts], with the properties that the code shows of itself.

    Modelling choices.
    - A [Session] is a JavaScript object: the manager's [Map] holds
      references to objects, and a [runAnalysis] coroutine keeps the reference
      it obtained when it was started.  The model therefore has an explicit
      object heap ([heap], object address = index) and the [Map] stores
      addresses; an object removed from the [Map] is still reachable from the
      coroutine that holds it.
    - A JavaScript [Map] iterates in insertion order; it is an association
      list whose [set] overwrites in place or appends.
    - [Session.reports] (a plain object used as a dictionary) is a [gmap].
    - [string | null] and optional arguments are [option string]; a value is
      falsy when it is [None] or the empty string.
    - Every manager method runs to completion without yielding (none of them
      awaits before its last effect), so each one is a state transformer.  A
      [runAnalysis] coroutine is suspended at its [for await]; delivering a
      chunk, the end of the feed, or a failure of the feed resumes it, and it
      then runs to its next suspension or to its end, [finally] block
      included.  (A [return] out of [for await] first awaits the [return] of
      the feed's generator; no request is taken to be served in that gap.)
    - [Math.random] and the wall clock are inputs of the operations that use
      them; [new Date(s).getTime()] is the method of the class [Clock]
      ([None] stands for [NaN]).
    - [writeFileSync] is assumed to succeed; the file holds the array that was
      serialised.
    - [clearCompleted] (never called) and [gracefulShutdown] (followed by the
      exit of the process) are methods of the manager, but no event of the
      running service.
    - The lookups of the ticker validator over the network are inputs: the
      name they end with.  The strings that [trim], [split], [toUpperCase] and
      the regular expressions work on are sequences of characters below 256;
      [toUpperCase] is given for characters below 128. *)

From Stdlib Require Import ZArith Ascii.
From stdpp Require Import base tactics option list gmap strings sorting.

Local Open Scope string_scope.
Local Open Scope list_scope.

(** ** JavaScript values *)

(** Truthiness of a [string | null | undefined]. *)
Definition truthy (o : option string) : bool :=
  match o with
  | Some s => bool_decide (s ≠ "")
  | None => false
  end.

(** [o || d] for a string-valued [o]. *)
Definition or_else (o : option string) (d : string) : string :=
  match o with
  | Some s => if decide (s = "") then d else s
  | None => d
  end.

(** [s || d] for a string [s]. *)
Definition str_or (s d : string) : string :=
  if decide (s = "") then d else s.

(** [s.substring(0, n)]. *)
Definition substring0 (n : nat) (s : string) : string := String.substring 0 n s.

(** [s.replace('T', ' ')]: the first occurrence only. *)
Fixpoint replaceT (s : string) : string :=
  match s with
  | EmptyString => EmptyString
  | String c s' =>
      if Ascii.eqb c "T"%char then String " "%char s' else String c (replaceT s')
  end.

(** ** [Map<K, V>] with string keys, in insertion order *)

Module JsMap.
Section JsMap.
Context {V : Type}.

Definition t := list (string * V).

Fixpoint get (k : string) (m : t) : option V :=
  match m with
  | [] => None
  | (k', v) :: m' => if decide (k = k') then Some v else get k m'
  end.

(** [set] keeps the position of an existing key. *)
Fixpoint set (k : string) (v : V) (m : t) : t :=
  match m with
  | [] => [(k, v)]
  | (k', v') :: m' =>
      if decide (k = k') then (k, v) :: m' else (k', v') :: set k v m'
  end.

Fixpoint delete (k : string) (m : t) : t :=
  match m with
  | [] => []
  | (k', v') :: m' =>
      if decide (k = k') then m' else (k', v') :: delete k m'
  end.

Definition has (k : string) (m : t) : bool :=
  match get k m with Some _ => true | None => false end.
End JsMap.
Arguments t : clear implicits.
End JsMap.

(** ** [types.ts] *)

Inductive SessionStatus := pending | queued | running | completed | error.

#[global] Instance SessionStatus_eq_dec : EqDecision SessionStatus.
Proof. solve_decision. Defined.

(** [Session], with the property [_analysts] that [startSession] attaches to
    the object ([None]: the property is absent). *)
Record Session := mkSession {
  id : string;
  ticker : string;
  stockName : string;
  market : string;
  model : string;
  startDate : string;
  endDate : string;
  userId : string;
  status : SessionStatus;
  decision : string;
  progress : list string;
  reports : gmap string string;
  createdAt : string;
  errorMsg : string;
  currentAgent : string;
  _analysts : option (list string)
}.

(** [SessionSummary]: no [reports]; [queuePosition] is optional. *)
Record SessionSummary := mkSummary {
  sum_id : string;
  sum_ticker : string;
  sum_stockName : string;
  sum_market : string;
  sum_model : string;
  sum_startDate : string;
  sum_endDate : string;
  sum_userId : string;
  sum_status : SessionStatus;
  sum_decision : string;
  sum_progress : list string;
  sum_createdAt : string;
  sum_errorMsg : string;
  sum_currentAgent : string;
  queuePosition : option nat
}.

(** The [params] object of [createSession]. *)
Record SessionParams := mkParams {
  p_ticker : string;
  p_stockName : string;
  p_market : string;
  p_model : string;
  p_startDate : string;
  p_endDate : string;
  p_userId : string
}.

Record UserContext := mkUser { username : string; isAdmin : bool }.

Inductive ChunkType :=
  node_start | token | node_end | heartbeat | complete
  | error_chunk | quota_error | timeout_error.

(** [AnalyzeStreamTokenChunk]. *)
Record Chunk := mkChunk {
  type : ChunkType;
  agent : option string;
  content : option string
}.

(** Field assignments [session.f = v]. *)
Definition set_status (v : SessionStatus) (s : Session) : Session :=
  mkSession (id s) (ticker s) (stockName s) (market s) (model s) (startDate s)
    (endDate s) (userId s) v (decision s) (progress s) (reports s)
    (createdAt s) (errorMsg s) (currentAgent s) (_analysts s).
Definition set_decision (v : string) (s : Session) : Session :=
  mkSession (id s) (ticker s) (stockName s) (market s) (model s) (startDate s)
    (endDate s) (userId s) (status s) v (progress s) (reports s)
    (createdAt s) (errorMsg s) (currentAgent s) (_analysts s).
Definition set_progress (v : list string) (s : Session) : Session :=
  mkSession (id s) (ticker s) (stockName s) (market s) (model s) (startDate s)
    (endDate s) (userId s) (status s) (decision s) v (reports s)
    (createdAt s) (errorMsg s) (currentAgent s) (_analysts s).
Definition set_reports (v : gmap string string) (s : Session) : Session :=
  mkSession (id s) (ticker s) (stockName s) (market s) (model s) (startDate s)
    (endDate s) (userId s) (status s) (decision s) (progress s) v
    (createdAt s) (errorMsg s) (currentAgent s) (_analysts s).
Definition set_errorMsg (v : string) (s : Session) : Session :=
  mkSession (id s) (ticker s) (stockName s) (market s) (model s) (startDate s)
    (endDate s) (userId s) (status s) (decision s) (progress s) (reports s)
    (createdAt s) v (currentAgent s) (_analysts s).
Definition set_currentAgent (v : string) (s : Session) : Session :=
  mkSession (id s) (ticker s) (stockName s) (market s) (model s) (startDate s)
    (endDate s) (userId s) (status s) (decision s) (progress s) (reports s)
    (createdAt s) (errorMsg s) v (_analysts s).
Definition set_analysts (v : list string) (s : Session) : Session :=
  mkSession (id s) (ticker s) (stockName s) (market s) (model s) (startDate s)
    (endDate s) (userId s) (status s) (decision s) (progress s) (reports s)
    (createdAt s) (errorMsg s) (currentAgent s) (Some v).

(** ** [config.ts] *)

Definition AGENT_ORDER : list string :=
  [ "Market Analyst"; "Social Analyst"; "News Analyst"; "Fundamentals Analyst";
    "Bull Researcher"; "Bear Researcher"; "Research Manager"; "Trader";
    "Risky Analyst"; "Safe Analyst"; "Neutral Analyst"; "Risk Manager";
    "Portfolio Manager" ].

(** [arr.indexOf(x)]; [None] stands for -1. *)
Fixpoint indexOf (x : string) (l : list string) : option nat :=
  match l with
  | [] => None
  | y :: l' => if decide (y = x) then Some O else S <$> indexOf x l'
  end.

Definition getNextAgent (current : string) : string :=
  match indexOf current AGENT_ORDER with
  | Some idx =>
      if (idx + 1 <? length AGENT_ORDER)%nat
      then default "" (AGENT_ORDER !! (idx + 1)%nat)
      else ""
  | None => ""
  end.

(** ** The manager's state *)

(** A [runAnalysis] coroutine suspended at its [for await]: its parameters,
    the session object and the abort signal it captured, and its locals. *)
Record Task := mkTask {
  t_sessionId : string;
  t_analysts : list string;
  t_session : nat;
  t_aborted : bool;
  t_alive : bool;
  t_currentAgent : string;
  t_accumulatedContent : string;
  t_tokenCount : nat
}.

(** [controller.abort()]. *)
Definition abort (t : Task) : Task :=
  mkTask (t_sessionId t) (t_analysts t) (t_session t) true (t_alive t)
    (t_currentAgent t) (t_accumulatedContent t) (t_tokenCount t).

(** The coroutine has returned. *)
Definition finished (t : Task) : Task :=
  mkTask (t_sessionId t) (t_analysts t) (t_session t) (t_aborted t) false
    (t_currentAgent t) (t_accumulatedContent t) (t_tokenCount t).

(** Assignment to the locals [currentAgent], [accumulatedContent] and
    [tokenCount]. *)
Definition setLocals (a c : string) (n : nat) (t : Task) : Task :=
  mkTask (t_sessionId t) (t_analysts t) (t_session t) (t_aborted t)
    (t_alive t) a c n.

Record State := mkState {
  heap : list Session;             (* session objects, by address *)
  sessions : JsMap.t nat;          (* this.sessions: id -> object *)
  runningTasks : JsMap.t nat;      (* this.runningTasks: id -> the task whose
                                      AbortController is stored *)
  tasks : list Task;               (* the coroutines started so far *)
  disk : option (list Session);    (* sessions.json; None: no file *)
  published : list (string * Session)  (* calls of sseManager.publish *)
}.

Definition initial : State := mkState [] [] [] [] None [].

Definition upd_heap (f : list Session → list Session) (st : State) : State :=
  mkState (f (heap st)) (sessions st) (runningTasks st) (tasks st) (disk st)
    (published st).
Definition upd_sessions (f : JsMap.t nat → JsMap.t nat) (st : State) : State :=
  mkState (heap st) (f (sessions st)) (runningTasks st) (tasks st) (disk st)
    (published st).
Definition upd_runningTasks (f : JsMap.t nat → JsMap.t nat) (st : State) : State :=
  mkState (heap st) (sessions st) (f (runningTasks st)) (tasks st) (disk st)
    (published st).
Definition upd_tasks (f : list Task → list Task) (st : State) : State :=
  mkState (heap st) (sessions st) (runningTasks st) (f (tasks st)) (disk st)
    (published st).

(** Assignment to fields of the object at address [r]. *)
Definition modify (r : nat) (f : Session → Session) (st : State) : State :=
  upd_heap (alter f r) st.

(** [this.sessions.get(sessionId)]: the object's address and its current
    contents. *)
Definition getObj (st : State) (sessionId : string) : option (nat * Session) :=
  r ← JsMap.get sessionId (sessions st);
  s ← heap st !! r;
  Some (r, s).

(** [Array.from(this.sessions.values())]. *)
Definition values (st : State) : list Session :=
  omap (λ kr, heap st !! kr.2) (sessions st).

(** [saveSessions]: the whole store is serialised to the file. *)
Definition saveSessions (st : State) : State :=
  mkState (heap st) (sessions st) (runningTasks st) (tasks st)
    (Some (values st)) (published st).

(** [sseManager.publish(sessionId, session)] with [session] at address [r]. *)
Definition publish (sessionId : string) (r : nat) (st : State) : State :=
  match heap st !! r with
  | Some s =>
      mkState (heap st) (sessions st) (runningTasks st) (tasks st) (disk st)
        (published st ++ [(sessionId, s)])
  | None => st
  end.

Definition generateId (random36 : string) : string :=
  String.substring 2 8 random36.

Definition defaultAnalysts : list string :=
  ["market"; "social"; "news"; "fundamentals"].

(** [new Date(s).getTime()]; [None] is [NaN]. *)
Class Clock := Date_getTime : string → option Z.

(** ** [SessionManager] *)

Section SessionManager.
Context `{Clock}.

(** [createSession]; [random36] is [Math.random().toString(36)] and
    [nowIso] is [new Date().toISOString()]. *)
Definition createSession (params : SessionParams)
    (random36 nowIso : string) (st : State) : State * Session :=
  let session :=
    mkSession (generateId random36) (p_ticker params) (p_stockName params)
      (p_market params) (p_model params) (p_startDate params)
      (p_endDate params) (p_userId params) pending "" [] ∅
      (substring0 19 (replaceT nowIso)) "" "" None in
  let r := length (heap st) in
  let st := upd_heap (λ h, h ++ [session]) st in
  let st := upd_sessions (JsMap.set (id session) r) st in
  (saveSessions st, session).

Definition getSession (st : State) (sessionId : string)
    (requester : option string) (admin : bool) : option Session :=
  match getObj st sessionId with
  | None => None
  | Some (_, session) =>
      if admin then Some session
      else if truthy requester && bool_decide (userId session ≠ "")
              && bool_decide (Some (userId session) ≠ requester)
      then None
      else Some session
  end.

(** The comparator of [getAllSessions]; a [NaN] result counts as 0. *)
Definition byCreatedAtDesc (a b : Session) : Z :=
  match Date_getTime (createdAt b), Date_getTime (createdAt a) with
  | Some tb, Some ta => (tb - ta)%Z
  | _, _ => 0%Z
  end.

(** [Array.prototype.sort] is stable. *)
Fixpoint insertSorted (cmp : Session → Session → Z) (x : Session)
    (l : list Session) : list Session :=
  match l with
  | [] => [x]
  | y :: l' => if (cmp x y <=? 0)%Z then x :: l else y :: insertSorted cmp x l'
  end.

Definition sortSessions (cmp : Session → Session → Z) (l : list Session)
    : list Session :=
  foldr (insertSorted cmp) [] l.

Definition getAllSessions (st : State) (requester : option string)
    (admin : bool) : list Session :=
  let sessions :=
    if admin then values st
    else if truthy requester
    then filter (λ s, Some (userId s) = requester) (values st)
    else filter (λ s, userId s = "") (values st) in
  sortSessions byCreatedAtDesc sessions.

Definition toSummary (session : Session) (pos : option nat) : SessionSummary :=
  mkSummary (id session) (ticker session) (stockName session)
    (market session) (model session) (startDate session) (endDate session)
    (userId session) (status session) (decision session) (progress session)
    (createdAt session) (errorMsg session) (currentAgent session) pos.

(** The [map] callback of [getAllSessionSummaries], threading the
    [userQueuePositions] map. *)
Fixpoint summarize (userQueuePositions : gmap string nat)
    (l : list Session) : list SessionSummary :=
  match l with
  | [] => []
  | session :: l' =>
      if decide (status session = queued) then
        let key := str_or (userId session) "__anonymous__" in
        let pos := (default 0 (userQueuePositions !! key) + 1)%nat in
        toSummary session (Some pos)
          :: summarize (<[key := pos]> userQueuePositions) l'
      else toSummary session None :: summarize userQueuePositions l'
  end.

Definition getAllSessionSummaries (st : State) (requester : option string)
    (admin : bool) : list SessionSummary :=
  summarize ∅ (getAllSessions st requester admin).

Definition getRunningCount (st : State) (requester : option string)
    (admin : bool) : nat :=
  length (filter (λ s,
    status s = running ∧
    (admin = true ∨ (truthy requester = true ∧ Some (userId s) = requester)
     ∨ (truthy requester = false ∧ userId s = ""))) (values st)).

Definition getUserRunningSession (st : State) (user : string)
    : option Session :=
  List.find (λ s, bool_decide (status s = running ∧ userId s = user))
    (values st).

Definition deleteSession (sessionId : string) (st : State) : State * bool :=
  if JsMap.has sessionId (sessions st) then
    let st :=
      match JsMap.get sessionId (runningTasks st) with
      | Some controller =>
          upd_runningTasks (JsMap.delete sessionId)
            (upd_tasks (alter (abort) controller) st)
      | None => st
      end in
    let st := upd_sessions (JsMap.delete sessionId) st in
    (saveSessions st, true)
  else (st, false).

(** [startSessionNow], up to and including the synchronous prefix of
    [runAnalysis] (which ends at the first [await] of the feed). *)
Definition startSessionNow (sessionId : string) (analysts : list string)
    (st : State) : State :=
  match getObj st sessionId with
  | None => st
  | Some (r, _) =>
      let st :=
        modify r (λ s, set_currentAgent (default "" (head AGENT_ORDER))
                         (set_status running s)) st in
      let st := saveSessions st in
      let st := publish sessionId r st in
      let controller := length (tasks st) in
      let st := upd_runningTasks (JsMap.set sessionId controller) st in
      upd_tasks (λ ts, ts ++ [mkTask sessionId analysts r false true "" "" 0]) st
  end.

Definition startSession (sessionId : string) (analysts : list string)
    (st : State) : State :=
  match getObj st sessionId with
  | None => st
  | Some (r, session) =>
      let st := modify r (set_analysts analysts) st in
      match getUserRunningSession st (userId session) with
      | Some runningSession =>
          let st := modify r (set_status queued) st in
          let st := saveSessions st in
          publish sessionId r st
      | None => startSessionNow sessionId analysts st
      end
  end.

(** One iteration of the loop of [startNextQueuedSession]; the second
    component is [earliestTime], [None] standing for [Infinity]. *)
Definition earlier (user : string) (acc : option Session * option Z)
    (session : Session) : option Session * option Z :=
  if decide (status session = queued ∧ userId session = user) then
    match Date_getTime (createdAt session) with
    | Some time =>
        if match acc.2 with Some e => (time <? e)%Z | None => true end
        then (Some session, Some time)
        else acc
    | None => acc
    end
  else acc.

Definition nextQueued (user : string) (l : list Session) : option Session :=
  (foldl (earlier user) (None, None) l).1.

Definition startNextQueuedSession (user : string) (st : State) : State :=
  match nextQueued user (values st) with
  | Some nextSession =>
      startSessionNow (id nextSession)
        (default defaultAnalysts (_analysts nextSession)) st
  | None => st
  end.

(** *** [runAnalysis] *)

(** The [finally] block, after which the coroutine is gone. *)
Definition finally (tid : nat) (t : Task) (st : State) : State :=
  let st := upd_runningTasks (JsMap.delete (t_sessionId t)) st in
  let st := upd_tasks (alter finished tid) st in
  match heap st !! t_session t with
  | Some session =>
      if bool_decide (userId session ≠ "")
      then startNextQueuedSession (userId session) st
      else st
  | None => st
  end.

(** The three error cases and the [catch] block share their effect. *)
Definition fail (t : Task) (message : string) (st : State) : State :=
  let st :=
    modify (t_session t)
      (λ s, set_currentAgent "" (set_errorMsg message (set_status error s)))
      st in
  let st := saveSessions st in
  publish (t_sessionId t) (t_session t) st.

(** The body of the loop for one chunk. *)
Definition onChunk (tid : nat) (t : Task) (chunk : Chunk) (st : State)
    : State :=
  if t_aborted t then finally tid t st
  else
    let r := t_session t in
    match type chunk with
    | heartbeat => st
    | node_start =>
        if truthy (agent chunk) then
          let a := or_else (agent chunk) "" in
          let st := upd_tasks (alter (setLocals a "" 0) tid) st in
          let st := modify r (set_currentAgent a) st in
          let st := saveSessions st in
          publish (t_sessionId t) r st
        else st
    | token =>
        if truthy (agent chunk) && truthy (content chunk) then
          let a := or_else (agent chunk) "" in
          let accumulated :=
            t_accumulatedContent t +:+ or_else (content chunk) "" in
          let st :=
            upd_tasks
              (alter (setLocals (t_currentAgent t) accumulated
                        (S (t_tokenCount t))) tid) st in
          let st :=
            modify r (λ s, set_reports (<[a := accumulated]> (reports s)) s)
              st in
          publish (t_sessionId t) r st
        else st
    | node_end =>
        let st :=
          if truthy (agent chunk) && truthy (content chunk) then
            let a := or_else (agent chunk) "" in
            let c := or_else (content chunk) "" in
            let st :=
              modify r
                (λ s, set_currentAgent (getNextAgent a)
                        (set_progress (progress s ++ [a])
                           (set_reports (<[a := c]> (reports s)) s))) st in
            let st := saveSessions st in
            publish (t_sessionId t) r st
          else st in
        upd_tasks (alter (λ t', setLocals "" "" (t_tokenCount t') t') tid) st
    | complete =>
        let st :=
          modify r
            (λ s, set_currentAgent ""
                    (set_status completed
                       (set_decision (or_else (content chunk) "HOLD") s)))
            st in
        let st := saveSessions st in
        let st := publish (t_sessionId t) r st in
        finally tid t st
    | quota_error => finally tid t (fail t "API quota exhausted" st)
    | timeout_error => finally tid t (fail t "Network response timeout" st)
    | error_chunk =>
        finally tid t
          (fail t (substring0 200 (or_else (content chunk) "Unknown error"))
             st)
    end.

(** The feed is exhausted: the code after the loop. *)
Definition onEnd (tid : nat) (t : Task) (st : State) : State :=
  let r := t_session t in
  let st :=
    match heap st !! r with
    | Some session =>
        if decide (status session = running) then
          let st :=
            modify r (λ s, set_currentAgent "" (set_status completed s)) st in
          let st := saveSessions st in
          publish (t_sessionId t) r st
        else st
    | None => st
    end in
  finally tid t st.

(** The feed throws an error whose [message] is given: the [catch] block. *)
Definition onThrow (tid : nat) (t : Task) (message : option string)
    (st : State) : State :=
  finally tid t
    (fail t (or_else (substring0 200 <$> message) "Unknown error") st).

Definition resume (tid : nat) (k : nat → Task → State → State) (st : State)
    : State :=
  match tasks st !! tid with
  | Some t => if t_alive t then k tid t st else st
  | None => st
  end.

Definition retrySession (sessionId : string)
    (analysts : option (list string)) (st : State) : State :=
  match getObj st sessionId with
  | None => st
  | Some (r, _) =>
      let st :=
        modify r
          (λ s, set_currentAgent ""
                  (set_decision ""
                     (set_reports ∅
                        (set_progress []
                           (set_errorMsg "" (set_status pending s)))))) st in
      let st := saveSessions st in
      startSession sessionId (default defaultAnalysts analysts) st
  end.

(** [parseSession] applied to a record of the file.  The file is the one
    [saveSessions] writes, so the record has the camelCase fields of
    [Session] and none of the snake_case aliases; [_analysts] is not read.
    Arrays and objects are truthy, and so is every status. *)
Definition parseSession (data : Session) (random36 nowIso : string) : Session :=
  mkSession (str_or (id data) (generateId random36)) (ticker data)
    (stockName data) (str_or (market data) "A-share")
    (str_or (model data) "deepseek-v3") (startDate data) (endDate data)
    (userId data) (status data) (decision data) (progress data)
    (reports data) (str_or (createdAt data) nowIso) (errorMsg data)
    (currentAgent data) None.

(** One iteration of the loop of [loadSessions]. *)
Definition loadOne (random36 nowIso : string) (data : Session) (st : State)
    : State :=
  let session := parseSession data random36 nowIso in
  let session :=
    if decide (status session = running) then
      set_currentAgent ""
        (set_errorMsg "Server restarted, analysis interrupted"
           (set_status error session))
    else session in
  let r := length (heap st) in
  let st := upd_heap (λ h, h ++ [session]) st in
  upd_sessions (JsMap.set (id session) r) st.

Fixpoint loadFrom (oracle : nat → string * string) (i : nat)
    (data : list Session) (st : State) : State :=
  match data with
  | [] => st
  | d :: data' =>
      loadFrom oracle (S i) data' (loadOne (oracle i).1 (oracle i).2 d st)
  end.

(** [loadSessions]; [oracle i] gives [Math.random().toString(36)] and
    [new Date().toISOString()] for the [i]-th record. *)
Definition loadSessions (oracle : nat → string * string) (st : State) : State :=
  match disk st with
  | None => st
  | Some data => loadFrom oracle 0 data st
  end.
End SessionManager.

(** ** [routes/sessions.ts] *)

Definition MARKET_OPTIONS : list (string * string) :=
  [("A-Share", "A-share"); ("US Stock", "US"); ("HK Stock", "HK")].

(** [CreateSessionRequest]. *)
Record CreateSessionRequest := mkRequest {
  b_ticker : string;
  b_market : string;
  b_model : string;
  b_startDate : string;
  b_endDate : string;
  b_analysts : list string
}.

(** The result of [validateAndGetName] (an external lookup). *)
Record ValidationResult := mkValidation {
  valid : bool;
  normalized : string;
  name : string;
  error_text : string
}.

Inductive Response :=
  | Json (body : option Session)        (* c.json(session); None is null *)
  | JsonSuccess                         (* { success: true } *)
  | JsonError (code : nat) (message : string).

Section Routes.
Context `{Clock}.

(** GET /api/sessions/:id *)
Definition getSessionRoute (user : UserContext) (sessionId : string)
    (st : State) : Response :=
  match getSession st sessionId (Some (username user)) (isAdmin user) with
  | None => JsonError 404 "Session not found"
  | Some session => Json (Some session)
  end.

(** POST /api/sessions *)
Definition postSessions (user : UserContext) (body : CreateSessionRequest)
    (validation : ValidationResult) (random36 nowIso : string) (st : State)
    : State * Response :=
  let user_id := str_or (username user) "" in
  let market :=
    str_or (default "" (JsMap.get (b_market body) MARKET_OPTIONS))
      (b_market body) in
  let model := str_or (b_model body) "deepseek-v3" in
  if valid validation then
    let '(st, session) :=
      createSession
        (mkParams (normalized validation) (name validation) market model
           (b_startDate body) (b_endDate body) user_id)
        random36 nowIso st in
    let st := startSession (id session) (b_analysts body) st in
    (st, Json (getSession st (id session) (Some user_id) (isAdmin user)))
  else (st, JsonError 400 (error_text validation)).

(** DELETE /api/sessions/:id *)
Definition deleteSessionRoute (user : UserContext) (sessionId : string)
    (st : State) : State * Response :=
  match getSession st sessionId (Some (username user)) (isAdmin user) with
  | None => (st, JsonError 404 "Session not found")
  | Some _ =>
      let '(st, success) := deleteSession sessionId st in
      if success then (st, JsonSuccess)
      else (st, JsonError 404 "Session not found")
  end.

(** POST /api/sessions/:id/retry *)
Definition retryRoute (user : UserContext) (sessionId : string) (st : State)
    : State * Response :=
  match getSession st sessionId (Some (username user)) (isAdmin user) with
  | None => (st, JsonError 404 "Session not found")
  | Some session =>
      if decide (status session ≠ error) then
        (st, JsonError 400 "Can only retry sessions with errors")
      else
        let st := retrySession sessionId None st in
        (st,
         Json (getSession st sessionId (Some (username user)) (isAdmin user)))
  end.

(** GET /api/sessions *)
Definition listRoute (user : UserContext) (st : State) : list SessionSummary :=
  getAllSessionSummaries st (Some (username user)) (isAdmin user).
End Routes.

(** ** The running service *)

(** What can happen to the process: a request is served, a feed delivers a
    chunk, ends or fails, or the process is restarted (a new manager reads the
    file; the coroutines of the old process are gone). *)
Inductive Event :=
  | PostSessions (user : UserContext) (body : CreateSessionRequest)
      (validation : ValidationResult) (random36 nowIso : string)
  | DeleteSession (user : UserContext) (sessionId : string)
  | PostRetry (user : UserContext) (sessionId : string)
  | FeedChunk (tid : nat) (chunk : Chunk)
  | FeedEnd (tid : nat)
  | FeedThrow (tid : nat) (message : option string)
  | Restart (oracle : nat → string * string).

Section Service.
Context `{Clock}.

Definition restart (oracle : nat → string * string) (st : State) : State :=
  loadSessions oracle (mkState [] [] [] [] (disk st) []).

Definition exec (e : Event) (st : State) : State :=
  match e with
  | PostSessions user body validation random36 nowIso =>
      (postSessions user body validation random36 nowIso st).1
  | DeleteSession user sessionId => (deleteSessionRoute user sessionId st).1
  | PostRetry user sessionId => (retryRoute user sessionId st).1
  | FeedChunk tid chunk => resume tid (λ tid t, onChunk tid t chunk) st
  | FeedEnd tid => resume tid onEnd st
  | FeedThrow tid message => resume tid (λ tid t, onThrow tid t message) st
  | Restart oracle => restart oracle st
  end.

(** The state after a sequence of events, oldest first. *)
Definition run (es : list Event) (st : State) : State :=
  foldl (λ st e, exec e st) st es.

Inductive reachable : State → Prop :=
  | reachable_initial : reachable initial
  | reachable_exec e st : reachable st → reachable (exec e st).
End Service.

(** ** [SessionManager], the remaining methods *)

(** The session is [completed] or in [error]. *)
Definition terminal (s : Session) : bool :=
  bool_decide (status s = completed ∨ status s = error).

(** The array [toDelete] that the first loop of [clearCompleted] builds. *)
Definition toDelete (st : State) : list string :=
  omap (λ kr : string * nat,
          s ← heap st !! kr.2; if terminal s then Some kr.1 else None)
    (sessions st : list (string * nat)).

(** [clearCompleted]: the second loop deletes the keys collected by the
    first. *)
Definition clearCompleted (st : State) : State * nat :=
  let toDelete := toDelete st in
  let st := foldl (λ st k, upd_sessions (JsMap.delete k) st) st toDelete in
  let st := if (0 <? length toDelete)%nat then saveSessions st else st in
  (st, length toDelete).

(** The assignments of [gracefulShutdown] to a running session. *)
Definition interrupt (s : Session) : Session :=
  if decide (status s = running) then
    set_currentAgent ""
      (set_errorMsg
         "Server restarted, analysis interrupted (click retry to continue)"
         (set_status error s))
  else s.

(** One iteration of the first loop of [gracefulShutdown]; the second
    component is the counter [interrupted]. *)
Definition shutdownStep (acc : State * nat) (kr : string * nat) : State * nat :=
  let '(st, interrupted) := acc in
  match heap st !! kr.2 with
  | Some s =>
      if decide (status s = running)
      then (modify kr.2 interrupt st, S interrupted)
      else (st, interrupted)
  | None => (st, interrupted)
  end.

(** [gracefulShutdown]: the loop over the sessions, the write, the loop over
    [runningTasks], and [runningTasks.clear()]. *)
Definition gracefulShutdown (st : State) : State :=
  let '(st, interrupted) := foldl shutdownStep (st, 0%nat) (sessions st) in
  let st := if (0 <? interrupted)%nat then saveSessions st else st in
  let st :=
    foldl (λ st kc, upd_tasks (alter abort kc.2) st) st (runningTasks st) in
  upd_runningTasks (λ _, []) st.

(** GET /api/sessions/running/count *)
Definition runningCountRoute (user : UserContext) (st : State) : nat :=
  getRunningCount st (Some (username user)) (isAdmin user).

(** GET /api/sessions/:id/stream, up to the decision whether to subscribe:
    the answer is 404, or the snapshot of the session followed by the end of
    the stream ([false]) or by a subscription ([true]).  [username] and
    [isAdmin] are the query parameters, absent when [None]. *)
Inductive StreamStart :=
  | StreamNotFound
  | StreamSnapshot (snapshot : Session) (subscribes : bool).

Definition streamRoute (usernameQuery isAdminQuery : option string)
    (sessionId : string) (st : State) : StreamStart :=
  let username := or_else usernameQuery "" in
  let isAdmin := bool_decide (isAdminQuery = Some "true") in
  match getSession st sessionId (Some username) isAdmin with
  | None => StreamNotFound
  | Some session =>
      StreamSnapshot session (negb (terminal session))
  end.

(** ** JavaScript strings

    A string is a sequence of code units; the strings of this part are those
    whose code units are below 256, one character each. *)

(** White space and line terminators, as [trim] sees them: TAB, LF, VT, FF,
    CR, SP and NBSP (the others are above 255). *)
Definition isWhiteSpace (c : ascii) : bool :=
  bool_decide (nat_of_ascii c ∈ [9; 10; 11; 12; 13; 32; 160]%nat).

Fixpoint trimStart (s : string) : string :=
  match s with
  | String c s' => if isWhiteSpace c then trimStart s' else s
  | EmptyString => EmptyString
  end.

Fixpoint trimEnd (s : string) : string :=
  match s with
  | EmptyString => EmptyString
  | String c s' =>
      match trimEnd s' with
      | EmptyString =>
          if isWhiteSpace c then EmptyString else String c EmptyString
      | t => String c t
      end
  end.

(** [s.trim()]. *)
Definition trim (s : string) : string := trimEnd (trimStart s).

(** [s.split(sep)] for a separator of one character; the result is never
    empty. *)
Fixpoint split (sep : ascii) (s : string) : list string :=
  match s with
  | EmptyString => [EmptyString]
  | String c s' =>
      if Ascii.eqb c sep then EmptyString :: split sep s'
      else match split sep s' with
           | piece :: pieces => String c piece :: pieces
           | [] => [String c EmptyString]
           end
  end.

(** [array.pop()]: the last element, if any, and the array that is left. *)
Fixpoint pop {A} (l : list A) : option A * list A :=
  match l with
  | [] => (None, [])
  | x :: l' =>
      match pop l' with
      | (None, _) => (Some x, [])
      | (Some y, rest) => (Some y, x :: rest)
      end
  end.

(** The line feed. *)
Definition LF : ascii := ascii_of_nat 10.

(** ** [AnalysisClient] (analysis-client.ts)

    [stream] and [streamTokens] differ in the endpoint they call and in
    nothing else.  The response is given by the texts that the successive
    reads decode to and by the way the body ends; [JSON_parse] is
    [JSON.parse] ([None]: it throws). *)

(** How a generator ends: it returns, or it throws an error with the given
    [message]. *)
Inductive Outcome := Returns | Throws (message : option string).

(** The response of the analysis service: it is refused (the status is not
    ok, or there is no body), or it is a body that is read piece by piece
    until it is done or a read fails. *)
Inductive Body :=
  | Refused (message : string)
  | Pieces (reads : list string) (last : Outcome).

Section AnalysisClient.
Context {Y : Type} (JSON_parse : string → option Y).

(** The body of the loop over the lines: a blank line is skipped, and so is
    a line that does not parse. *)
Definition parseLine (line : string) : option Y :=
  let trimmed := trim line in
  if decide (trimmed = "") then None else JSON_parse trimmed.

(** One turn of the read loop: the new value of [buffer] and what is
    yielded. *)
Definition onRead (buffer value : string) : string * list Y :=
  let buffer := buffer +:+ value in
  let '(last, lines) := pop (split LF buffer) in
  (or_else last "", omap parseLine lines).

(** After the loop: what is left in [buffer]. *)
Definition onDone (buffer : string) : list Y :=
  if decide (trim buffer = "") then []
  else match JSON_parse (trim buffer) with
       | Some chunk => [chunk]
       | None => []
       end.

Fixpoint readLoop (buffer : string) (reads : list string) (last : Outcome)
    : list Y * Outcome :=
  match reads with
  | [] =>
      match last with
      | Returns => (onDone buffer, Returns)
      | Throws message => ([], Throws message)
      end
  | value :: reads' =>
      let '(buffer', yielded) := onRead buffer value in
      let '(rest, outcome) := readLoop buffer' reads' last in
      (yielded ++ rest, outcome)
  end.

(** What the generator yields, and how it ends. *)
Definition streamTokens (body : Body) : list Y * Outcome :=
  match body with
  | Refused message => ([], Throws (Some message))
  | Pieces reads last => readLoop "" reads last
  end.
End AnalysisClient.

(** The whole text of a body. *)
Definition received (reads : list string) : string :=
  foldr String.append "" reads.

(** ** More of JavaScript strings *)

(** [s.substring(n)]. *)
Fixpoint substringFrom (n : nat) (s : string) : string :=
  match n, s with
  | O, _ => s
  | S n', String _ s' => substringFrom n' s'
  | S _, EmptyString => EmptyString
  end.

(** [toUpperCase] on a character below 128. *)
Definition upper (c : ascii) : ascii :=
  let n := nat_of_ascii c in
  if ((97 <=? n) && (n <=? 122))%nat then ascii_of_nat (n - 32) else c.

(** [s.toUpperCase()], for a string of characters below 128. *)
Fixpoint toUpperCase (s : string) : string :=
  match s with
  | EmptyString => EmptyString
  | String c s' => String (upper c) (toUpperCase s')
  end.

(** Every character of [s] is below 128. *)
Fixpoint isASCII (s : string) : bool :=
  match s with
  | EmptyString => true
  | String c s' => (nat_of_ascii c <? 128)%nat && isASCII s'
  end.

(** [s.startsWith(prefix)]. *)
Fixpoint startsWith (prefix s : string) : bool :=
  match prefix, s with
  | EmptyString, _ => true
  | String a prefix', String b s' => Ascii.eqb a b && startsWith prefix' s'
  | String _ _, EmptyString => false
  end.

(** [s.replace(pattern, replacement)] for a string [pattern]: the first
    occurrence only. *)
Fixpoint replace (pattern replacement s : string) : string :=
  if startsWith pattern s
  then replacement +:+ substringFrom (String.length pattern) s
  else match s with
       | EmptyString => EmptyString
       | String c s' => String c (replace pattern replacement s')
       end.

(** [s.padStart(targetLength, pad)] for a [pad] of one character. *)
Definition padStart (targetLength : nat) (pad : ascii) (s : string) : string :=
  String.string_of_list_ascii (replicate (targetLength - String.length s) pad)
  +:+ s.

(** *** The regular expressions of the validator

    Each of them is a sequence of items [set{min,max}] between [^] and [$]. *)

Inductive CharSet :=
  | Digit                     (* \d *)
  | Upper                     (* [A-Z] *)
  | OneOf (chars : string).   (* a literal character, or [...] *)

Definition inSet (set : CharSet) (c : ascii) : bool :=
  let n := nat_of_ascii c in
  match set with
  | Digit => ((48 <=? n) && (n <=? 57))%nat
  | Upper => ((65 <=? n) && (n <=? 90))%nat
  | OneOf chars => existsb (Ascii.eqb c) (String.list_ascii_of_string chars)
  end.

Record Item := mkItem { i_set : CharSet; i_min : nat; i_max : nat }.

Fixpoint allIn (set : CharSet) (s : string) : bool :=
  match s with
  | EmptyString => true
  | String c s' => inSet set c && allIn set s'
  end.

(** [/^...$/.test(s)]. *)
Fixpoint test (pattern : list Item) (s : string) : bool :=
  match pattern with
  | [] => bool_decide (s = "")
  | item :: pattern' =>
      existsb
        (λ n, (n <=? String.length s)%nat && allIn (i_set item) (substring0 n s)
              && test pattern' (substringFrom n s))
        (seq (i_min item) (S (i_max item) - i_min item))
  end.

Definition lit (c : string) : Item := mkItem (OneOf c) 1 1.

(** ** [ticker-validator.ts] *)

Definition validPrefixes : list string :=
  ["600"; "601"; "603"; "605"; "688"; "000"; "001"; "002"; "300"].

Definition validateAShareFormat (code : string) : bool :=
  let code := trim code in
  if negb (test [mkItem Digit 6 6] code) then false
  else
    let prefix := substring0 3 code in
    bool_decide (prefix ∈ validPrefixes).

Definition validateUSFormat (code : string) : bool :=
  let code := toUpperCase (trim code) in
  if test [mkItem Upper 1 5] code then true
  else if test [mkItem Upper 1 4; lit ".-"; mkItem Upper 1 1] code then true
  else false.

Definition validateHKFormat (code : string) : bool :=
  let code := toUpperCase (trim code) in
  if test [mkItem Digit 4 5; lit "."; lit "H"; lit "K"] code then true
  else if test [mkItem Digit 1 5] code then true
  else false.

Definition normalizeTicker (code market : string) : string :=
  let code := trim code in
  if decide (market = "US") then toUpperCase code
  else if decide (market = "HK") then
    let code := toUpperCase code in
    let cleanCode := replace ".HK" "" code in
    let paddedCode := padStart 4 "0" cleanCode in
    paddedCode +:+ ".HK"
  else code.

Definition validateTickerFormat (ticker market : string) : ValidationResult :=
  let ticker := trim ticker in
  if decide (ticker = "") then
    mkValidation false "" "" "Please enter a stock code"
  else if decide (market = "A-share") then
    if negb (validateAShareFormat ticker) then
      mkValidation false "" ""
        "A-Share code should be 6 digits (e.g. 600519, 000001)"
    else mkValidation true (normalizeTicker ticker market) "" ""
  else if decide (market = "US") then
    if negb (validateUSFormat ticker) then
      mkValidation false "" ""
        "US stock code should be 1-5 letters (e.g. AAPL, TSLA)"
    else mkValidation true (normalizeTicker ticker market) "" ""
  else if decide (market = "HK") then
    if negb (validateHKFormat ticker) then
      mkValidation false "" ""
        "HK stock code should be 4-5 digits (e.g. 0700, 9988)"
    else mkValidation true (normalizeTicker ticker market) "" ""
  else
    mkValidation false "" "" ("Unsupported market type: " +:+ market).

(** [validateAShare] and [validateUSHK]: [found] is the name that the
    lookups over the network end with, empty when they all fail. *)
Definition validateAShare (found : string) (ticker : string)
    : ValidationResult :=
  let normalized := ticker in
  mkValidation true normalized found "".

Definition validateUSHK (found : string) (ticker market : string)
    : ValidationResult :=
  let normalized := normalizeTicker ticker market in
  mkValidation true normalized found "".

Definition validateAndGetName (found : string) (ticker market : string)
    : ValidationResult :=
  let formatResult := validateTickerFormat ticker market in
  if negb (valid formatResult) then formatResult
  else
    let normalized := normalized formatResult in
    if decide (market = "A-share") then validateAShare found normalized
    else if decide (market = "US" ∨ market = "HK")
    then validateUSHK found normalized market
    else formatResult.

(** ** [config.ts], the middleware of [app.ts] and [routes/auth.ts]

    [process.env] is the list of its entries; a [Set] of strings is the list
    of its members in insertion order. *)

(** [set.add(x)]. *)
Definition setAdd (x : string) (set : list string) : list string :=
  if decide (x ∈ set) then set else set ++ [x].

(** [s.includes(c)] for a character. *)
Fixpoint includes (c : ascii) (s : string) : bool :=
  match s with
  | EmptyString => false
  | String d s' => Ascii.eqb d c || includes c s'
  end.

Definition getAdminUsers (env : JsMap.t string) : list string :=
  let adminStr := or_else (JsMap.get "ADMIN_USERS" env) "" in
  if decide (adminStr = "") then []
  else
    foldl (λ admins user,
             if decide (trim user = "") then admins
             else setAdd (trim user) admins)
      [] (split "," adminStr).

(** The middleware: [xUsername] is the header [X-Username]. *)
Definition userContext (env : JsMap.t string) (xUsername : option string)
    : UserContext :=
  let username := or_else xUsername "" in
  let adminUsers := getAdminUsers env in
  mkUser username (bool_decide (username ∈ adminUsers)).

(** [const [user, pwd] = text.split(':', 2)] followed by
    [if (user && pwd) codes.set(user.trim(), pwd.trim())]. *)
Definition addCode (text : string) (codes : JsMap.t string) : JsMap.t string :=
  match take 2 (split ":" text) with
  | user :: pwd :: _ =>
      if bool_decide (user ≠ "") && bool_decide (pwd ≠ "")
      then JsMap.set (trim user) (trim pwd) codes
      else codes
  | _ => codes
  end.

Definition getInviteCodes (env : JsMap.t string) : JsMap.t string :=
  let codesStr := or_else (JsMap.get "INVITE_CODES" env) "" in
  let codes :=
    if decide (codesStr = "") then []
    else
      foldl (λ codes pair, addCode (trim pair) codes) [] (split "," codesStr)
  in
  foldl (λ codes entry,
           if startsWith "INVITE_CODE_" entry.1 && bool_decide (entry.2 ≠ "")
           then addCode entry.2 codes
           else codes)
    codes env.

Inductive LoginResponse :=
  | LoginSuccess (message username : string)
  | LoginFailure (message : string).

(** POST /api/auth/login; the fields of the body are absent when [None]. *)
Definition login (env : JsMap.t string) (username password : option string)
    : LoginResponse :=
  let trimmedUsername := or_else (trim <$> username) "" in
  let trimmedPassword := or_else (trim <$> password) "" in
  if decide (trimmedUsername = "" ∨ trimmedPassword = "") then
    LoginFailure "Please enter username and password"
  else
    let inviteCodes := getInviteCodes env in
    match JsMap.get trimmedUsername inviteCodes with
    | Some storedPassword =>
        if bool_decide (storedPassword ≠ "")
           && bool_decide (storedPassword = trimmedPassword)
        then LoginSuccess ("Welcome, " +:+ trimmedUsername) trimmedUsername
        else LoginFailure "Invalid username or password"
    | None => LoginFailure "Invalid username or password"
    end.

(** ** [SSEManager] (sse-manager.ts)

    A subscription is a [ReadableStream]; the manager keeps its controller.
    A controller is modelled by the queue of the messages that were put on
    the stream and by whether the stream still accepts messages: [enqueue]
    and [close] throw once the stream has been closed or cancelled.  The
    controllers are kept by address, as the session objects are; a [Set] of
    controllers is the list of its members in insertion order. *)

Module SSEManager.

(** What is put on a stream: [data: <session>] or [: heartbeat]. *)
Inductive Message := Data (session : Session) | Heartbeat.

Record Controller := mkController {
  c_open : bool;
  c_queue : list Message
}.

Record Hub := mkHub {
  controllers : list Controller;
  subscribers : JsMap.t (list nat)    (* Map<string, Set<SSEController>> *)
}.

Definition empty : Hub := mkHub [] [].

(** [set.add(c)] and [set.delete(c)]. *)
Definition add (c : nat) (set : list nat) : list nat :=
  if decide (c ∈ set) then set else set ++ [c].
Definition remove (c : nat) (set : list nat) : list nat :=
  filter (λ c', c' ≠ c) set.

(** [controller.enqueue(message)]; [None]: it throws. *)
Definition enqueue (message : Message) (c : Controller) : option Controller :=
  if c_open c then Some (mkController true (c_queue c ++ [message])) else None.

(** [controller.close()]; [None]: it throws. *)
Definition close (c : Controller) : option Controller :=
  if c_open c then Some (mkController false (c_queue c)) else None.

(** [subscribe]: the [start] callback runs inside the constructor of the
    stream.  The result is the hub and the address of the new controller,
    which stands for the stream. *)
Definition subscribe (sessionId : string) (hub : Hub) : Hub * nat :=
  let controller := length (controllers hub) in
  let subs :=
    if JsMap.has sessionId (subscribers hub) then subscribers hub
    else JsMap.set sessionId [] (subscribers hub) in
  let subs :=
    match JsMap.get sessionId subs with
    | Some set => JsMap.set sessionId (add controller set) subs
    | None => subs
    end in
  (mkHub (controllers hub ++ [mkController true []]) subs, controller).

(** The consumer cancels the stream of [controller]: the stream is closed,
    what was queued is dropped, and the [cancel] callback of [subscribe]
    runs. *)
Definition cancel (sessionId : string) (controller : nat) (hub : Hub) : Hub :=
  let hub :=
    mkHub (alter (λ _, mkController false []) controller (controllers hub))
      (subscribers hub) in
  match JsMap.get sessionId (subscribers hub) with
  | Some set =>
      if (length set =? 0)%nat
      then mkHub (controllers hub) (JsMap.delete sessionId (subscribers hub))
      else hub
  | None => hub
  end.

Definition unsubscribe (sessionId : string) (controller : nat) (hub : Hub)
    : Hub :=
  match JsMap.get sessionId (subscribers hub) with
  | Some set =>
      let set := remove controller set in
      if (length set =? 0)%nat
      then mkHub (controllers hub) (JsMap.delete sessionId (subscribers hub))
      else mkHub (controllers hub) (JsMap.set sessionId set (subscribers hub))
  | None => hub
  end.

(** One iteration of the loop of [publish] and of [sendHeartbeat]: the
    message is queued, or the controller is taken out of the set. *)
Definition send (sessionId : string) (message : Message) (hub : Hub)
    (controller : nat) : Hub :=
  match controllers hub !! controller ≫= enqueue message with
  | Some c => mkHub (<[controller := c]> (controllers hub)) (subscribers hub)
  | None =>
      match JsMap.get sessionId (subscribers hub) with
      | Some set =>
          mkHub (controllers hub)
            (JsMap.set sessionId (remove controller set) (subscribers hub))
      | None => hub
      end
  end.

(** The body that [publish] and [sendHeartbeat] share. *)
Definition sendAll (sessionId : string) (message : Message) (hub : Hub) : Hub :=
  match JsMap.get sessionId (subscribers hub) with
  | Some set =>
      if (length set =? 0)%nat then hub
      else foldl (send sessionId message) hub set
  | None => hub
  end.

Definition publish (sessionId : string) (data : Session) (hub : Hub) : Hub :=
  sendAll sessionId (Data data) hub.

Definition sendHeartbeat (sessionId : string) (hub : Hub) : Hub :=
  sendAll sessionId Heartbeat hub.

Definition closeSession (sessionId : string) (hub : Hub) : Hub :=
  match JsMap.get sessionId (subscribers hub) with
  | Some set =>
      let hub :=
        foldl (λ hub controller,
                 match controllers hub !! controller ≫= close with
                 | Some c =>
                     mkHub (<[controller := c]> (controllers hub))
                       (subscribers hub)
                 | None => hub
                 end) hub set in
      mkHub (controllers hub) (JsMap.delete sessionId (subscribers hub))
  | None => hub
  end.

Definition getSubscriberCount (sessionId : string) (hub : Hub) : nat :=
  match JsMap.get sessionId (subscribers hub) with
  | Some set => length set
  | None => 0
  end.

(** The calls of [publish] that the session manager has made, in order. *)
Definition deliver (log : list (string * Session)) (hub : Hub) : Hub :=
  foldl (λ hub entry, publish entry.1 entry.2 hub) hub log.

(** What can happen to the manager. *)
Inductive Call :=
  | Subscribe (sessionId : string)
  | Cancel (sessionId : string) (controller : nat)
  | Unsubscribe (sessionId : string) (controller : nat)
  | Publish (sessionId : string) (data : Session)
  | SendHeartbeat (sessionId : string)
  | CloseSession (sessionId : string).

Definition call (c : Call) (hub : Hub) : Hub :=
  match c with
  | Subscribe sessionId => (subscribe sessionId hub).1
  | Cancel sessionId controller => cancel sessionId controller hub
  | Unsubscribe sessionId controller => unsubscribe sessionId controller hub
  | Publish sessionId data => publish sessionId data hub
  | SendHeartbeat sessionId => sendHeartbeat sessionId hub
  | CloseSession sessionId => closeSession sessionId hub
  end.

(** The sets hold addresses of controllers, each once, and no controller is
    in the sets of two sessions; no session has two sets. *)
Record HubOk (hub : Hub) : Prop := mkHubOk {
  ok_keys : NoDup (subscribers hub).*1;
  ok_set : ∀ k set, (k, set) ∈ subscribers hub → NoDup set;
  ok_addr : ∀ k set c, (k, set) ∈ subscribers hub → c ∈ set →
            c < length (controllers hub);
  ok_one : ∀ k k' set set' c,
           (k, set) ∈ subscribers hub → (k', set') ∈ subscribers hub →
           c ∈ set → c ∈ set' → k = k'
}.

(** The controller [c] is subscribed to [sessionId]. *)
Definition subscribed (hub : Hub) (sessionId : string) (c : nat) : Prop :=
  c ∈ default [] (JsMap.get sessionId (subscribers hub)).

#[global] Instance subscribed_dec hub sessionId c :
  Decision (subscribed hub sessionId c).
Proof. unfold subscribed. apply _. Defined.

(** The stream of the controller [c] accepts messages. *)
Definition accepting (hub : Hub) (c : nat) : bool :=
  match controllers hub !! c with
  | Some ctl => c_open ctl
  | None => false
  end.

Definition queue (hub : Hub) (c : nat) : list Message :=
  default [] (c_queue <$> controllers hub !! c).

(** The effect of one [enqueue] in a [try]. *)
Definition offered (message : Message) (ctl : Controller) : Controller :=
  if c_open ctl then mkController true (c_queue ctl ++ [message]) else ctl.

(** [publish] or [sendHeartbeat], by the message that is sent. *)
Definition sent (sessionId : string) (message : Message) (hub : Hub) : Hub :=
  match message with
  | Data data => publish sessionId data hub
  | Heartbeat => sendHeartbeat sessionId hub
  end.

Inductive reachable : Hub → Prop :=
  | reachable_empty : reachable empty
  | reachable_call c hub : reachable hub → reachable (call c hub).

End SSEManager.

(** ** A clock for the examples

    [createSession] writes timestamps of the form [YYYY-MM-DD HH:MM:SS]; this
    instance reads that form (as if in UTC) and yields [NaN] on anything
    else.  The general theorems below hold for every [Clock]. *)

Definition digitValue (c : ascii) : option Z :=
  let n := nat_of_ascii c in
  if ((48 <=? n) && (n <=? 57))%nat then Some (Z.of_nat (n - 48)) else None.

Fixpoint digitsValue (acc : Z) (l : list ascii) : option Z :=
  match l with
  | [] => Some acc
  | c :: l' => d ← digitValue c; digitsValue (10 * acc + d)%Z l'
  end.

Definition field (from len : nat) (s : string) : option Z :=
  let l := String.list_ascii_of_string (String.substring from len s) in
  if (length l =? len)%nat then digitsValue 0 l else None.

Definition separator (at_ : nat) (c : ascii) (s : string) : bool :=
  match String.get at_ s with
  | Some c' => Ascii.eqb c c'
  | None => false
  end.

(** Days since 1970-01-01 of a civil date. *)
Definition daysFromCivil (y m d : Z) : Z :=
  let y' := (if m <=? 2 then y - 1 else y)%Z in
  let era := (y' / 400)%Z in
  let yoe := (y' - era * 400)%Z in
  let mp := ((m + 9) mod 12)%Z in
  let doy := ((153 * mp + 2) / 5 + d - 1)%Z in
  let doe := (yoe * 365 + yoe / 4 - yoe / 100 + doy)%Z in
  (era * 146097 + doe - 719468)%Z.

Definition timestampClock : Clock := λ s,
  if (String.length s =? 19)%nat
     && separator 4 "-" s && separator 7 "-" s && separator 10 " " s
     && separator 13 ":" s && separator 16 ":" s
  then
    y ← field 0 4 s; m ← field 5 2 s; d ← field 8 2 s;
    h ← field 11 2 s; mi ← field 14 2 s; sec ← field 17 2 s;
    if ((1 <=? m) && (m <=? 12) && (1 <=? d) && (d <=? 31) && (h <=? 23)
        && (mi <=? 59) && (sec <=? 59))%Z
    then Some ((((daysFromCivil y m d * 24 + h) * 60 + mi) * 60 + sec) * 1000)%Z
    else None
  else None.


(** ** Sample data *)

Definition alice : UserContext := mkUser "alice" false.
Definition guest : UserContext := mkUser "" false.

(** A valid request for Kweichow Moutai by [user]; [random36] and [nowIso] are
    what [Math.random] and the clock give at that moment. *)
Definition submit (user : UserContext) (random36 nowIso : string) : Event :=
  PostSessions user
    (mkRequest "600519" "A-Share" "" "2024-01-01" "2024-03-01" ["market"])
    (mkValidation true "600519" "Kweichow Moutai" "") random36 nowIso.

Definition firstSubmit (user : UserContext) : Event :=
  submit user "0.aaaaaaaaaa" "2024-03-01T10:00:00.000Z".
Definition secondSubmit (user : UserContext) : Event :=
  submit user "0.bbbbbbbbbb" "2024-03-01T10:00:01.000Z".
Definition thirdSubmit (user : UserContext) : Event :=
  submit user "0.cccccccccc" "2024-03-01T10:00:02.000Z".

(** The record of a session of the samples. *)
Definition sample (sid user : string) (st : SessionStatus)
    (created current : string) : Session :=
  mkSession sid "600519" "Kweichow Moutai" "A-share" "deepseek-v3" "2024-01-01"
    "2024-03-01" user st "" [] ∅ created "" current (Some ["market"]).

Definition sample_a : Session :=
  sample "aaaaaaaa" "alice" running "2024-03-01 10:00:00" "Market Analyst".
Definition sample_b : Session :=
  sample "bbbbbbbb" "alice" queued "2024-03-01 10:00:01" "".
Definition sample_c : Session :=
  sample "cccccccc" "alice" queued "2024-03-01 10:00:02" "".

(** The coroutine of the first session of the samples. *)
Definition task_a : Task := mkTask "aaaaaaaa" ["market"] 0 false true "" "" 0.

(** One session of alice, running. *)
Definition oneRunning : State :=
  run (H := timestampClock) [firstSubmit alice] initial.

(** Three sessions of alice: the first runs, the other two wait. *)
Definition twoWaiting : State :=
  run (H := timestampClock)
    [firstSubmit alice; secondSubmit alice; thirdSubmit alice] initial.

(** Alice deletes her running session while a second one waits, and submits a
    third before the feed of the deleted one delivers its next chunk. *)
Definition deleteThenSubmit : list Event :=
  [ firstSubmit alice; secondSubmit alice; DeleteSession alice "aaaaaaaa";
    thirdSubmit alice; FeedChunk 0 (mkChunk heartbeat None None) ].

(** Two requests without user name; then the feed of the first completes. *)
Definition twoGuests : list Event := [firstSubmit guest; secondSubmit guest].
Definition firstGuestDone : list Event :=
  twoGuests ++ [FeedChunk 0 (mkChunk complete None (Some "BUY"))].

(** A feed that ends without [complete]. *)
Definition silentEnd : list Event := [firstSubmit alice; FeedEnd 0].

Definition marketToken : Event :=
  FeedChunk 0 (mkChunk token (Some "Market Analyst") (Some "Price ")).

(** The first of the three sessions has failed for lack of quota; the second
    has been promoted. *)
Definition firstFailed : State :=
  exec (H := timestampClock) (FeedChunk 0 (mkChunk quota_error None None))
    twoWaiting.

Definition sample_a_failed : Session :=
  mkSession "aaaaaaaa" "600519" "Kweichow Moutai" "A-share" "deepseek-v3"
    "2024-01-01" "2024-03-01" "alice" error "" [] ∅ "2024-03-01 10:00:00"
    "API quota exhausted" "" (Some ["market"]).

(** The feed of the scenario of the specification. *)
Definition marketAnalystFeed : list Event :=
  [ FeedChunk 0 (mkChunk node_start (Some "Market Analyst") None);
    FeedChunk 0 (mkChunk token (Some "Market Analyst") (Some "Price "));
    FeedChunk 0 (mkChunk token (Some "Market Analyst") (Some "is up."));
    FeedChunk 0
      (mkChunk node_end (Some "Market Analyst") (Some "Price is up.")) ].

(** Alice deletes her only session while it runs: its coroutine is cancelled
    and waits for its next chunk. *)
Definition cancelledRun : State :=
  run (H := timestampClock) [firstSubmit alice; DeleteSession alice "aaaaaaaa"]
    initial.

Definition task_a_cancelled : Task :=
  mkTask "aaaaaaaa" ["market"] 0 true true "" "" 0.

(** The request and the validation of the samples. *)
Definition sampleRequest : CreateSessionRequest :=
  mkRequest "600519" "A-Share" "" "2024-01-01" "2024-03-01" ["market"].
Definition sampleValidation : ValidationResult :=
  mkValidation true "600519" "Kweichow Moutai" "".

(** One subscriber of the first session of the samples. *)
Definition oneSubscriber : SSEManager.Hub :=
  (SSEManager.subscribe "aaaaaaaa" SSEManager.empty).1.

(** An environment with one invite code. *)
Definition sampleEnv : JsMap.t string :=
  [("INVITE_CODES", "alice:secret"); ("ADMIN_USERS", "alice")].

(** ** Vocabulary of the properties *)

(** The coroutine [tid] is suspended, not cancelled, and holds the session
    object [s]. *)
Definition folding (st : State) (tid : nat) (t : Task) (s : Session) : Prop :=
  tasks st !! tid = Some t ∧ t_alive t = true ∧ t_aborted t = false
  ∧ heap st !! t_session t = Some s.

(** The assignments of [startSessionNow]: [AGENT_ORDER[0]] is
    "Market Analyst". *)
Definition started (s : Session) : Session :=
  set_currentAgent "Market Analyst" (set_status running s).

(** The assignments with which [retrySession] begins. *)
Definition reset (s : Session) : Session :=
  set_currentAgent ""
    (set_decision ""
       (set_reports ∅ (set_progress [] (set_errorMsg "" (set_status pending s))))).

(** The file holds the serialisation of the store. *)
Definition persisted (st : State) : Prop := disk st = Some (values st).




Definition is_restart (e : Event) : Prop :=
  match e with Restart _ => True | _ => False end.



(** What can be said of a session record whatever has happened to it: an
    error message goes with the status [error] and only with it, and a
    decision is present only in a [completed] session. *)
Definition rec_ok (s : Session) : Prop :=
  (errorMsg s ≠ "" ↔ status s = error)
  ∧ (decision s ≠ "" → status s = completed).

(** The invariant of the service.  The exception [x] is the coroutine that
    is being resumed, if any: between the assignment of a final status and
    its return, its session is no longer [running]. *)
Record InvX (x : option nat) (st : State) : Prop := mkInv {
  inv_keys : NoDup (sessions st).*1;
  inv_refs : NoDup (sessions st).*2;
  inv_ids : ∀ k r, (k, r) ∈ sessions st →
            ∃ s, heap st !! r = Some s ∧ id s = k;
  inv_rec : Forall rec_ok (heap st);
  inv_disk : ∀ d, disk st = Some d → Forall rec_ok d;
  inv_running : ∀ i t, tasks st !! i = Some t → t_alive t = true →
                Some i ≠ x →
                ∃ s, heap st !! t_session t = Some s ∧ status s = running;
  inv_tasks : ∀ i j t t', tasks st !! i = Some t → tasks st !! j = Some t' →
              t_alive t = true → t_alive t' = true →
              t_session t = t_session t' → i = j
}.

Abbreviation Inv := (InvX None).

(** [q] is a record of the store, queued, of user [user]. *)
Definition queuedFor (user : string) (st : State) (q : Session) : Prop :=
  q ∈ values st ∧ status q = queued ∧ userId q = user.

(** The event makes the coroutine [tid] (whose record is [t]) leave its loop:
    it is cancelled and receives a chunk, it receives [complete] or one of the
    error chunks, its feed ends, or its feed fails. *)
Definition ends_task (e : Event) (tid : nat) (t : Task) : Prop :=
  match e with
  | FeedChunk i chunk =>
      i = tid
      ∧ (t_aborted t = true ∨ type chunk = complete ∨ type chunk = error_chunk
         ∨ type chunk = quota_error ∨ type chunk = timeout_error)
  | FeedEnd i => i = tid
  | FeedThrow i _ => i = tid
  | _ => False
  end.

(** A session that the loop of [startNextQueuedSession] considers, and the
    time it compares. *)
Definition eligible `{Clock} (user : string) (q : Session) (tq : Z) : Prop :=
  status q = queued ∧ userId q = user ∧ Date_getTime (createdAt q) = Some tq.

(** The accumulator of the loop: [nextSession] and [earliestTime] go
    together. *)
Definition acc_ok `{Clock} (acc : option Session * option Z) : Prop :=
  match acc with
  | (None, None) => True
  | (Some q, Some tq) => Date_getTime (createdAt q) = Some tq
  | _ => False
  end.

(** [s] is the record that the store holds under the key [k], at address
    [r]. *)
Definition entry (st : State) (k : string) (r : nat) (s : Session) : Prop :=
  (k, r) ∈ sessions st ∧ heap st !! r = Some s.

(** No two records of the store are running for the same non-empty user
    id. *)
Definition oneSlot (st : State) : Prop :=
  ∀ k1 r1 s1 k2 r2 s2,
    entry st k1 r1 s1 → entry st k2 r2 s2 →
    status s1 = running → status s2 = running →
    userId s1 = userId s2 → userId s1 ≠ "" → r1 = r2.

(** If the event ends a coroutine, that coroutine has not been cancelled and
    its session is still in the store. *)
Definition ends_attached (e : Event) (st : State) : Prop :=
  ∀ tid t, ends_task e tid t → tasks st !! tid = Some t → t_alive t = true →
           t_aborted t = false ∧ t_session t ∈ (sessions st).*2.

(** What [loadSessions] makes of a record of the file whose [id] and
    [createdAt] are not empty. *)
Definition reloaded (data : Session) : Session :=
  let session := parseSession data "" "" in
  if decide (status session = running) then
    set_currentAgent ""
      (set_errorMsg "Server restarted, analysis interrupted"
         (set_status error session))
  else session.

(** The key of [userQueuePositions] for a session. *)
Definition queueKey (s : Session) : string := str_or (userId s) "__anonymous__".

(** The sessions that [getAllSessions] selects, before sorting. *)
Definition inScope (requester : option string) (admin : bool) (s : Session)
    : Prop :=
  admin = true
  ∨ (truthy requester = true ∧ Some (userId s) = requester)
  ∨ (truthy requester = false ∧ userId s = "").

#[global] Instance inScope_dec requester admin s :
  Decision (inScope requester admin s).
Proof. unfold inScope. apply _. Defined.

(** [a] is listed before [b] only if it is not older. *)
Definition notOlder `{Clock} (a b : Session) : Prop :=
  ∃ ta tb, Date_getTime (createdAt a) = Some ta
           ∧ Date_getTime (createdAt b) = Some tb ∧ (tb ≤ ta)%Z.

(** The number that [getAllSessionSummaries] gives to the session at
    position [i] of the list [l]: one more than the number of queued sessions
    with the same key before it. *)
Definition queueRank (l : list Session) (i : nat) (s : Session) : option nat :=
  if decide (status s = queued) then
    Some (S (length (filter
                       (λ s', status s' = queued ∧ queueKey s' = queueKey s)
                       (take i l))))
  else None.

(** Every field that no method assigns is the same in [s] and [s']. *)
Definition same_request (s s' : Session) : Prop :=
  id s' = id s ∧ ticker s' = ticker s ∧ stockName s' = stockName s
  ∧ market s' = market s ∧ model s' = model s ∧ startDate s' = startDate s
  ∧ endDate s' = endDate s ∧ userId s' = userId s
  ∧ createdAt s' = createdAt s.

(** [s'] is a later state of the object [s]: the fields of the request are
    the same, and, unless [retry] is set, [progress] has only grown. *)
Definition evolves (retry : bool) (s s' : Session) : Prop :=
  same_request s s' ∧ (retry = false → progress s `prefix_of` progress s').

(** Every object of the heap [h] is in [h'], at the same address, in a later
    state. *)
Definition keeps (retry : bool) (h h' : list Session) : Prop :=
  ∀ r s, h !! r = Some s → ∃ s', h' !! r = Some s' ∧ evolves retry s s'.

Definition is_retry (e : Event) : Prop :=
  match e with PostRetry _ _ => True | _ => False end.

(** The event is a failure of the coroutine [tid]: an error chunk, or an
    exception of the feed. *)
Definition is_failure (e : Event) (tid : nat) : Prop :=
  match e with
  | FeedChunk i chunk =>
      i = tid ∧ (type chunk = error_chunk ∨ type chunk = quota_error
                 ∨ type chunk = timeout_error)
  | FeedThrow i _ => i = tid
  | _ => False
  end.

(** The message that goes with a failure. *)
Definition failureMessage (e : Event) : string :=
  match e with
  | FeedChunk _ chunk =>
      match type chunk with
      | quota_error => "API quota exhausted"
      | timeout_error => "Network response timeout"
      | _ => substring0 200 (or_else (content chunk) "Unknown error")
      end
  | FeedThrow _ message => or_else (substring0 200 <$> message) "Unknown error"
  | _ => ""
  end.

(** [hub'] has the controllers of [hub] at the same addresses, and its sets
    are parts of sets of [hub] under the same keys. *)
Definition shrinks (hub hub' : SSEManager.Hub) : Prop :=
  length (SSEManager.controllers hub') = length (SSEManager.controllers hub)
  ∧ NoDup (SSEManager.subscribers hub').*1
  ∧ ∀ k set', (k, set') ∈ SSEManager.subscribers hub' →
              ∃ set, (k, set) ∈ SSEManager.subscribers hub
                     ∧ set' `sublist_of` set.

(** The effect of one [close] in a [try]. *)
Definition shut (ctl : SSEManager.Controller) : SSEManager.Controller :=
  SSEManager.mkController false (SSEManager.c_queue ctl).

(** The forms of a valid ticker. *)
Definition AShareForm : list Item := [mkItem Digit 6 6].
Definition USForm : list Item := [mkItem Upper 1 5].
Definition USClassForm : list Item :=
  [mkItem Upper 1 4; lit ".-"; mkItem Upper 1 1].
Definition HKForm : list Item :=
  [mkItem Digit 4 5; lit "."; lit "H"; lit "K"].

(** The string is empty or begins with a character that is no white
    space. *)
Definition headOk (s : string) : Prop :=
  match s with
  | EmptyString => True
  | String c _ => isWhiteSpace c = false
  end.

(** No character of [s] is white space, and [toUpperCase] changes none. *)
Fixpoint plain (s : string) : bool :=
  match s with
  | EmptyString => true
  | String c s' =>
      negb (isWhiteSpace c) && bool_decide (upper c = c) && plain s'
  end.

(** No character of the set is white space, and [toUpperCase] changes
    none. *)
Definition plainSet (set : CharSet) : Prop :=
  ∀ c, inSet set c = true → isWhiteSpace c = false ∧ upper c = c.

(** No stored password holds a colon. *)
Definition colonFree (codes : JsMap.t string) : Prop :=
  ∀ user pwd, (user, pwd) ∈ codes → includes ":" pwd = false.

(** * Properties *)

(** ** JavaScript values *)

Lemma truthy_Some (s : string) : truthy (Some s) = true ↔ s ≠ "".
Proof. unfold truthy. by rewrite bool_decide_eq_true. Qed.

Lemma or_else_nonempty (o : option string) (d : string) :
  d ≠ "" → or_else o d ≠ "".
Proof.
  intros Hd. destruct o as [s|]; simpl; [|done].
  by destruct (decide (s = "")).
Qed.

Lemma substring0_nonempty (n : nat) (s : string) :
  s ≠ "" → substring0 (S n) s ≠ "".
Proof. by destruct s. Qed.

(** ** The order of the stages *)

(** [getNextAgent] of a stage is the stage after it, and the empty string
    for the last one and for a name that is no stage. *)
Lemma getNextAgent_order (i : nat) (a : string) :
  AGENT_ORDER !! i = Some a →
  getNextAgent a = default "" (AGENT_ORDER !! S i).
Proof.
  intros Ha. do 13 (destruct i as [|i]; [by injection Ha as <-|]). done.
Qed.

Lemma getNextAgent_unknown (a : string) :
  a ∉ AGENT_ORDER → getNextAgent a = "".
Proof.
  intros Ha. unfold getNextAgent.
  assert (∀ l, a ∉ l → indexOf a l = None) as Hnone.
  { induction l as [|b l IH]; [done|]. intros [Hne Hl]%not_elem_of_cons.
    simpl. rewrite decide_False by done. by rewrite IH. }
  by rewrite Hnone.
Qed.

(** ** The state after the primitive effects *)

Lemma publish_heap sid r st : heap (publish sid r st) = heap st.
Proof. unfold publish. by destruct (heap st !! r). Qed.

Lemma publish_sessions sid r st : sessions (publish sid r st) = sessions st.
Proof. unfold publish. by destruct (heap st !! r). Qed.

Lemma publish_tasks sid r st : tasks (publish sid r st) = tasks st.
Proof. unfold publish. by destruct (heap st !! r). Qed.

Lemma publish_disk sid r st : disk (publish sid r st) = disk st.
Proof. unfold publish. by destruct (heap st !! r). Qed.

Lemma publish_runningTasks sid r st :
  runningTasks (publish sid r st) = runningTasks st.
Proof. unfold publish. by destruct (heap st !! r). Qed.

Lemma values_ext st st' :
  heap st' = heap st → sessions st' = sessions st → values st' = values st.
Proof. unfold values. by intros -> ->. Qed.

Lemma getObj_ext st st' sid :
  heap st' = heap st → sessions st' = sessions st →
  getObj st' sid = getObj st sid.
Proof. unfold getObj. by intros -> ->. Qed.

Lemma getObj_Some st sid r s :
  getObj st sid = Some (r, s) ↔
  JsMap.get sid (sessions st) = Some r ∧ heap st !! r = Some s.
Proof.
  unfold getObj. destruct (JsMap.get sid (sessions st)) as [r'|]; simpl.
  - destruct (heap st !! r') as [s'|] eqn:Hs; simpl.
    + split; [by intros [= <- <-]|]. intros [[= <-] Hs']. congruence.
    + split; [done|]. intros [[= <-] Hs']. congruence.
  - split; [done|]. by intros [? _].
Qed.

Lemma getObj_modify_same st sid r s f :
  getObj st sid = Some (r, s) → getObj (modify r f st) sid = Some (r, f s).
Proof.
  rewrite !getObj_Some. simpl. intros [-> Hs]. split; [done|].
  by rewrite list_lookup_alter_eq, Hs.
Qed.

(** Rewriting rules for the components of a state after the effects that do
    not branch. *)
Ltac state_simpl :=
  repeat first
    [ progress cbn [heap sessions runningTasks tasks disk published modify
                    upd_heap upd_sessions upd_runningTasks upd_tasks
                    saveSessions] in *
    | rewrite publish_heap in *
    | rewrite publish_sessions in *
    | rewrite publish_tasks in *
    | rewrite publish_disk in *
    | rewrite publish_runningTasks in * ].

(** ** Folding of the feed of one stage *)

Section Folding.
Context `{Clock}.

Lemma fold_node_start st tid t s a c :
  folding st tid t s → a ≠ "" →
  folding (exec (FeedChunk tid (mkChunk node_start (Some a) c)) st) tid
    (setLocals a "" 0 t) (set_currentAgent a s).
Proof.
  intros (Ht & Halive & Habort & Hs) Ha. unfold folding, exec, resume.
  rewrite Ht, Halive. unfold onChunk. rewrite Habort.
  cbn [type agent content].
  assert (truthy (Some a) = true) as -> by by apply truthy_Some.
  simpl or_else. destruct (decide (a = "")); [done|].
  state_simpl. rewrite !list_lookup_alter_eq, Ht, Hs. done.
Qed.

Lemma fold_token st tid t s a c :
  folding st tid t s → a ≠ "" → c ≠ "" →
  folding (exec (FeedChunk tid (mkChunk token (Some a) (Some c))) st) tid
    (setLocals (t_currentAgent t) (t_accumulatedContent t +:+ c)
       (S (t_tokenCount t)) t)
    (set_reports (<[a := t_accumulatedContent t +:+ c]> (reports s)) s).
Proof.
  intros (Ht & Halive & Habort & Hs) Ha Hc. unfold folding, exec, resume.
  rewrite Ht, Halive. unfold onChunk. rewrite Habort.
  cbn [type agent content].
  assert (truthy (Some a) = true) as -> by by apply truthy_Some.
  assert (truthy (Some c) = true) as -> by by apply truthy_Some.
  simpl or_else. destruct (decide (a = "")), (decide (c = "")); try done.
  cbn [andb]. state_simpl. rewrite !list_lookup_alter_eq, Ht, Hs. done.
Qed.

Lemma fold_node_end st tid t s a c :
  folding st tid t s → a ≠ "" → c ≠ "" →
  folding (exec (FeedChunk tid (mkChunk node_end (Some a) (Some c))) st) tid
    (setLocals "" "" (t_tokenCount t) t)
    (set_currentAgent (getNextAgent a)
       (set_progress (progress s ++ [a])
          (set_reports (<[a := c]> (reports s)) s))).
Proof.
  intros (Ht & Halive & Habort & Hs) Ha Hc. unfold folding, exec, resume.
  rewrite Ht, Halive. unfold onChunk. rewrite Habort.
  cbn [type agent content].
  assert (truthy (Some a) = true) as -> by by apply truthy_Some.
  assert (truthy (Some c) = true) as -> by by apply truthy_Some.
  simpl or_else. destruct (decide (a = "")), (decide (c = "")); try done.
  cbn [andb]. state_simpl. rewrite !list_lookup_alter_eq, Ht, Hs. done.
Qed.

(** C2. A coroutine that folds [node_start], two [token]s and [node_end] of
    "Market Analyst" into a session whose run has just begun ends with the
    final content as that stage's report (it replaces what the tokens
    accumulated), with "Market Analyst" as the only completed stage, and with
    the stage after it in [AGENT_ORDER] as the current one. *)
Theorem market_analyst_scenario st tid t s :
  folding st tid t s → status s = running → progress s = [] →
  let feed :=
    [ FeedChunk tid (mkChunk node_start (Some "Market Analyst") None);
      FeedChunk tid (mkChunk token (Some "Market Analyst") (Some "Price "));
      FeedChunk tid (mkChunk token (Some "Market Analyst") (Some "is up."));
      FeedChunk tid
        (mkChunk node_end (Some "Market Analyst") (Some "Price is up.")) ] in
  ∃ s',
    heap (run feed st) !! t_session t = Some s'
    ∧ reports s' !! "Market Analyst" = Some "Price is up."
    ∧ progress s' = ["Market Analyst"]
    ∧ Some (currentAgent s') = AGENT_ORDER !! 1%nat
    ∧ currentAgent s' = getNextAgent "Market Analyst"
    ∧ status s' = running.
Proof.
  intros Hf Hrun Hprog feed. subst feed. unfold run. simpl foldl.
  eapply (fold_node_start _ _ _ _ "Market Analyst" None) in Hf; [|done].
  eapply (fold_token _ _ _ _ "Market Analyst" "Price ") in Hf; [|done..].
  eapply (fold_token _ _ _ _ "Market Analyst" "is up.") in Hf; [|done..].
  eapply (fold_node_end _ _ _ _ "Market Analyst" "Price is up.") in Hf;
    [|done..].
  destruct Hf as (_ & _ & _ & Hs). simpl in Hs.
  eexists; split; [exact Hs|]. simpl. rewrite Hprog.
  split; [apply lookup_insert_eq|]. done.
Qed.

(** C10. A [token] or [node_end] chunk whose agent or content is null or
    empty changes nothing of the session record it is folded into: no report
    is set, the stage is not added to [progress], [currentAgent] does not
    move, and nothing is written or published. *)
Theorem empty_token_or_node_end_ignored st tid t s chunk :
  folding st tid t s →
  type chunk = token ∨ type chunk = node_end →
  truthy (agent chunk) = false ∨ truthy (content chunk) = false →
  let st' := exec (FeedChunk tid chunk) st in
  heap st' !! t_session t = Some s
  ∧ heap st' = heap st ∧ sessions st' = sessions st
  ∧ disk st' = disk st ∧ published st' = published st.
Proof.
  intros (Ht & Halive & Habort & Hs) Hty Hempty. simpl.
  unfold exec, resume. rewrite Ht, Halive. unfold onChunk. rewrite Habort.
  assert (truthy (agent chunk) && truthy (content chunk) = false) as ->.
  { destruct Hempty as [-> | ->]; [done|]. by rewrite andb_false_r. }
  by destruct Hty as [-> | ->].
Qed.
End Folding.

(** ** Reading a session *)

(** The guard of [getSession] as it is written.  An admin obtains every
    stored session.  A requester who is not an admin is refused only when the
    requester and the session both have a non-empty user id and the two
    differ: a requester without user id passes whoever owns the session.
    (The comment above the guard reads "Regular users can only access their
    own sessions", and [getAllSessions] and [getRunningCount] do select by
    owner.)  A refusal is the answer for an unknown id. *)
Lemma getSession_guard st sid r s requester :
  getObj st sid = Some (r, s) →
  getSession st sid requester true = Some s
  ∧ (getSession st sid requester false = Some s
     ↔ truthy requester = false ∨ userId s = "" ∨ requester = Some (userId s))
  ∧ (getSession st sid requester false ≠ Some s →
     ∀ unknown, getObj st unknown = None →
       getSession st sid requester false
       = getSession st unknown requester false).
Proof.
  intros Hobj. unfold getSession. rewrite Hobj. split; [done|].
  destruct (truthy requester) eqn:Hreq; simpl.
  - destruct (decide (userId s = "")) as [He|He].
    + rewrite bool_decide_eq_false_2 by (by intros []). simpl.
      split; [|by intros []]. split; [by right; left|done].
    + rewrite bool_decide_eq_true_2 by done. simpl.
      destruct (decide (Some (userId s) = requester)) as [Hu|Hu].
      * rewrite bool_decide_eq_false_2 by (by intros []).
        split; [|by intros []]. split; [by right; right|done].
      * rewrite bool_decide_eq_true_2 by done. split.
        -- split; [done|]. intros [?|[?|?]]; congruence.
        -- intros _ unknown ->. done.
  - split; [|by intros []]. split; [by left|done].
Qed.

Lemma getSession_getObj st sid requester admin s :
  getSession st sid requester admin = Some s →
  ∃ r, getObj st sid = Some (r, s).
Proof.
  unfold getSession. destruct (getObj st sid) as [[r s']|]; [|done].
  intros Hs. exists r. repeat case_match; congruence.
Qed.

Lemma getSession_same_owner st st' sid requester admin r s r' s' :
  getObj st sid = Some (r, s) → getObj st' sid = Some (r', s') →
  userId s' = userId s →
  getSession st sid requester admin = Some s →
  getSession st' sid requester admin = Some s'.
Proof.
  unfold getSession. intros -> -> ->. repeat case_match; congruence.
Qed.

(** ** Admission *)

Lemma startSessionNow_getObj st sid r s a :
  getObj st sid = Some (r, s) →
  getObj (startSessionNow sid a st) sid = Some (r, started s).
Proof.
  intros Hobj. unfold startSessionNow. rewrite Hobj.
  erewrite getObj_ext; [by apply getObj_modify_same| |]; by state_simpl.
Qed.

Lemma startSession_getObj st sid r s a :
  getObj st sid = Some (r, s) →
  let st1 := modify r (set_analysts a) st in
  getObj (startSession sid a st) sid =
    Some (r, match getUserRunningSession st1 (userId s) with
             | Some _ => set_status queued (set_analysts a s)
             | None => started (set_analysts a s)
             end).
Proof.
  intros Hobj st1. unfold startSession. rewrite Hobj. fold st1.
  assert (getObj st1 sid = Some (r, set_analysts a s)) as Hobj1
    by by apply getObj_modify_same.
  destruct (getUserRunningSession st1 (userId s)).
  - erewrite getObj_ext; [by apply getObj_modify_same| |]; by state_simpl.
  - by apply startSessionNow_getObj.
Qed.

(** C8. The retry route refuses a session whose status is not [error] with a
    400 answer and changes nothing.  For a session in [error] it clears
    [progress], [reports], [decision], [errorMsg] and [currentAgent], sets the
    status to [pending], and hands the session to [startSession], the entry
    that a new session takes too; the session ends up [queued] or [running],
    with nothing left of the earlier run, and is the body of the answer. *)
Theorem retry_only_from_error user sid st s :
  getSession st sid (Some (username user)) (isAdmin user) = Some s →
  (status s ≠ error →
     retryRoute user sid st
     = (st, JsonError 400 "Can only retry sessions with errors"))
  ∧ (status s = error →
     ∃ r s',
       getObj st sid = Some (r, s)
       ∧ status (reset s) = pending ∧ progress (reset s) = []
       ∧ reports (reset s) = ∅ ∧ decision (reset s) = ""
       ∧ errorMsg (reset s) = "" ∧ currentAgent (reset s) = ""
       ∧ (retryRoute user sid st).1
         = startSession sid defaultAnalysts (saveSessions (modify r reset st))
       ∧ getObj (retryRoute user sid st).1 sid = Some (r, s')
       ∧ (retryRoute user sid st).2 = Json (Some s')
       ∧ (status s' = queued ∧ currentAgent s' = ""
          ∨ status s' = running ∧ currentAgent s' = "Market Analyst")
       ∧ progress s' = [] ∧ reports s' = ∅ ∧ decision s' = ""
       ∧ errorMsg s' = "").
Proof.
  intros Hget. unfold retryRoute. rewrite Hget. split.
  - intros Hne. by rewrite decide_True.
  - intros Herr. rewrite decide_False by (by intros []).
    destruct (getSession_getObj _ _ _ _ _ Hget) as [r Hobj].
    set (st1 := saveSessions (modify r reset st)).
    assert (getObj st1 sid = Some (r, reset s)) as Hobj1.
    { unfold st1. erewrite getObj_ext; [by apply getObj_modify_same| |];
        by state_simpl. }
    assert (retrySession sid None st = startSession sid defaultAnalysts st1)
      as Hretry.
    { unfold retrySession. by rewrite Hobj. }
    pose proof (startSession_getObj _ _ _ _ defaultAnalysts Hobj1) as Hfinal.
    simpl in Hfinal. rewrite <- Hretry in Hfinal.
    eexists r, _. cbn [fst snd]. rewrite Hretry at 1.
    split_and!; try done; try exact Hfinal.
    + f_equal. eapply getSession_same_owner; [exact Hobj|exact Hfinal| |done].
      by case_match.
    + case_match; [by left|by right].
    + by case_match.
    + by case_match.
    + by case_match.
    + by case_match.
Qed.

(** ** Persistence *)

Section Persistence.
Context `{Clock}.





Lemma saveSessions_persisted st : persisted (saveSessions st).
Proof. done. Qed.
















End Persistence.

(** ** The [Map] *)

Section JsMapFacts.
Context {V : Type}.
Implicit Types (m : JsMap.t V) (k : string) (v : V).

Lemma get_of_elem m k v : NoDup m.*1 → (k, v) ∈ m → JsMap.get k m = Some v.
Proof.
  induction m as [|[k' v'] m IH]; simpl; [by intros _ ?%elem_of_nil|].
  intros [Hk Hnd]%NoDup_cons [Heq|Hin]%elem_of_cons.
  - injection Heq as -> ->. by rewrite decide_True.
  - destruct (decide (k = k')) as [->|Hne]; [|by apply IH].
    destruct Hk. apply list_elem_of_fmap. by exists (k', v).
Qed.

Lemma get_set m k v : JsMap.get k (JsMap.set k v m) = Some v.
Proof.
  induction m as [|[k0 v0] m IH]; simpl.
  - by rewrite decide_True.
  - destruct (decide (k = k0)) as [->|Hne]; simpl.
    + by rewrite decide_True.
    + by rewrite decide_False.
Qed.

Lemma set_elem_of m k v k' v' :
  (k', v') ∈ JsMap.set k v m → (k', v') = (k, v) ∨ (k', v') ∈ m.
Proof.
  induction m as [|[k0 v0] m IH]; simpl.
  - intros ->%list_elem_of_singleton. by left.
  - destruct (decide (k = k0)) as [->|Hne].
    + intros [?|Hin]%elem_of_cons; [by left|]. right. by right.
    + intros [->|Hin]%elem_of_cons; [right; by left|].
      destruct (IH Hin) as [?|?]; [by left|]. right. by right.
Qed.

Lemma set_keys_NoDup m k v : NoDup m.*1 → NoDup (JsMap.set k v m).*1.
Proof.
  induction m as [|[k0 v0] m IH]; simpl.
  - intros _. apply NoDup_singleton.
  - intros [Hk Hnd]%NoDup_cons. destruct (decide (k = k0)) as [->|Hne]; simpl.
    + by apply NoDup_cons.
    + apply NoDup_cons. split; [|by apply IH].
      intros ([k1 v1] & Hk1 & Hin)%list_elem_of_fmap. simpl in Hk1. subst k1.
      apply set_elem_of in Hin as [[= -> ->]|Hin]; [done|].
      apply Hk, list_elem_of_fmap. by exists (k0, v1).
Qed.

Lemma set_values_NoDup m k v :
  NoDup m.*2 → v ∉ m.*2 → NoDup (JsMap.set k v m).*2.
Proof.
  induction m as [|[k0 v0] m IH]; simpl.
  - intros _ _. apply NoDup_singleton.
  - intros [Hv Hnd]%NoDup_cons Hfresh%not_elem_of_cons.
    destruct Hfresh as [Hne Hfresh].
    destruct (decide (k = k0)) as [->|Hk]; simpl.
    + by apply NoDup_cons.
    + apply NoDup_cons. split; [|by apply IH].
      intros ([k1 v1] & Hv1 & Hin)%list_elem_of_fmap. simpl in Hv1. subst v1.
      apply set_elem_of in Hin as [[= -> ->]|Hin]; [done|].
      apply Hv, list_elem_of_fmap. by exists (k1, v0).
Qed.

Lemma delete_elem_of m k k' v' : (k', v') ∈ JsMap.delete k m → (k', v') ∈ m.
Proof.
  induction m as [|[k0 v0] m IH]; simpl; [done|].
  destruct (decide (k = k0)) as [->|Hne].
  - intros Hin. by right.
  - intros [->|Hin]%elem_of_cons; [by left|]. right. by apply IH.
Qed.

Lemma delete_keys_NoDup m k : NoDup m.*1 → NoDup (JsMap.delete k m).*1.
Proof.
  induction m as [|[k0 v0] m IH]; simpl; [done|].
  intros [Hk Hnd]%NoDup_cons. destruct (decide (k = k0)) as [->|Hne]; [done|].
  simpl. apply NoDup_cons. split; [|by apply IH].
  intros ([k1 v1] & Hk1 & Hin)%list_elem_of_fmap. simpl in Hk1. subst k1.
  apply Hk, list_elem_of_fmap. exists (k0, v1). split; [done|].
  by eapply delete_elem_of.
Qed.

Lemma delete_values_NoDup m k : NoDup m.*2 → NoDup (JsMap.delete k m).*2.
Proof.
  induction m as [|[k0 v0] m IH]; simpl; [done|].
  intros [Hv Hnd]%NoDup_cons. destruct (decide (k = k0)) as [->|Hne]; [done|].
  simpl. apply NoDup_cons. split; [|by apply IH].
  intros ([k1 v1] & Hv1 & Hin)%list_elem_of_fmap. simpl in Hv1. subst v1.
  apply Hv, list_elem_of_fmap. exists (k1, v0). split; [done|].
  by eapply delete_elem_of.
Qed.
End JsMapFacts.

(** ** The invariant under the primitive effects *)

Lemma values_elem_of st s :
  s ∈ values st ↔ ∃ k r, (k, r) ∈ sessions st ∧ heap st !! r = Some s.
Proof.
  unfold values. rewrite list_elem_of_omap. split.
  - intros ([k r] & Hin & Hs). by exists k, r.
  - intros (k & r & Hin & Hs). by exists (k, r).
Qed.

Lemma rec_ok_idle s :
  rec_ok s → status s ≠ error → status s ≠ completed →
  errorMsg s = "" ∧ decision s = "".
Proof.
  intros [Herr Hdec] Hne Hnc. split.
  - destruct (decide (errorMsg s = "")) as [|Hm]; [done|].
    by apply Herr in Hm.
  - destruct (decide (decision s = "")) as [|Hd]; [done|].
    by apply Hdec in Hd.
Qed.

Section InvariantPrimitives.
Implicit Types (st : State) (x : option nat).

Lemma InvX_ext x st st' :
  heap st' = heap st → sessions st' = sessions st → tasks st' = tasks st →
  disk st' = disk st → InvX x st → InvX x st'.
Proof.
  intros Hh Hs Ht Hd [? ? ? ? ? ? ?].
  split; rewrite ?Hh, ?Hs, ?Ht, ?Hd; done.
Qed.

Lemma InvX_weaken x st : Inv st → InvX x st.
Proof.
  intros [? ? ? ? ? Hrun ?]. split; try done.
  intros i t Ht Halive _. by eapply Hrun.
Qed.

Lemma values_rec_ok x st : InvX x st → Forall rec_ok (values st).
Proof.
  intros HI. apply Forall_forall. intros s (k & r & _ & Hs)%values_elem_of.
  pose proof (inv_rec _ _ HI) as Hrec.
  by eapply (Forall_lookup_1 _ _ _ _ Hrec).
Qed.

Lemma InvX_saveSessions x st : InvX x st → InvX x (saveSessions st).
Proof.
  intros HI. pose proof (values_rec_ok _ _ HI) as Hv.
  destruct HI as [? ? ? ? ? ? ?]. split; try done.
  simpl. by intros d [= <-].
Qed.

Lemma InvX_publish x st sid r : InvX x st → InvX x (publish sid r st).
Proof. apply InvX_ext; by state_simpl. Qed.

Lemma InvX_upd_runningTasks x st f :
  InvX x st → InvX x (upd_runningTasks f st).
Proof. by apply InvX_ext. Qed.

Lemma InvX_modify x st r f :
  InvX x st →
  (∀ s, heap st !! r = Some s → id (f s) = id s ∧ rec_ok (f s)) →
  (∀ i t s, tasks st !! i = Some t → t_alive t = true → Some i ≠ x →
            t_session t = r → heap st !! r = Some s → status (f s) = running) →
  InvX x (modify r f st).
Proof.
  intros [Hk Hr Hids Hrec Hdisk Hrun Htasks] Hf Hstatus.
  split; simpl; try done.
  - intros k r' Hin. destruct (Hids k r' Hin) as (s & Hs & Hid).
    destruct (decide (r = r')) as [->|Hne].
    + exists (f s). rewrite list_lookup_alter_eq, Hs. split; [done|].
      by rewrite (proj1 (Hf s Hs)).
    + exists s. by rewrite list_lookup_alter_ne.
  - apply Forall_alter; [done|]. intros s Hs _. by apply Hf.
  - intros i t Ht Halive Hx. destruct (Hrun i t Ht Halive Hx) as (s & Hs & Hst).
    destruct (decide (r = t_session t)) as [->|Hne].
    + exists (f s). rewrite list_lookup_alter_eq, Hs. split; [done|].
      by eapply Hstatus.
    + exists s. by rewrite list_lookup_alter_ne.
Qed.

(** An assignment that leaves identifier, status, error message and decision
    alone. *)
Lemma InvX_modify_neutral x st r f :
  InvX x st →
  (∀ s, id (f s) = id s ∧ status (f s) = status s
        ∧ errorMsg (f s) = errorMsg s ∧ decision (f s) = decision s) →
  InvX x (modify r f st).
Proof.
  intros HI Hf. apply InvX_modify; [done|..].
  - intros s Hs. destruct (Hf s) as (Hid & Hst & He & Hd). split; [done|].
    pose proof (inv_rec _ _ HI) as Hrec.
    pose proof (Forall_lookup_1 _ _ _ _ Hrec Hs) as Hok.
    unfold rec_ok in *. by rewrite Hst, He, Hd.
  - intros i t s Ht Halive Hx <- Hs.
    destruct (inv_running _ _ HI i t Ht Halive Hx) as (s' & Hs' & Hrun).
    destruct (Hf s) as (_ & -> & _). congruence.
Qed.

Lemma InvX_tasks_alter x st i g :
  InvX x st →
  (∀ t, t_session (g t) = t_session t ∧ (t_alive (g t) = true → t_alive t = true)) →
  InvX x (upd_tasks (alter g i) st).
Proof.
  intros [Hk Hr Hids Hrec Hdisk Hrun Htasks] Hg.
  assert (∀ j t', alter g i (tasks st) !! j = Some t' →
            ∃ t, tasks st !! j = Some t ∧ t_session t' = t_session t
                 ∧ (t_alive t' = true → t_alive t = true)) as Hback.
  { intros j t'. rewrite list_lookup_alter. destruct (decide (i = j)) as [->|].
    - destruct (tasks st !! j) as [t|]; [|done]. intros [= <-].
      exists t. split; [done|]. apply Hg.
    - intros Ht. by exists t'. }
  split; simpl; try done.
  - intros j t' (t & Ht & Hs & Ha)%Hback Halive Hx. rewrite Hs.
    by eapply Hrun; [|apply Ha|].
  - intros j1 j2 t1 t2 (t1' & Ht1 & Hs1 & Ha1)%Hback
      (t2' & Ht2 & Hs2 & Ha2)%Hback Hal1 Hal2 Heq.
    eapply Htasks; [exact Ht1|exact Ht2|by apply Ha1|by apply Ha2|congruence].
Qed.

Lemma Inv_finished st tid :
  InvX (Some tid) st → Inv (upd_tasks (alter finished tid) st).
Proof.
  intros [Hk Hr Hids Hrec Hdisk Hrun Htasks].
  assert (∀ j t', alter finished tid (tasks st) !! j = Some t' →
            t_alive t' = true →
            j ≠ tid ∧ tasks st !! j = Some t') as Hback.
  { intros j t'. rewrite list_lookup_alter.
    destruct (decide (tid = j)) as [->|].
    - destruct (tasks st !! j) as [t|]; [|done]. by intros [= <-].
    - done. }
  split; simpl; try done.
  - intros j t' Ht Halive _. destruct (Hback j t' Ht Halive) as [Hne Ht'].
    eapply Hrun; [done..|]. by intros [= ->].
  - intros j1 j2 t1 t2 Ht1 Ht2 Hal1 Hal2 Heq.
    destruct (Hback j1 t1 Ht1 Hal1) as [_ Ht1'].
    destruct (Hback j2 t2 Ht2 Hal2) as [_ Ht2'].
    by eapply Htasks.
Qed.

Lemma Inv_spawn st sid a r s :
  Inv st → heap st !! r = Some s → status s = running →
  (∀ i t, tasks st !! i = Some t → t_alive t = true → t_session t ≠ r) →
  Inv (upd_tasks (λ ts, ts ++ [mkTask sid a r false true "" "" 0]) st).
Proof.
  intros [Hk Hr Hids Hrec Hdisk Hrun Htasks] Hs Hst Hfree.
  assert (∀ j t', (tasks st ++ [mkTask sid a r false true "" "" 0]) !! j
                  = Some t' →
            tasks st !! j = Some t'
            ∨ j = length (tasks st) ∧ t' = mkTask sid a r false true "" "" 0)
    as Hback.
  { intros j t' [Hj|[Hj Ht']]%lookup_app_Some; [by left|right].
    destruct (j - length (tasks st)) as [|n] eqn:Hn; simpl in Ht'; [|done].
    injection Ht' as <-. split; [lia|done]. }
  split; simpl; try done.
  - intros j t' [Ht|[-> ->]]%Hback Halive Hx; [by eapply Hrun|].
    by exists s.
  - intros j1 j2 t1 t2 [Ht1|[-> ->]]%Hback [Ht2|[-> ->]]%Hback Hal1 Hal2 Heq.
    + by eapply Htasks.
    + simpl in Heq. by destruct (Hfree j1 t1 Ht1 Hal1).
    + simpl in Heq. by destruct (Hfree j2 t2 Ht2 Hal2).
    + done.
Qed.

Lemma Inv_alloc st s :
  Inv st → rec_ok s →
  Inv (upd_sessions (JsMap.set (id s) (length (heap st)))
         (upd_heap (λ h, h ++ [s]) st)).
Proof.
  intros [Hk Hr Hids Hrec Hdisk Hrun Htasks] Hok.
  assert (length (heap st) ∉ (sessions st).*2) as Hfresh.
  { intros ([k r] & Heq & Hin)%list_elem_of_fmap. simpl in Heq.
    destruct (Hids k r Hin) as (s' & Hs' & _).
    apply lookup_lt_Some in Hs'. lia. }
  split; simpl.
  - by apply set_keys_NoDup.
  - by apply set_values_NoDup.
  - intros k r [[= -> ->]|Hin]%set_elem_of.
    + exists s. split; [|done]. by apply list_lookup_middle.
    + destruct (Hids k r Hin) as (s' & Hs' & Hid). exists s'.
      split; [|done]. by apply lookup_app_l_Some.
  - apply Forall_app. split; [done|]. by apply Forall_singleton.
  - done.
  - intros i t Ht Halive Hx. destruct (Hrun i t Ht Halive Hx) as (s' & Hs' & ?).
    exists s'. split; [|done]. by apply lookup_app_l_Some.
  - done.
Qed.

Lemma InvX_delete x st sid :
  InvX x st → InvX x (upd_sessions (JsMap.delete sid) st).
Proof.
  intros [Hk Hr Hids Hrec Hdisk Hrun Htasks]. split; simpl; try done.
  - by apply delete_keys_NoDup.
  - by apply delete_values_NoDup.
  - intros k r Hin%delete_elem_of. by apply Hids.
Qed.
End InvariantPrimitives.

(** ** The invariant under the operations of the manager *)

Section Invariant.
Context `{Clock}.
Implicit Types (st : State).

Lemma task_object st x i t :
  InvX x st → tasks st !! i = Some t → t_alive t = true → Some i ≠ x →
  ∃ s, heap st !! t_session t = Some s ∧ status s = running
       ∧ errorMsg s = "" ∧ decision s = "".
Proof.
  intros HI Ht Halive Hx.
  destruct (inv_running _ _ HI i t Ht Halive Hx) as (s & Hs & Hrun).
  exists s. split_and!; [done..| |].
  all: pose proof (Forall_lookup_1 _ _ _ _ (inv_rec _ _ HI) Hs) as Hok.
  all: apply rec_ok_idle in Hok as [? ?]; by rewrite ?Hrun.
Qed.

Lemma no_task_unless_running st i t s :
  Inv st → tasks st !! i = Some t → t_alive t = true →
  heap st !! t_session t = Some s → status s = running.
Proof.
  intros HI Ht Halive Hs.
  destruct (inv_running _ _ HI i t Ht Halive) as (s' & Hs' & Hrun); [done|].
  congruence.
Qed.

Lemma Inv_startSessionNow st sid a r s :
  Inv st → getObj st sid = Some (r, s) →
  status s = pending ∨ status s = queued →
  Inv (startSessionNow sid a st).
Proof.
  intros HI Hobj Hst. unfold startSessionNow. rewrite Hobj.
  apply getObj_Some in Hobj as [Hget Hs].
  pose proof (Forall_lookup_1 _ _ _ _ (inv_rec _ _ HI) Hs) as Hok.
  apply rec_ok_idle in Hok as [Hmsg Hdec];
    [|destruct Hst; congruence|destruct Hst; congruence].
  set (f := λ s0, set_currentAgent _ (set_status running s0)).
  assert (Inv (modify r f st)) as HI1.
  { apply InvX_modify; [done|..].
    - intros s' Hs'. assert (s' = s) as -> by congruence.
      split; [done|]. unfold rec_ok. simpl. rewrite Hmsg, Hdec.
      by split; [split|].
    - done. }
  eapply Inv_spawn with (s := f s).
  - by apply InvX_upd_runningTasks, InvX_publish, InvX_saveSessions.
  - state_simpl. by rewrite list_lookup_alter_eq, Hs.
  - done.
  - state_simpl. intros i t Ht Halive Heq. subst r.
    pose proof (no_task_unless_running _ _ _ _ HI Ht Halive Hs).
    destruct Hst; congruence.
Qed.

Lemma Inv_startSession st sid a :
  Inv st → (∀ r s, getObj st sid = Some (r, s) → status s = pending) →
  Inv (startSession sid a st).
Proof.
  intros HI Hpending. unfold startSession.
  destruct (getObj st sid) as [[r s]|] eqn:Hobj; [|done].
  specialize (Hpending r s eq_refl).
  assert (Inv (modify r (set_analysts a) st)) as HI1
    by by apply InvX_modify_neutral.
  assert (getObj (modify r (set_analysts a) st) sid
          = Some (r, set_analysts a s)) as Hobj1
    by by apply getObj_modify_same.
  destruct (getUserRunningSession _ _).
  - apply InvX_publish, InvX_saveSessions, InvX_modify; [done|..].
    + intros s' Hs'. apply getObj_Some in Hobj1 as [_ Hs1].
      assert (s' = set_analysts a s) as -> by congruence.
      pose proof (Forall_lookup_1 _ _ _ _ (inv_rec _ _ HI1) Hs1) as Hok.
      apply rec_ok_idle in Hok as [Hmsg Hdec];
        [|simpl; congruence|simpl; congruence].
      simpl in Hmsg, Hdec. split; [done|]. unfold rec_ok. simpl.
      rewrite Hmsg, Hdec. by split; [split|].
    + intros i t s' Ht Halive _ Heq Hs'. subst r.
      apply getObj_Some in Hobj1 as [_ Hs1].
      pose proof (no_task_unless_running _ _ _ _ HI1 Ht Halive Hs1) as Hr.
      simpl in Hr. congruence.
  - eapply Inv_startSessionNow; [done|exact Hobj1|]. by left.
Qed.

(** The loop of [startNextQueuedSession] returns one of the sessions it has
    seen, queued and of the given user. *)
Lemma earlier_pick user acc l q e :
  foldl (earlier user) acc l = (Some q, e) →
  acc.1 = Some q ∨ (q ∈ l ∧ status q = queued ∧ userId q = user).
Proof.
  revert acc. induction l as [|s l IH]; simpl; intros acc Hfold.
  - left. by rewrite Hfold.
  - apply IH in Hfold as [Hacc|(Hin & ? & ?)].
    + unfold earlier in Hacc. destruct (decide _) as [[Hq Hu]|]; [|by left].
      destruct (Date_getTime _); [|by left].
      destruct (match acc.2 with Some e0 => _ | None => _ end); [|by left].
      simpl in Hacc. injection Hacc as ->. right. split; [left|done].
    + right. split; [by right|done].
Qed.

Lemma nextQueued_pick user l q :
  nextQueued user l = Some q → q ∈ l ∧ status q = queued ∧ userId q = user.
Proof.
  unfold nextQueued. destruct (foldl _ _ l) as [o e] eqn:Hfold. simpl.
  intros ->. by apply earlier_pick in Hfold as [?|?].
Qed.

(** Under the invariant a record of the store is found under its own
    identifier. *)
Lemma values_getObj st x s :
  InvX x st → s ∈ values st → ∃ r, getObj st (id s) = Some (r, s).
Proof.
  intros HI (k & r & Hin & Hs)%values_elem_of. exists r.
  destruct (inv_ids _ _ HI k r Hin) as (s' & Hs' & Hid).
  assert (s' = s) as -> by congruence. subst k.
  apply getObj_Some. split; [|done].
  apply get_of_elem; [by apply (inv_keys _ _ HI)|done].
Qed.

Lemma Inv_startNextQueuedSession st user :
  Inv st → Inv (startNextQueuedSession user st).
Proof.
  intros HI. unfold startNextQueuedSession.
  destruct (nextQueued user (values st)) as [q|] eqn:Hq; [|done].
  apply nextQueued_pick in Hq as (Hin & Hst & _).
  destruct (values_getObj _ _ _ HI Hin) as [r Hobj].
  eapply Inv_startSessionNow; [done..|]. by right.
Qed.

Lemma Inv_finally st tid t :
  InvX (Some tid) st → Inv (finally tid t st).
Proof.
  intros HI. unfold finally.
  set (st1 := upd_tasks _ (upd_runningTasks _ st)).
  assert (Inv st1) as HI1 by by apply Inv_finished, InvX_upd_runningTasks.
  destruct (heap st1 !! t_session t); [|done].
  destruct (bool_decide _); [|done].
  by apply Inv_startNextQueuedSession.
Qed.

(** An assignment to the session of the coroutine that is being resumed. *)
Lemma InvX_modify_own st tid t s f :
  Inv st → tasks st !! tid = Some t → t_alive t = true →
  heap st !! t_session t = Some s →
  id (f s) = id s → rec_ok (f s) →
  InvX (Some tid) (modify (t_session t) f st).
Proof.
  intros HI Ht Halive Hs Hid Hok.
  apply InvX_modify; [by apply InvX_weaken|..].
  - intros s' Hs'. by assert (s' = s) as -> by congruence.
  - intros i t' s' Ht' Halive' Hx Heq _. destruct Hx. f_equal.
    by eapply (inv_tasks _ _ HI).
Qed.

Lemma Inv_fail st tid t message :
  Inv st → tasks st !! tid = Some t → t_alive t = true → message ≠ "" →
  InvX (Some tid) (fail t message st).
Proof.
  intros HI Ht Halive Hmsg. unfold fail.
  destruct (task_object _ _ _ _ HI Ht Halive) as (s & Hs & Hrun & He & Hd);
    [done|].
  apply InvX_publish, InvX_saveSessions.
  eapply InvX_modify_own; [done..|]. unfold rec_ok. simpl. rewrite Hd.
  by split; [split|].
Qed.

Lemma Inv_onChunk st tid t chunk :
  Inv st → tasks st !! tid = Some t → t_alive t = true →
  Inv (onChunk tid t chunk st).
Proof.
  intros HI Ht Halive. unfold onChunk.
  destruct (t_aborted t); [by apply Inv_finally, InvX_weaken|].
  destruct (task_object _ _ _ _ HI Ht Halive) as (s & Hs & Hrun & He & Hd);
    [done|].
  destruct (type chunk).
  - destruct (truthy (agent chunk)); [|done].
    apply InvX_publish, InvX_saveSessions, InvX_modify_neutral; [|done].
    by apply InvX_tasks_alter.
  - destruct (truthy (agent chunk) && truthy (content chunk)); [|done].
    apply InvX_publish, InvX_modify_neutral; [|done].
    by apply InvX_tasks_alter.
  - apply InvX_tasks_alter; [|done].
    destruct (truthy (agent chunk) && truthy (content chunk)); [|done].
    by apply InvX_publish, InvX_saveSessions, InvX_modify_neutral.
  - done.
  - apply Inv_finally, InvX_publish, InvX_saveSessions.
    eapply InvX_modify_own; [done..|]. unfold rec_ok. simpl. rewrite He.
    split; [by split|done].
  - apply Inv_finally, Inv_fail; try done.
    by apply substring0_nonempty, or_else_nonempty.
  - by apply Inv_finally, Inv_fail.
  - by apply Inv_finally, Inv_fail.
Qed.

Lemma Inv_onEnd st tid t :
  Inv st → tasks st !! tid = Some t → t_alive t = true →
  Inv (onEnd tid t st).
Proof.
  intros HI Ht Halive. unfold onEnd.
  destruct (task_object _ _ _ _ HI Ht Halive) as (s & Hs & Hrun & He & Hd);
    [done|].
  rewrite Hs. rewrite decide_True by done.
  apply Inv_finally, InvX_publish, InvX_saveSessions.
  eapply InvX_modify_own; [done..|]. unfold rec_ok. simpl. rewrite He, Hd.
  split; [by split|done].
Qed.

Lemma Inv_onThrow st tid t message :
  Inv st → tasks st !! tid = Some t → t_alive t = true →
  Inv (onThrow tid t message st).
Proof.
  intros HI Ht Halive. apply Inv_finally, Inv_fail; try done.
  by apply or_else_nonempty.
Qed.

Lemma Inv_resume st tid k :
  Inv st →
  (∀ t, tasks st !! tid = Some t → t_alive t = true → Inv (k tid t st)) →
  Inv (resume tid k st).
Proof.
  intros HI Hk. unfold resume. destruct (tasks st !! tid) as [t|]; [|done].
  destruct (t_alive t) eqn:Halive; [|done]. by apply Hk.
Qed.
Lemma Inv_retrySession st sid a r s :
  Inv st → getObj st sid = Some (r, s) → status s = error →
  Inv (retrySession sid a st).
Proof.
  intros HI Hobj Herr. unfold retrySession. rewrite Hobj. fold (reset).
  change (λ s0, set_currentAgent "" _) with reset.
  pose proof (getObj_modify_same _ _ _ _ reset Hobj) as Hobj1.
  apply getObj_Some in Hobj as [Hget Hs].
  apply Inv_startSession.
  - apply InvX_saveSessions, InvX_modify; [done|..].
    + intros s' Hs'. split; [done|]. unfold rec_ok. simpl.
      by split; [split|].
    + intros i t s' Ht Halive _ Heq _. subst r.
      pose proof (no_task_unless_running _ _ _ _ HI Ht Halive Hs). congruence.
  - intros r' s'.
    rewrite (getObj_ext (modify r reset st)) by (by state_simpl).
    rewrite Hobj1. by intros [= <- <-].
Qed.

Lemma Inv_createSession st params random36 nowIso :
  Inv st → Inv (createSession params random36 nowIso st).1.
Proof.
  intros HI. unfold createSession. cbn [fst].
  apply InvX_saveSessions.
  match goal with
  | |- context [upd_heap (λ h, h ++ [?s])] => apply (Inv_alloc st s)
  end; [done|].
  unfold rec_ok. simpl. by split; [split|].
Qed.

Lemma createSession_getObj st params random36 nowIso :
  let '(st', session) := createSession params random36 nowIso st in
  getObj st' (id session) = Some (length (heap st), session)
  ∧ status session = pending.
Proof.
  unfold createSession. split; [|done]. apply getObj_Some. simpl. split.
  - apply get_set.
  - by apply list_lookup_middle.
Qed.

Lemma Inv_postSessions st user body validation random36 nowIso :
  Inv st → Inv (postSessions user body validation random36 nowIso st).1.
Proof.
  intros HI. unfold postSessions. destruct (valid validation); [|done].
  match goal with
  | |- context [createSession ?p ?a ?b st] =>
      pose proof (Inv_createSession st p a b HI) as HI1;
      pose proof (createSession_getObj st p a b) as Hobj;
      destruct (createSession p a b st) as [st1 session]
  end.
  cbn [fst] in *. destruct Hobj as [Hobj Hpending].
  apply Inv_startSession; [done|]. intros r s. rewrite Hobj.
  by intros [= <- <-].
Qed.

Lemma Inv_deleteSession st sid : Inv st → Inv (deleteSession sid st).1.
Proof.
  intros HI. unfold deleteSession. destruct (JsMap.has _ _); [|done].
  cbn [fst]. apply InvX_saveSessions, InvX_delete.
  destruct (JsMap.get sid (runningTasks st)); [|done].
  by apply InvX_upd_runningTasks, InvX_tasks_alter.
Qed.

Lemma Inv_deleteSessionRoute st user sid :
  Inv st → Inv (deleteSessionRoute user sid st).1.
Proof.
  intros HI. unfold deleteSessionRoute.
  destruct (getSession _ _ _ _); [|done].
  pose proof (Inv_deleteSession st sid HI) as HI1.
  by destruct (deleteSession sid st) as [st1 []].
Qed.

Lemma Inv_retryRoute st user sid : Inv st → Inv (retryRoute user sid st).1.
Proof.
  intros HI. unfold retryRoute.
  destruct (getSession _ _ _ _) as [s|] eqn:Hget; [|done].
  destruct (decide (status s ≠ error)) as [|Herr]; [done|]. cbn [fst].
  apply getSession_getObj in Hget as [r Hobj].
  eapply Inv_retrySession; [done..|]. by destruct (decide (status s = error)).
Qed.

Lemma rec_ok_loaded random36 nowIso data :
  rec_ok data →
  rec_ok
    (let session := parseSession data random36 nowIso in
     if decide (status session = running) then
       set_currentAgent ""
         (set_errorMsg "Server restarted, analysis interrupted"
            (set_status error session))
     else session).
Proof.
  intros Hok. simpl. destruct (decide (status data = running)) as [Hr|Hr].
  - apply rec_ok_idle in Hok as [_ Hd]; [|congruence..].
    unfold rec_ok. simpl. rewrite Hd. by split; [split|].
  - done.
Qed.

Lemma Inv_loadFrom oracle i data st :
  Inv st → Forall rec_ok data → Inv (loadFrom oracle i data st).
Proof.
  revert i st. induction data as [|d data IH]; intros i st HI Hdata; [done|].
  apply Forall_cons in Hdata as [Hd Hdata]. simpl. apply IH; [|done].
  unfold loadOne. by apply Inv_alloc, rec_ok_loaded.
Qed.

Lemma Inv_restart oracle st : Inv st → Inv (restart oracle st).
Proof.
  intros HI. unfold restart, loadSessions. simpl.
  assert (Inv (mkState [] [] [] [] (disk st) [])) as HI0.
  { split; simpl; try done; try apply NoDup_nil_2.
    - by intros k r ?%elem_of_nil.
    - apply (inv_disk _ _ HI). }
  destruct (disk st) as [d|] eqn:Hd; [|done].
  apply Inv_loadFrom; [done|]. by apply (inv_disk _ _ HI).
Qed.

Lemma Inv_initial : Inv initial.
Proof.
  split; simpl; try done; try apply NoDup_nil_2.
  by intros k r ?%elem_of_nil.
Qed.

Lemma Inv_exec e st : Inv st → Inv (exec e st).
Proof.
  intros HI. destruct e; simpl.
  - by apply Inv_postSessions.
  - by apply Inv_deleteSessionRoute.
  - by apply Inv_retryRoute.
  - apply Inv_resume; [done|]. intros t Ht Halive. by apply Inv_onChunk.
  - apply Inv_resume; [done|]. intros t Ht Halive. by apply Inv_onEnd.
  - apply Inv_resume; [done|]. intros t Ht Halive. by apply Inv_onThrow.
  - by apply Inv_restart.
Qed.

Lemma reachable_Inv st : reachable st → Inv st.
Proof.
  induction 1 as [|e st _ IH]; [apply Inv_initial|by apply Inv_exec].
Qed.

Lemma run_reachable es st : reachable st → reachable (run es st).
Proof.
  revert st. induction es as [|e es IH]; intros st Hst; [done|].
  simpl. apply IH. by constructor.
Qed.
End Invariant.

(** ** Promotion of the oldest queued session *)

Section Promotion.
Context `{Clock}.
Implicit Types (st : State) (q : Session).

Lemma earlier_step user acc s :
  acc_ok acc →
  let acc' := earlier user acc s in
  acc_ok acc'
  ∧ (∀ ta, acc.2 = Some ta → ∃ t, acc'.2 = Some t ∧ (t ≤ ta)%Z)
  ∧ (∀ ts, eligible user s ts → ∃ t, acc'.2 = Some t ∧ (t ≤ ts)%Z).
Proof.
  intros Hok. unfold earlier, eligible.
  destruct (decide (status s = queued ∧ userId s = user)) as [[Hq Hu]|Hno].
  - destruct (Date_getTime (createdAt s)) as [ts|] eqn:Hts.
    + destruct acc as [[q|] [ta|]]; simpl in *; try done.
      * destruct (ts <? ta)%Z eqn:Hlt; simpl.
        -- apply Z.ltb_lt in Hlt. split_and!; [done|..].
           ++ intros ? [= <-]. exists ts. split; [done|lia].
           ++ intros ? (_ & _ & [= <-]). exists ts. split; [done|lia].
        -- apply Z.ltb_ge in Hlt. split_and!; [done|..].
           ++ intros ? [= <-]. exists ta. split; [done|lia].
           ++ intros ? (_ & _ & [= <-]). exists ta. split; [done|lia].
      * split_and!; [done|done|].
        intros ? (_ & _ & [= <-]). exists ts. split; [done|lia].
    + split_and!; [done|..].
      * intros ta Hta. exists ta. split; [done|lia].
      * by intros ? (_ & _ & ?).
  - split_and!; [done|..].
    + intros ta Hta. exists ta. split; [done|lia].
    + intros ? (? & ? & _). by destruct Hno.
Qed.

Lemma earlier_fold user l acc :
  acc_ok acc →
  let res := foldl (earlier user) acc l in
  acc_ok res
  ∧ (∀ ta, acc.2 = Some ta → ∃ t, res.2 = Some t ∧ (t ≤ ta)%Z)
  ∧ (∀ s ts, s ∈ l → eligible user s ts → ∃ t, res.2 = Some t ∧ (t ≤ ts)%Z).
Proof.
  revert acc. induction l as [|s l IH]; intros acc Hok; simpl.
  - split_and!; [done|..].
    + intros ta Hta. exists ta. split; [done|lia].
    + by intros s ts ?%elem_of_nil.
  - destruct (earlier_step user acc s Hok) as (Hok' & Hacc & Hs).
    destruct (IH _ Hok') as (Hres & Hacc' & Hl). split_and!; [done|..].
    + intros ta (t1 & Ht1 & Hle1)%Hacc.
      destruct (Hacc' _ Ht1) as (t & Ht & Hle). exists t. split; [done|lia].
    + intros s' ts [->|Hin]%elem_of_cons Hel.
      * destruct (Hs _ Hel) as (t1 & Ht1 & Hle1).
        destruct (Hacc' _ Ht1) as (t & Ht & Hle). exists t. split; [done|lia].
      * by eapply Hl.
Qed.

(** If some queued session of the user has a creation time that is a date,
    the loop selects a queued session of the user whose creation time is a
    date not later than that of any other. *)
Lemma nextQueued_min user l q0 t0 :
  q0 ∈ l → eligible user q0 t0 →
  ∃ q tq, nextQueued user l = Some q ∧ q ∈ l ∧ eligible user q tq
          ∧ ∀ q' t', q' ∈ l → eligible user q' t' → (tq ≤ t')%Z.
Proof.
  intros Hin Hel. unfold nextQueued.
  destruct (earlier_fold user l (None, None)) as (Hok & _ & Hmin); [done|].
  destruct (Hmin _ _ Hin Hel) as (tq & Htq & _).
  destruct (foldl (earlier user) (None, None) l) as [[q|] [tq'|]] eqn:Hfold;
    simpl in *; try done.
  injection Htq as ->. exists q, tq.
  apply earlier_pick in Hfold as [?|(? & ? & ?)]; [done|].
  split_and!; try done.
  intros q' t' Hin' Hel'. destruct (Hmin _ _ Hin' Hel') as (t & [= <-] & Hle).
  done.
Qed.
Lemma startSessionNow_effect st sid a r s :
  getObj st sid = Some (r, s) →
  let st' := startSessionNow sid a st in
  heap st' = alter started r (heap st) ∧ sessions st' = sessions st
  ∧ tasks st' = tasks st ++ [mkTask sid a r false true "" "" 0].
Proof.
  intros Hobj. unfold startSessionNow. rewrite Hobj. by state_simpl.
Qed.

(** The promotion, seen from the state [st] in which the [finally] block
    calls [startNextQueuedSession]. *)
Lemma startNextQueuedSession_promotes st user q0 t0 :
  Inv st → queuedFor user st q0 → eligible user q0 t0 →
  ∃ q tq r,
    queuedFor user st q ∧ eligible user q tq
    ∧ (∀ q' t', queuedFor user st q' → eligible user q' t' → (tq ≤ t')%Z)
    ∧ getObj st (id q) = Some (r, q)
    ∧ let st' := startNextQueuedSession user st in
      heap st' = alter started r (heap st) ∧ sessions st' = sessions st
      ∧ tasks st' = tasks st ++ [mkTask (id q)
                                   (default defaultAnalysts (_analysts q)) r
                                   false true "" "" 0].
Proof.
  intros HI (Hin0 & _) Hel0.
  destruct (nextQueued_min user (values st) q0 t0 Hin0 Hel0)
    as (q & tq & Hnext & Hin & Hel & Hmin).
  destruct (values_getObj _ _ _ HI Hin) as [r Hobj].
  exists q, tq, r. split_and!; try done.
  - split; [done|]. by destruct Hel as (? & ? & _).
  - intros q' t' (Hin' & _) Hel'. by eapply Hmin.
  - unfold startNextQueuedSession. rewrite Hnext.
    apply (startSessionNow_effect _ _ _ _ _ Hobj).
Qed.

(** What an event that ends a coroutine does before the [finally] block:
    nothing (the coroutine was cancelled), or an assignment of a final status
    to the coroutine's session, followed by a write and a publication. *)
Lemma ends_task_shape st e tid t s :
  Inv st → tasks st !! tid = Some t → t_alive t = true →
  heap st !! t_session t = Some s → ends_task e tid t →
  t_aborted t = true ∧ exec e st = finally tid t st
  ∨ ∃ f, exec e st
         = finally tid t
             (publish (t_sessionId t) (t_session t)
                (saveSessions (modify (t_session t) f st)))
         ∧ id (f s) = id s ∧ userId (f s) = userId s ∧ rec_ok (f s)
         ∧ (status (f s) = completed ∨ status (f s) = error).
Proof.
  intros HI Ht Halive Hs Hends.
  destruct (task_object _ _ _ _ HI Ht Halive) as (s' & Hs' & Hrun & He & Hd);
    [done|].
  assert (s' = s) as -> by congruence.
  assert (∀ message, message ≠ "" →
            let f := λ s0, set_currentAgent ""
                             (set_errorMsg message (set_status error s0)) in
            id (f s) = id s ∧ userId (f s) = userId s ∧ rec_ok (f s)
            ∧ (status (f s) = completed ∨ status (f s) = error)) as Hfail.
  { intros message Hm. simpl. split_and!; [done|done| |by right].
    unfold rec_ok. simpl. rewrite Hd. by split; [split|]. }
  destruct e as [| | |i chunk|i|i message|]; try done; simpl in Hends.
  - destruct Hends as [-> Hkind]. simpl. unfold resume.
    rewrite Ht, Halive. unfold onChunk.
    destruct (t_aborted t); [by left|].
    destruct Hkind as [?|[Hty|[Hty|[Hty|Hty]]]]; [done|rewrite Hty..].
    + right. eexists. split; [done|]. simpl. split_and!; [done|done| |by left].
      unfold rec_ok. simpl. rewrite He. split; [by split|].
      intros _. done.
    + right. eexists. split; [done|]. apply Hfail.
      by apply substring0_nonempty, or_else_nonempty.
    + right. eexists. split; [done|]. by apply Hfail.
    + right. eexists. split; [done|]. by apply Hfail.
  - subst i. simpl. unfold resume. rewrite Ht, Halive. unfold onEnd.
    rewrite Hs, decide_True by done.
    right. eexists. split; [done|]. simpl. split_and!; [done|done| |by left].
    unfold rec_ok. simpl. rewrite He, Hd. split; [by split|done].
  - subst i. simpl. unfold resume. rewrite Ht, Halive. unfold onThrow.
    right. eexists. split; [done|]. apply Hfail. by apply or_else_nonempty.
Qed.
(** Two states with the same [Map] whose heaps differ at most at [r], where
    neither holds a queued session, have the same queued sessions. *)
Lemma queuedFor_transfer st st' r s s' user q :
  sessions st' = sessions st →
  (∀ r', r' ≠ r → heap st' !! r' = heap st !! r') →
  heap st !! r = Some s → status s ≠ queued →
  heap st' !! r = Some s' → status s' ≠ queued →
  queuedFor user st q ↔ queuedFor user st' q.
Proof.
  intros Hsess Hheap Hs Hst Hs' Hst'. unfold queuedFor.
  rewrite !values_elem_of, Hsess. split.
  - intros ((k & r' & Hin & Hq) & Hqueued & Hu). split; [|done].
    exists k, r'. split; [done|]. destruct (decide (r' = r)) as [->|Hne].
    + congruence.
    + by rewrite Hheap.
  - intros ((k & r' & Hin & Hq) & Hqueued & Hu). split; [|done].
    exists k, r'. split; [done|]. destruct (decide (r' = r)) as [->|Hne].
    + congruence.
    + by rewrite <- Hheap.
Qed.

Lemma finally_promotes st st1 tid t s s1 user q0 t0 :
  InvX (Some tid) st1 →
  sessions st1 = sessions st → tasks st1 = tasks st →
  (∀ r', r' ≠ t_session t → heap st1 !! r' = heap st !! r') →
  heap st !! t_session t = Some s → status s ≠ queued →
  heap st1 !! t_session t = Some s1 → status s1 ≠ queued →
  userId s1 = user → user ≠ "" →
  queuedFor user st q0 → eligible user q0 t0 →
  ∃ q tq r,
    queuedFor user st q ∧ eligible user q tq
    ∧ (∀ q' t', queuedFor user st q' → eligible user q' t' → (tq ≤ t')%Z)
    ∧ getObj (finally tid t st1) (id q) = Some (r, started q)
    ∧ tasks (finally tid t st1) !! length (tasks st)
      = Some (mkTask (id q) (default defaultAnalysts (_analysts q)) r
                false true "" "" 0)
    ∧ (∀ q', queuedFor user st q' → q' ≠ q →
         ∃ r', getObj (finally tid t st1) (id q') = Some (r', q')).
Proof.
  intros HI1 Hsess Htasks Hheap Hs Hst Hs1 Hst1 Hu Hne Hq0 Hel0.
  unfold finally.
  set (st2 := upd_tasks (alter finished tid)
                (upd_runningTasks (JsMap.delete (t_sessionId t)) st1)).
  assert (Inv st2) as HI2 by by apply Inv_finished, InvX_upd_runningTasks.
  change (heap st2) with (heap st1). rewrite Hs1, Hu.
  rewrite bool_decide_eq_true_2 by done.
  assert (∀ q, queuedFor user st q ↔ queuedFor user st2 q) as Hsame.
  { intros q. by eapply (queuedFor_transfer st st2). }
  destruct (startNextQueuedSession_promotes st2 user q0 t0 HI2)
    as (q & tq & r & Hq & Hel & Hmin & Hobj & Hheap' & Hsess' & Htasks');
    [by apply Hsame|done|].
  exists q, tq, r. apply getObj_Some in Hobj as [Hget Hr].
  split_and!.
  - by apply Hsame.
  - done.
  - intros q' t' Hq'%Hsame Hel'. by eapply Hmin.
  - apply getObj_Some. rewrite Hsess', Hheap'. split; [done|].
    by rewrite list_lookup_alter_eq, Hr.
  - rewrite Htasks'. apply list_lookup_middle. simpl.
    by rewrite length_alter, Htasks.
  - intros q' Hq'%Hsame Hdiff. destruct Hq' as (Hin' & _).
    destruct (values_getObj _ _ _ HI2 Hin') as [r' Hobj'].
    exists r'. apply getObj_Some in Hobj' as [Hget' Hr'].
    apply getObj_Some. rewrite Hsess', Hheap'. split; [done|].
    rewrite list_lookup_alter_ne; [done|]. intros ->. congruence.
Qed.

(** C5. When the coroutine of a running session of a user with a non-empty
    id ends -- by [complete], by one of the error chunks, by the end or the
    failure of its feed, or because it was cancelled -- and the user has
    queued sessions, one of which at least has a creation time that is a
    date, then exactly one of them is started: it is queued in the state
    before, no queued session of the user has an earlier creation time, it
    gets the assignments of [startSessionNow] and a coroutine of its own;
    every other queued session of the user is left as it was. *)
Theorem oldest_queued_promoted st e tid t s user q0 t0 :
  reachable st →
  tasks st !! tid = Some t → t_alive t = true →
  heap st !! t_session t = Some s → userId s = user → user ≠ "" →
  ends_task e tid t →
  queuedFor user st q0 → Date_getTime (createdAt q0) = Some t0 →
  ∃ q tq r,
    queuedFor user st q
    ∧ Date_getTime (createdAt q) = Some tq
    ∧ (∀ q' t', queuedFor user st q' →
         Date_getTime (createdAt q') = Some t' → (tq ≤ t')%Z)
    ∧ getObj (exec e st) (id q) = Some (r, started q)
    ∧ status (started q) = running
    ∧ tasks (exec e st) !! length (tasks st)
      = Some (mkTask (id q) (default defaultAnalysts (_analysts q)) r
                false true "" "" 0)
    ∧ (∀ q', queuedFor user st q' → q' ≠ q →
         ∃ r', getObj (exec e st) (id q') = Some (r', q')
               ∧ status q' = queued).
Proof.
  intros Hreach Ht Halive Hs Hu Hne Hends Hq0 Ht0.
  pose proof (reachable_Inv _ Hreach) as HI.
  pose proof (no_task_unless_running _ _ _ _ HI Ht Halive Hs) as Hrun.
  assert (eligible user q0 t0) as Hel0.
  { destruct Hq0 as (_ & ? & ?). by split_and!. }
  assert (∃ st1 s1,
            exec e st = finally tid t st1 ∧ InvX (Some tid) st1
            ∧ sessions st1 = sessions st ∧ tasks st1 = tasks st
            ∧ (∀ r', r' ≠ t_session t → heap st1 !! r' = heap st !! r')
            ∧ heap st1 !! t_session t = Some s1 ∧ status s1 ≠ queued
            ∧ userId s1 = user) as (st1 & s1 & -> & HI1 & ? & ? & ? & ? & ? & ?).
  { destruct (ends_task_shape _ _ _ _ _ HI Ht Halive Hs Hends)
      as [[_ Hexec]|(f & Hexec & Hid & Huser & Hok & Hfinal)].
    - exists st, s. split_and!; try done; [by apply InvX_weaken|congruence].
    - eexists _, (f s). split; [exact Hexec|]. split_and!.
      + by eapply InvX_publish, InvX_saveSessions, InvX_modify_own.
      + by state_simpl.
      + by state_simpl.
      + intros r' Hr'. state_simpl. by rewrite list_lookup_alter_ne.
      + state_simpl. by rewrite list_lookup_alter_eq, Hs.
      + destruct Hfinal; congruence.
      + congruence. }
  destruct (finally_promotes st st1 tid t s s1 user q0 t0)
    as (q & tq & r & Hq & (_ & _ & Htq) & Hmin & Hobj & Htask & Hrest);
    try done; [congruence|].
  exists q, tq, r. split_and!; try done.
  - intros q' t' Hq' Ht'. eapply Hmin; [done|].
    destruct Hq' as (_ & ? & ?). by split_and!.
  - intros q' Hq' Hdiff. destruct (Hrest q' Hq' Hdiff) as [r' Hobj'].
    exists r'. split; [done|]. by destruct Hq' as (_ & ? & _).
Qed.
End Promotion.

(** ** Status, decision and error message *)

Section StatusFields.
Context `{Clock}.
Implicit Types (st : State).

(** The [finally] block changes no session that is not queued. *)
Lemma finally_keeps st tid t r s :
  InvX (Some tid) st → heap st !! r = Some s → status s ≠ queued →
  heap (finally tid t st) !! r = Some s.
Proof.
  intros HI Hs Hst. unfold finally.
  set (st2 := upd_tasks (alter finished tid)
                (upd_runningTasks (JsMap.delete (t_sessionId t)) st)).
  assert (Inv st2) as HI2 by by apply Inv_finished, InvX_upd_runningTasks.
  destruct (heap st2 !! t_session t) as [s0|]; [|done].
  destruct (bool_decide _); [|done].
  unfold startNextQueuedSession.
  destruct (nextQueued _ _) as [q|] eqn:Hq; [|done].
  apply nextQueued_pick in Hq as (Hin & Hqueued & _).
  destruct (values_getObj _ _ _ HI2 Hin) as [rq Hobj].
  destruct (startSessionNow_effect st2 (id q)
              (default defaultAnalysts (_analysts q)) rq q Hobj) as (-> & _).
  apply getObj_Some in Hobj as [_ Hrq].
  rewrite list_lookup_alter_ne; [done|]. intros ->.
  change (heap st2) with (heap st) in Hrq. congruence.
Qed.

(** C6, as the code has it.  In every state the service can reach, every
    record of the store has a non-empty error message exactly when its status
    is [error], and a non-empty decision only when its status is [completed].
    A [complete] chunk leaves the session [completed] with a non-empty
    decision.  The end of a feed that sent neither [complete] nor an error
    leaves the session [completed] too, with the empty decision it had. *)
Theorem status_decision_errorMsg st :
  reachable st →
  (∀ s, s ∈ values st →
     (errorMsg s ≠ "" ↔ status s = error)
     ∧ (decision s ≠ "" → status s = completed))
  ∧ (∀ tid t s chunk,
       folding st tid t s → type chunk = complete →
       ∃ s', heap (exec (FeedChunk tid chunk) st) !! t_session t = Some s'
             ∧ status s' = completed
             ∧ decision s' = or_else (content chunk) "HOLD"
             ∧ decision s' ≠ "" ∧ errorMsg s' = "")
  ∧ (∀ tid t s,
       tasks st !! tid = Some t → t_alive t = true →
       heap st !! t_session t = Some s →
       ∃ s', heap (exec (FeedEnd tid) st) !! t_session t = Some s'
             ∧ status s' = completed ∧ decision s' = "" ∧ errorMsg s' = "").
Proof.
  intros Hreach. pose proof (reachable_Inv _ Hreach) as HI. split_and!.
  - intros s Hin.
    by apply (proj1 (Forall_forall _ _) (values_rec_ok _ _ HI)).
  - intros tid t s chunk (Ht & Halive & Habort & Hs) Hty.
    destruct (task_object _ _ _ _ HI Ht Halive) as (s0 & Hs0 & Hrun & He & Hd);
      [done|].
    assert (s0 = s) as -> by congruence.
    simpl. unfold resume. rewrite Ht, Halive. unfold onChunk.
    rewrite Habort, Hty.
    set (f := λ s0, set_currentAgent "" (set_status completed (set_decision _ s0))).
    exists (f s). split_and!; try done; [|by apply or_else_nonempty].
    apply finally_keeps; [| |done].
    + apply InvX_publish, InvX_saveSessions.
      eapply InvX_modify_own; [done..|]. unfold rec_ok. simpl. rewrite He.
      split; [by split|done].
    + state_simpl. by rewrite list_lookup_alter_eq, Hs.
  - intros tid t s Ht Halive Hs.
    destruct (task_object _ _ _ _ HI Ht Halive) as (s0 & Hs0 & Hrun & He & Hd);
      [done|].
    assert (s0 = s) as -> by congruence.
    simpl. unfold resume. rewrite Ht, Halive. unfold onEnd.
    rewrite Hs, decide_True by done.
    set (f := λ s0, set_currentAgent "" (set_status completed s0)).
    exists (f s). split_and!; try done.
    apply finally_keeps; [| |done].
    + apply InvX_publish, InvX_saveSessions.
      eapply InvX_modify_own; [done..|]. unfold rec_ok. simpl. rewrite He, Hd.
      split; [by split|done].
    + state_simpl. by rewrite list_lookup_alter_eq, Hs.
Qed.
End StatusFields.

(** ** One running session per user, as far as it holds *)

Section OneSlot.
Context `{Clock}.
Implicit Types (st : State).

Lemma oneSlot_ext st st' :
  oneSlot st → heap st' = heap st → sessions st' = sessions st → oneSlot st'.
Proof. unfold oneSlot, entry. by intros ? -> ->. Qed.

Lemma oneSlot_saveSessions st : oneSlot st → oneSlot (saveSessions st).
Proof. intros Hone. by apply (oneSlot_ext st). Qed.

Lemma oneSlot_publish st sid r : oneSlot st → oneSlot (publish sid r st).
Proof. intros Hone. apply (oneSlot_ext st); [done|..]; by state_simpl. Qed.

Lemma oneSlot_upd_tasks st f : oneSlot st → oneSlot (upd_tasks f st).
Proof. intros Hone. by apply (oneSlot_ext st). Qed.

Lemma oneSlot_upd_runningTasks st f :
  oneSlot st → oneSlot (upd_runningTasks f st).
Proof. intros Hone. by apply (oneSlot_ext st). Qed.

Lemma entry_modify st r f k r' s' :
  entry (modify r f st) k r' s' →
  ∃ s, entry st k r' s ∧ s' = (if decide (r' = r) then f s else s).
Proof.
  unfold entry. simpl. intros [Hin Hs']. rewrite list_lookup_alter in Hs'.
  destruct (decide (r = r')) as [->|Hne].
  - destruct (heap st !! r') as [s|] eqn:Hs; [|done]. injection Hs' as <-.
    exists s. by rewrite decide_True.
  - exists s'. by rewrite decide_False.
Qed.

(** An assignment to the object at [r] that keeps the user id, and makes it
    running only if it was running or if no record of a user with that id is
    running elsewhere. *)
Lemma oneSlot_modify st r f :
  oneSlot st →
  (∀ s, heap st !! r = Some s →
     userId (f s) = userId s
     ∧ (status (f s) = running →
        status s = running
        ∨ ∀ k' r' s', entry st k' r' s' → status s' = running →
                      userId s' = userId s → userId s ≠ "" → r' = r)) →
  oneSlot (modify r f st).
Proof.
  intros Hone Hf k1 r1 s1 k2 r2 s2 (s1' & He1 & ->)%entry_modify
    (s2' & He2 & ->)%entry_modify Hr1 Hr2 Hu Hne.
  destruct (decide (r1 = r)) as [->|Hne1], (decide (r2 = r)) as [->|Hne2];
    [done|..].
  - destruct (Hf s1' (proj2 He1)) as [Hu1 Hrun]. rewrite Hu1 in Hu, Hne.
    destruct (Hrun Hr1) as [Hwas|Hfree].
    + by apply (Hone k1 r s1' k2 r2 s2').
    + symmetry. by eapply Hfree.
  - destruct (Hf s2' (proj2 He2)) as [Hu2 Hrun]. rewrite Hu2 in Hu.
    destruct (Hrun Hr2) as [Hwas|Hfree].
    + by apply (Hone k1 r1 s1' k2 r s2').
    + eapply Hfree; [done..|congruence].
  - by apply (Hone k1 r1 s1' k2 r2 s2').
Qed.

Lemma oneSlot_modify_neutral st r f :
  oneSlot st →
  (∀ s, userId (f s) = userId s ∧ status (f s) = status s) →
  oneSlot (modify r f st).
Proof.
  intros Hone Hf. apply oneSlot_modify; [done|]. intros s _.
  destruct (Hf s) as [-> ->]. split; [done|]. by left.
Qed.

Lemma oneSlot_modify_idle st r f :
  oneSlot st →
  (∀ s, userId (f s) = userId s ∧ status (f s) ≠ running) →
  oneSlot (modify r f st).
Proof.
  intros Hone Hf. apply oneSlot_modify; [done|]. intros s _.
  destruct (Hf s) as [-> ?]. by split.
Qed.

Lemma oneSlot_delete st sid :
  oneSlot st → oneSlot (upd_sessions (JsMap.delete sid) st).
Proof.
  intros Hone k1 r1 s1 k2 r2 s2 [Hin1%delete_elem_of Hs1]
    [Hin2%delete_elem_of Hs2].
  by apply (Hone k1 r1 s1 k2 r2 s2).
Qed.

(** A new object that is not running is stored. *)
Lemma oneSlot_alloc st s :
  Inv st → oneSlot st → status s ≠ running →
  oneSlot (upd_sessions (JsMap.set (id s) (length (heap st)))
             (upd_heap (λ h, h ++ [s]) st)).
Proof.
  intros HI Hone Hs.
  assert (∀ k r s', entry (upd_sessions (JsMap.set (id s) (length (heap st)))
                             (upd_heap (λ h, h ++ [s]) st)) k r s' →
            s' = s ∨ entry st k r s') as Hback.
  { intros k r s' [Hin Hs']. simpl in Hin, Hs'.
    apply set_elem_of in Hin as [[= -> ->]|Hin].
    - left. rewrite list_lookup_middle in Hs' by done. congruence.
    - right. split; [done|].
      destruct (inv_ids _ _ HI k r Hin) as (s0 & Hs0 & _).
      rewrite (lookup_app_l_Some _ _ _ _ Hs0) in Hs'. congruence. }
  intros k1 r1 s1 k2 r2 s2 [->|He1]%Hback [->|He2]%Hback; try done.
  by apply (Hone k1 r1 s1 k2 r2 s2).
Qed.

Lemma getUserRunningSession_None st user k r s :
  getUserRunningSession st user = None →
  entry st k r s → status s = running → userId s ≠ user.
Proof.
  unfold getUserRunningSession. intros Hfind [Hin Hs] Hrun Hu.
  assert (s ∈ values st) as Hv by (apply values_elem_of; by exists k, r).
  apply list_elem_of_In in Hv.
  pose proof (find_none _ _ Hfind s Hv) as Hno. simpl in Hno.
  by rewrite bool_decide_eq_true_2 in Hno.
Qed.

Lemma oneSlot_startSessionNow st sid a :
  oneSlot st →
  (∀ r s, getObj st sid = Some (r, s) →
     ∀ k' r' s', entry st k' r' s' → status s' = running →
                 userId s' = userId s → userId s ≠ "" → r' = r) →
  oneSlot (startSessionNow sid a st).
Proof.
  intros Hone Hfree. unfold startSessionNow.
  destruct (getObj st sid) as [[r s]|] eqn:Hobj; [|done].
  apply getObj_Some in Hobj as [_ Hs].
  apply oneSlot_upd_tasks, oneSlot_upd_runningTasks, oneSlot_publish,
    oneSlot_saveSessions, oneSlot_modify; [done|].
  intros s' Hs'. assert (s' = s) as -> by congruence.
  split; [done|]. intros _. right. by apply Hfree.
Qed.

Lemma oneSlot_startSession st sid a :
  oneSlot st → oneSlot (startSession sid a st).
Proof.
  intros Hone. unfold startSession.
  destruct (getObj st sid) as [[r s]|] eqn:Hobj; [|done].
  assert (oneSlot (modify r (set_analysts a) st)) as Hone1
    by by apply oneSlot_modify_neutral.
  pose proof (getObj_modify_same _ _ _ _ (set_analysts a) Hobj) as Hobj1.
  destruct (getUserRunningSession _ _) eqn:Hfind.
  - by apply oneSlot_publish, oneSlot_saveSessions, oneSlot_modify_idle.
  - apply oneSlot_startSessionNow; [done|]. rewrite Hobj1.
    intros r0 s0 [= <- <-] k' r' s' He Hrun Hu _.
    by destruct (getUserRunningSession_None _ _ _ _ _ Hfind He Hrun).
Qed.

(** The promotion keeps the property when no session of the user runs. *)
Lemma oneSlot_startNextQueuedSession st user :
  Inv st → oneSlot st →
  (∀ k r s, entry st k r s → status s = running → userId s ≠ user) →
  oneSlot (startNextQueuedSession user st).
Proof.
  intros HI Hone Hfree. unfold startNextQueuedSession.
  destruct (nextQueued user (values st)) as [q|] eqn:Hq; [|done].
  apply nextQueued_pick in Hq as (Hin & _ & Hu).
  destruct (values_getObj _ _ _ HI Hin) as [r Hobj].
  apply oneSlot_startSessionNow; [done|]. rewrite Hobj.
  intros r0 s0 [= <- <-] k' r' s' He Hrun Hu' _.
  destruct (Hfree k' r' s' He Hrun). congruence.
Qed.

(** The coroutine [tid] has given its session a final status: its [finally]
    block keeps the property, if no session of that user is running. *)
Lemma oneSlot_finally st tid t s :
  InvX (Some tid) st → oneSlot st →
  heap st !! t_session t = Some s →
  (∀ k r s', entry st k r s' → status s' = running →
             userId s' = userId s → userId s ≠ "" → False) →
  oneSlot (finally tid t st).
Proof.
  intros HI Hone Hs Hfree. unfold finally.
  set (st2 := upd_tasks (alter finished tid)
                (upd_runningTasks (JsMap.delete (t_sessionId t)) st)).
  assert (Inv st2) as HI2 by by apply Inv_finished, InvX_upd_runningTasks.
  assert (oneSlot st2) as Hone2
    by by apply oneSlot_upd_tasks, oneSlot_upd_runningTasks.
  change (heap st2) with (heap st). rewrite Hs.
  destruct (bool_decide _) eqn:Hu; [|done].
  apply bool_decide_eq_true in Hu.
  apply oneSlot_startNextQueuedSession; [done..|].
  intros k r s' He Hrun Heq. by eapply Hfree.
Qed.

Lemma oneSlot_end st tid t s f :
  Inv st → oneSlot st → tasks st !! tid = Some t → t_alive t = true →
  heap st !! t_session t = Some s → t_session t ∈ (sessions st).*2 →
  id (f s) = id s → userId (f s) = userId s → rec_ok (f s) →
  status (f s) ≠ running →
  oneSlot
    (finally tid t
       (publish (t_sessionId t) (t_session t)
          (saveSessions (modify (t_session t) f st)))).
Proof.
  intros HI Hone Ht Halive Hs Hatt Hid Hu Hok Hst.
  pose proof (no_task_unless_running _ _ _ _ HI Ht Halive Hs) as Hrun.
  apply list_elem_of_fmap in Hatt as ([k0 r0] & Hr0 & Hin0). simpl in Hr0.
  subst r0.
  assert (oneSlot (modify (t_session t) f st)) as Hone1.
  { apply oneSlot_modify; [done|]. intros s' Hs'.
    assert (s' = s) as -> by congruence. by split. }
  apply (oneSlot_finally _ _ _ (f s)).
  - by eapply InvX_publish, InvX_saveSessions, InvX_modify_own.
  - by apply oneSlot_publish, oneSlot_saveSessions.
  - state_simpl. by rewrite list_lookup_alter_eq, Hs.
  - intros k r s' He Hrun' Heq Hne.
    assert (entry (modify (t_session t) f st) k r s') as He'.
    { destruct He as [Hin Hs']. split; by state_simpl. }
    apply entry_modify in He' as (s0 & He0 & ->).
    destruct (decide (r = t_session t)) as [->|Hdiff].
    + destruct He0 as [_ Hs0]. assert (s0 = s) as -> by congruence. done.
    + destruct Hdiff.
      apply (Hone k r s0 k0 (t_session t) s); try done; congruence.
Qed.

(** After a restart no record of the store is running. *)
Lemma loadFrom_idle oracle i data st :
  Inv st → Forall rec_ok data →
  (∀ k r s, entry st k r s → status s ≠ running) →
  ∀ k r s, entry (loadFrom oracle i data st) k r s → status s ≠ running.
Proof.
  revert i st. induction data as [|d data IH]; intros i st HI Hdata Hidle;
    [done|].
  apply Forall_cons in Hdata as [Hd Hdata]. simpl. apply IH; [|done|].
  - unfold loadOne. by apply Inv_alloc, rec_ok_loaded.
  - intros k r s [Hin Hs]. unfold loadOne in Hin, Hs. simpl in Hin, Hs.
    apply set_elem_of in Hin as [[= -> ->]|Hin].
    + rewrite list_lookup_middle in Hs by done. injection Hs as <-.
      by destruct (decide (status d = running)).
    + destruct (inv_ids _ _ HI k r Hin) as (s0 & Hs0 & _).
      rewrite (lookup_app_l_Some _ _ _ _ Hs0) in Hs. injection Hs as <-.
      by apply (Hidle k r s0).
Qed.

Lemma oneSlot_restart oracle st : Inv st → oneSlot (restart oracle st).
Proof.
  intros HI. unfold restart, loadSessions. simpl.
  assert (Inv (mkState [] [] [] [] (disk st) [])) as HI0.
  { split; simpl; try done; try apply NoDup_nil_2.
    - by intros k r ?%elem_of_nil.
    - apply (inv_disk _ _ HI). }
  assert (∀ k r s, entry (mkState [] [] [] [] (disk st) []) k r s →
                   status s ≠ running) as Hidle0.
  { by intros k r s [?%elem_of_nil _]. }
  destruct (disk st) as [d|] eqn:Hd.
  - intros k1 r1 s1 k2 r2 s2 He1 _ Hrun.
    by destruct (loadFrom_idle oracle 0 d _ HI0 (inv_disk _ _ HI d Hd) Hidle0
                   k1 r1 s1 He1).
  - intros k1 r1 s1 k2 r2 s2 He1 _ Hrun. by destruct (Hidle0 k1 r1 s1 He1).
Qed.

(** Where C1 does hold.  Every event keeps the number of running sessions of
    a user at one at most, provided that a coroutine which the event ends has
    not been cancelled and still has its session in the store.  (The sample
    [deleteThenSubmit] ends with an event that is not of this kind: a chunk
    for the coroutine of a deleted session.) *)
Lemma one_running_preserved st e :
  reachable st → oneSlot st → ends_attached e st → oneSlot (exec e st).
Proof.
  intros HI%reachable_Inv Hone Hends.
  destruct e as [user body v rnd now|user sid|user sid|tid chunk|tid
                 |tid message|oracle]; simpl.
  - unfold postSessions. destruct (valid v); [|done].
    unfold createSession. cbn [fst snd].
    apply oneSlot_startSession, oneSlot_saveSessions.
    match goal with
    | |- context [upd_heap (λ h, h ++ [?s])] => by apply (oneSlot_alloc st s)
    end.
  - unfold deleteSessionRoute. destruct (getSession _ _ _ _); [|done].
    unfold deleteSession. destruct (JsMap.has _ _); [|done]. cbn [fst].
    apply oneSlot_saveSessions, oneSlot_delete.
    destruct (JsMap.get sid (runningTasks st)); [|done].
    by apply oneSlot_upd_runningTasks, oneSlot_upd_tasks.
  - unfold retryRoute. destruct (getSession _ _ _ _) as [s|]; [|done].
    destruct (decide _); [done|]. cbn [fst]. unfold retrySession.
    destruct (getObj st sid) as [[r s0]|]; [|done].
    by apply oneSlot_startSession, oneSlot_saveSessions, oneSlot_modify_idle.
  - unfold resume. destruct (tasks st !! tid) as [t|] eqn:Ht; [|done].
    destruct (t_alive t) eqn:Halive; [|done].
    destruct (task_object _ _ _ _ HI Ht Halive) as (s & Hs & Hrun & He & Hd);
      [done|].
    destruct (t_aborted t) eqn:Habort.
    { destruct (Hends tid t) as [? _]; [|done..|congruence].
      split; [done|]. by left. }
    assert (∀ f, ends_task (FeedChunk tid chunk) tid t →
              id (f s) = id s → userId (f s) = userId s → rec_ok (f s) →
              status (f s) ≠ running →
              oneSlot
                (finally tid t
                   (publish (t_sessionId t) (t_session t)
                      (saveSessions (modify (t_session t) f st))))) as Hend.
    { intros f Hkind Hid Hu Hok Hst.
      destruct (Hends tid t Hkind Ht Halive) as [_ Hatt].
      by eapply oneSlot_end. }
    unfold onChunk. rewrite Habort. destruct (type chunk) eqn:Hty.
    + destruct (truthy (agent chunk)); [|done].
      apply oneSlot_publish, oneSlot_saveSessions, oneSlot_modify_neutral;
        [by apply oneSlot_upd_tasks|done].
    + destruct (truthy (agent chunk) && truthy (content chunk)); [|done].
      apply oneSlot_publish, oneSlot_modify_neutral;
        [by apply oneSlot_upd_tasks|done].
    + apply oneSlot_upd_tasks.
      destruct (truthy (agent chunk) && truthy (content chunk)); [|done].
      by apply oneSlot_publish, oneSlot_saveSessions, oneSlot_modify_neutral.
    + done.
    + apply Hend; [|done|done| |done].
      * simpl. split; [done|]. right. by left.
      * unfold rec_ok. simpl. rewrite He. split; [by split|done].
    + apply Hend; [|done|done| |done].
      * simpl. split; [done|]. right. right. by left.
      * unfold rec_ok. simpl. rewrite Hd. split; [split; [done|]|done].
        intros _. by apply substring0_nonempty, or_else_nonempty.
    + apply Hend; [|done|done| |done].
      * simpl. split; [done|]. right. right. right. by left.
      * unfold rec_ok. simpl. rewrite Hd. by split; [split|].
    + apply Hend; [|done|done| |done].
      * simpl. split; [done|]. by repeat right.
      * unfold rec_ok. simpl. rewrite Hd. by split; [split|].
  - unfold resume. destruct (tasks st !! tid) as [t|] eqn:Ht; [|done].
    destruct (t_alive t) eqn:Halive; [|done].
    destruct (task_object _ _ _ _ HI Ht Halive) as (s & Hs & Hrun & He & Hd);
      [done|].
    destruct (Hends tid t) as [_ Hatt]; [done..|].
    unfold onEnd. rewrite Hs, decide_True by done.
    eapply oneSlot_end; [done..| |done].
    unfold rec_ok. simpl. rewrite He, Hd. split; [by split|done].
  - unfold resume. destruct (tasks st !! tid) as [t|] eqn:Ht; [|done].
    destruct (t_alive t) eqn:Halive; [|done].
    destruct (task_object _ _ _ _ HI Ht Halive) as (s & Hs & Hrun & He & Hd);
      [done|].
    destruct (Hends tid t) as [_ Hatt]; [done..|].
    unfold onThrow, fail. eapply oneSlot_end; [done..| |done].
    unfold rec_ok. simpl. rewrite Hd. split; [split; [done|]|done].
    intros _. by apply or_else_nonempty.
  - by apply oneSlot_restart.
Qed.
Lemma oneSlot_initial : oneSlot initial.
Proof. by intros k1 r1 s1 k2 r2 s2 [?%elem_of_nil _]. Qed.

(** Requests end no coroutine. *)
Lemma oneSlot_requests es st :
  reachable st → oneSlot st →
  Forall (λ e, ∀ tid t, ¬ ends_task e tid t) es →
  oneSlot (run es st).
Proof.
  revert st. induction es as [|e es IH]; intros st Hreach Hone Hes; [done|].
  apply Forall_cons in Hes as [He Hes]. simpl. apply IH; [| |done].
  - by constructor.
  - apply one_running_preserved; [done..|].
    intros tid t Hends. by destruct (He tid t).
Qed.
End OneSlot.

(** ** The store and its listings *)

Section Listings.
Context `{Clock}.

Lemma values_ids x st : InvX x st → id <$> values st = (sessions st).*1.
Proof.
  intros HI. unfold values.
  assert (∀ l, l ⊆ sessions st →
            id <$> omap (λ kr, heap st !! kr.2) l = l.*1) as Hl.
  { induction l as [|[k r] l IH]; [done|]. intros Hsub.
    destruct (inv_ids _ _ HI k r) as (s & Hs & Hid); [apply Hsub; left|].
    cbn. rewrite Hs. cbn. rewrite Hid, IH; [done|].
    intros p Hp. apply Hsub. by right. }
  by apply Hl.
Qed.

(** X1. In every reachable state the stored sessions have pairwise different
    ids, and each of them is the object the store holds under its own id. *)
Theorem stored_ids_unique st :
  reachable st →
  NoDup (id <$> values st)
  ∧ ∀ s, s ∈ values st → ∃ r, getObj st (id s) = Some (r, s).
Proof.
  intros HI%reachable_Inv. split.
  - rewrite (values_ids None) by done. apply HI.
  - intros s Hs. by apply (values_getObj st None).
Qed.

Lemma insertSorted_perm cmp x l : insertSorted cmp x l ≡ₚ x :: l.
Proof.
  induction l as [|y l IH]; [done|]. simpl.
  destruct (cmp x y <=? 0)%Z; [done|]. rewrite IH. apply Permutation_swap.
Qed.

Lemma sortSessions_perm cmp l : sortSessions cmp l ≡ₚ l.
Proof.
  induction l as [|x l IH]; [done|]. cbn.
  rewrite insertSorted_perm. by f_equiv.
Qed.

Lemma getAllSessions_perm st requester admin :
  getAllSessions st requester admin
  ≡ₚ filter (inScope requester admin) (values st).
Proof.
  unfold getAllSessions. rewrite sortSessions_perm.
  destruct admin.
  - induction (values st) as [|s l IH]; [done|].
    rewrite filter_cons_True by by left. by f_equiv.
  - destruct (truthy requester) eqn:Hreq.
    + induction (values st) as [|s l IH]; [done|].
      rewrite !filter_cons. destruct (decide (Some (userId s) = requester)).
      * rewrite decide_True by (right; by left). by f_equiv.
      * rewrite decide_False; [done|]. intros [|[[]|[]]]; congruence.
    + induction (values st) as [|s l IH]; [done|].
      rewrite !filter_cons. destruct (decide (userId s = "")).
      * rewrite decide_True by (right; by right). by f_equiv.
      * rewrite decide_False; [done|]. intros [|[[]|[]]]; congruence.
Qed.

(** X2. [getAllSessions] returns a rearrangement of the stored sessions in
    the requester's scope: all of them for an admin, those whose user id is
    the requester's for a named requester, those without user id otherwise.
    Nothing is dropped, repeated or added. *)
Theorem getAllSessions_scope st requester admin :
  getAllSessions st requester admin
  ≡ₚ filter (inScope requester admin) (values st)
  ∧ ∀ s, s ∈ getAllSessions st requester admin
         ↔ s ∈ values st ∧ inScope requester admin s.
Proof.
  split; [apply getAllSessions_perm|]. intros s.
  rewrite getAllSessions_perm, list_elem_of_filter. tauto.
Qed.

Lemma notOlder_trans a b c : notOlder a b → notOlder b c → notOlder a c.
Proof.
  intros (ta & tb & Ha & Hb & Hab) (tb' & tc & Hb' & Hc & Hbc).
  exists ta, tc. split_and!; [done..|]. simplify_eq. lia.
Qed.

Lemma insertSorted_sorted x l :
  is_Some (Date_getTime (createdAt x)) →
  Forall (λ s, is_Some (Date_getTime (createdAt s))) l →
  StronglySorted notOlder l →
  StronglySorted notOlder (insertSorted byCreatedAtDesc x l).
Proof.
  intros [tx Hx] Hparse Hsorted.
  induction Hsorted as [|y l Hl IH Hy]; simpl.
  - repeat constructor.
  - apply Forall_cons in Hparse as [[ty Hty] Hparse].
    unfold byCreatedAtDesc at 1. rewrite Hty, Hx.
    destruct (ty - tx <=? 0)%Z eqn:Hc.
    + assert (notOlder x y) as Hxy by (exists tx, ty; split_and!; [done..|lia]).
      constructor; [by constructor|]. constructor; [done|].
      eapply Forall_impl; [exact Hy|]. intros z Hz.
      by apply notOlder_trans with y.
    + constructor; [by apply IH|].
      rewrite insertSorted_perm. constructor; [|done].
      exists ty, tx. split_and!; [done..|lia].
Qed.

(** X3. When the creation time of every stored session can be read, the list
    that [getAllSessions] returns is ordered from the newest to the oldest. *)
Theorem getAllSessions_newest_first st requester admin :
  (∀ s, s ∈ values st → is_Some (Date_getTime (createdAt s))) →
  StronglySorted notOlder (getAllSessions st requester admin).
Proof.
  intros Hparse. unfold getAllSessions.
  assert (∀ l, l ⊆ values st →
            StronglySorted notOlder (sortSessions byCreatedAtDesc l)) as Hl.
  { induction l as [|x l IH]; intros Hsub; [constructor|].
    change (sortSessions byCreatedAtDesc (x :: l))
      with (insertSorted byCreatedAtDesc x (sortSessions byCreatedAtDesc l)).
    apply insertSorted_sorted.
    - apply Hparse, Hsub. by left.
    - apply Forall_forall. intros z Hz. apply Hparse.
      rewrite sortSessions_perm in Hz. apply Hsub. by right.
    - apply IH. intros z Hz. apply Hsub. by right. }
  apply Hl. destruct admin; [done|].
  destruct (truthy requester); apply list_subseteq_filter.
Qed.

Lemma summarize_status m l : sum_status <$> summarize m l = status <$> l.
Proof.
  revert m. induction l as [|s l IH]; intros m; [done|]. cbn [summarize].
  destruct (decide (status s = queued)); cbn; by rewrite IH.
Qed.

Lemma count_running_fmap {A} (f : A → SessionStatus) (l : list A) :
  length (filter (λ x, x = running) (f <$> l))
  = length (filter (λ x, f x = running) l).
Proof.
  induction l as [|x l IH]; [done|]. rewrite fmap_cons, !filter_cons.
  destruct (decide (f x = running)); cbn; by rewrite IH.
Qed.

(** X4. The number that [getRunningCount] returns is the number of running
    sessions in the list that [getAllSessions] returns for the same
    requester; so the count of GET /api/sessions/running/count is the number
    of running entries in the answer of GET /api/sessions. *)
Theorem getRunningCount_counts_listed st requester admin :
  getRunningCount st requester admin
  = length (filter (λ s, status s = running)
              (getAllSessions st requester admin))
  ∧ ∀ user,
      runningCountRoute user st
      = length (filter (λ m, sum_status m = running) (listRoute user st)).
Proof.
  assert (∀ requester admin,
            getRunningCount st requester admin
            = length (filter (λ s, status s = running)
                        (getAllSessions st requester admin))) as Hcount.
  { clear. intros requester admin.
    rewrite getAllSessions_perm. unfold getRunningCount.
    induction (values st) as [|s l IH]; [done|].
    rewrite !filter_cons.
    destruct (decide (inScope requester admin s)) as [Hin|Hout].
    - rewrite filter_cons. destruct (decide (status s = running)).
      + rewrite decide_True by done. simpl. by rewrite IH.
      + rewrite decide_False by tauto. done.
    - rewrite decide_False by (unfold inScope in Hout; tauto). done. }
  split; [apply Hcount|]. intros user.
  unfold runningCountRoute, listRoute, getAllSessionSummaries.
  rewrite Hcount.
  set (l := getAllSessions st (Some (username user)) (isAdmin user)).
  trans (length (filter (λ x, x = running) (status <$> l))).
  { symmetry. apply count_running_fmap. }
  rewrite <- (summarize_status ∅). apply count_running_fmap.
Qed.

(** X5. In a reachable state every session that [getAllSessions] lists for a
    requester is returned to the same requester by [getSession] under its
    id. *)
Theorem listed_session_readable st requester admin s :
  reachable st →
  s ∈ getAllSessions st requester admin →
  getSession st (id s) requester admin = Some s.
Proof.
  intros HI%reachable_Inv. rewrite getAllSessions_perm, list_elem_of_filter.
  intros [Hscope Hs].
  destruct (values_getObj st None s HI Hs) as [r Hr].
  unfold getSession. rewrite Hr.
  destruct admin; [done|].
  destruct Hscope as [|[[Hreq Hu]|[Hreq Hu]]]; [done|..].
  - rewrite (bool_decide_eq_false_2 (Some (userId s) ≠ requester)) by tauto.
    by rewrite andb_false_r.
  - by rewrite Hreq.
Qed.

Lemma summarize_rank (m : gmap string nat) l :
  summarize m l
  = imap (λ i s,
      toSummary s
        (if decide (status s = queued) then
           Some (default 0 (m !! queueKey s)
                 + S (length (filter (λ s', status s' = queued
                                            ∧ queueKey s' = queueKey s)
                                (take i l))))%nat
         else None)) l.
Proof.
  revert m. induction l as [|x l IH]; intros m; [done|].
  cbn [summarize imap]. fold (queueKey x).
  destruct (decide (status x = queued)) as [Hq|Hq].
  - rewrite IH. cbn [take filter list_filter length].
    f_equal.
    apply imap_ext. intros i s Hs. unfold compose. f_equal.
    destruct (decide (status s = queued)); [|done]. f_equal.
    change (take (S i) (x :: l)) with (x :: take i l).
    rewrite filter_cons.
    destruct (decide (queueKey x = queueKey s)) as [Hk|Hk].
    + rewrite decide_True by done. rewrite <- Hk, lookup_insert_eq. cbn. lia.
    + rewrite decide_False by tauto. by rewrite lookup_insert_ne.
  - f_equal. rewrite IH. apply imap_ext. intros i s Hs. unfold compose.
    f_equal. destruct (decide (status s = queued)); [|done].
    change (take (S i) (x :: l)) with (x :: take i l).
    rewrite filter_cons, decide_False by tauto. done.
Qed.

(** X6. [getAllSessionSummaries] returns one summary for each session that
    [getAllSessions] lists, in the same order and with the same fields
    ([reports] apart); a queued session gets as [queuePosition] one more than
    the number of queued sessions of the same user id (of no user id, for a
    session without one) that are listed before it, and a session that is
    not queued gets none. *)
Theorem summaries_queue_rank st requester admin :
  let l := getAllSessions st requester admin in
  getAllSessionSummaries st requester admin
  = imap (λ i s, toSummary s (queueRank l i s)) l.
Proof.
  intros l. unfold getAllSessionSummaries. fold l. rewrite summarize_rank.
  apply imap_ext. intros i s Hs. cbn. unfold queueRank.
  destruct (decide (status s = queued)); [|done].
  by rewrite lookup_empty.
Qed.
End Listings.

(** ** What no operation changes *)

Section Evolution.
Context `{Clock}.

Lemma evolves_refl b s : evolves b s s.
Proof. by repeat split. Qed.

Lemma evolves_trans b s1 s2 s3 :
  evolves b s1 s2 → evolves b s2 s3 → evolves b s1 s3.
Proof.
  intros [H1 P1] [H2 P2]. split.
  - unfold same_request in *. destruct_and!. split_and!; congruence.
  - intros Hb. by trans (progress s2); auto.
Qed.

Lemma evolves_weaken b s s' : evolves false s s' → evolves b s s'.
Proof. intros [? Hp]. split; [done|]. intros _. by apply Hp. Qed.

Lemma keeps_refl b h : keeps b h h.
Proof. intros r s Hs. exists s. split; [done|apply evolves_refl]. Qed.

Lemma keeps_trans b h1 h2 h3 : keeps b h1 h2 → keeps b h2 h3 → keeps b h1 h3.
Proof.
  intros H12 H23 r s Hs. destruct (H12 r s Hs) as (s2 & Hs2 & He2).
  destruct (H23 r s2 Hs2) as (s3 & Hs3 & He3). exists s3.
  split; [done|]. by apply evolves_trans with s2.
Qed.

Lemma keeps_weaken b h h' : keeps false h h' → keeps b h h'.
Proof.
  intros Hk r s Hs. destruct (Hk r s Hs) as (s' & ? & ?). exists s'.
  split; [done|]. by apply evolves_weaken.
Qed.

Lemma keeps_alter b h r f : (∀ s, evolves b s (f s)) → keeps b h (alter f r h).
Proof.
  intros Hf r' s Hs. destruct (decide (r' = r)) as [->|Hne].
  - exists (f s). by rewrite list_lookup_alter_eq, Hs.
  - exists s. rewrite list_lookup_alter_ne by done.
    split; [done|apply evolves_refl].
Qed.

Lemma keeps_app b h l : keeps b h (h ++ l).
Proof.
  intros r s Hs. exists s. split; [|apply evolves_refl].
  by apply lookup_app_l_Some.
Qed.

Ltac evolves_setters :=
  intros; split;
  [by repeat split|intros _; cbn; try done; by apply prefix_app_r].

Lemma keeps_startSessionNow st sid a :
  keeps false (heap st) (heap (startSessionNow sid a st)).
Proof.
  unfold startSessionNow. destruct (getObj st sid) as [[r s]|];
    [|apply keeps_refl].
  state_simpl. apply keeps_alter. evolves_setters.
Qed.

Lemma keeps_startSession st sid a :
  keeps false (heap st) (heap (startSession sid a st)).
Proof.
  unfold startSession. destruct (getObj st sid) as [[r s]|];
    [|apply keeps_refl].
  destruct (getUserRunningSession _ _).
  - state_simpl. eapply keeps_trans; apply keeps_alter; evolves_setters.
  - eapply keeps_trans; [|apply keeps_startSessionNow].
    apply keeps_alter. evolves_setters.
Qed.

Lemma keeps_startNextQueuedSession st user :
  keeps false (heap st) (heap (startNextQueuedSession user st)).
Proof.
  unfold startNextQueuedSession. destruct (nextQueued _ _);
    [apply keeps_startSessionNow|apply keeps_refl].
Qed.

Lemma keeps_finally st tid t :
  keeps false (heap st) (heap (finally tid t st)).
Proof.
  unfold finally. state_simpl. destruct (heap st !! t_session t) as [s|];
    [|apply keeps_refl].
  destruct (bool_decide _); [|apply keeps_refl].
  apply (keeps_startNextQueuedSession
           (upd_tasks (alter finished tid)
              (upd_runningTasks (JsMap.delete (t_sessionId t)) st))).
Qed.

Lemma keeps_fail st t message :
  keeps false (heap st) (heap (fail t message st)).
Proof. unfold fail. state_simpl. apply keeps_alter. evolves_setters. Qed.

Lemma keeps_onChunk st tid t chunk :
  keeps false (heap st) (heap (onChunk tid t chunk st)).
Proof.
  unfold onChunk. destruct (t_aborted t); [apply keeps_finally|].
  destruct (type chunk).
  - destruct (truthy (agent chunk)); [|apply keeps_refl].
    rewrite publish_heap. cbn. apply keeps_alter. evolves_setters.
  - destruct (truthy (agent chunk) && truthy (content chunk));
      [|apply keeps_refl].
    rewrite publish_heap. cbn. apply keeps_alter. evolves_setters.
  - cbn [heap upd_tasks].
    destruct (truthy (agent chunk) && truthy (content chunk));
      [|apply keeps_refl].
    rewrite publish_heap. cbn. apply keeps_alter. evolves_setters.
  - apply keeps_refl.
  - eapply keeps_trans; [|apply keeps_finally].
    rewrite publish_heap. cbn. apply keeps_alter. evolves_setters.
  - eapply keeps_trans; [apply keeps_fail|apply keeps_finally].
  - eapply keeps_trans; [apply keeps_fail|apply keeps_finally].
  - eapply keeps_trans; [apply keeps_fail|apply keeps_finally].
Qed.

Lemma keeps_onEnd st tid t : keeps false (heap st) (heap (onEnd tid t st)).
Proof.
  unfold onEnd. eapply keeps_trans; [|apply keeps_finally].
  repeat case_match; state_simpl; try apply keeps_refl.
  apply keeps_alter. evolves_setters.
Qed.

Lemma keeps_onThrow st tid t message :
  keeps false (heap st) (heap (onThrow tid t message st)).
Proof.
  unfold onThrow. eapply keeps_trans; [apply keeps_fail|apply keeps_finally].
Qed.

Lemma keeps_resume st tid k :
  (∀ t st, keeps false (heap st) (heap (k tid t st))) →
  keeps false (heap st) (heap (resume tid k st)).
Proof.
  intros Hk. unfold resume. repeat case_match; try apply keeps_refl. apply Hk.
Qed.

Lemma keeps_retrySession st sid a :
  keeps true (heap st) (heap (retrySession sid a st)).
Proof.
  unfold retrySession. destruct (getObj st sid) as [[r s]|];
    [|apply keeps_refl].
  eapply keeps_trans; [|apply keeps_weaken, keeps_startSession].
  state_simpl. apply keeps_alter. intros. split; [by repeat split|done].
Qed.

Lemma deleteSession_heap st sid : heap (deleteSession sid st).1 = heap st.
Proof. unfold deleteSession. by repeat case_match. Qed.

Lemma keeps_postSessions st user body validation random36 nowIso :
  keeps false (heap st)
    (heap (postSessions user body validation random36 nowIso st).1).
Proof.
  unfold postSessions. destruct (valid validation); [|apply keeps_refl].
  cbn. eapply keeps_trans; [|apply keeps_startSession]. state_simpl.
  apply keeps_app.
Qed.

Lemma keeps_exec b e st :
  ¬ is_restart e → (is_retry e → b = true) →
  keeps b (heap st) (heap (exec e st)).
Proof.
  intros Hrestart Hretry. destruct e; cbn [exec].
  - apply keeps_weaken, keeps_postSessions.
  - unfold deleteSessionRoute. destruct (getSession _ _ _ _);
      [|apply keeps_refl].
    pose proof (deleteSession_heap st sessionId) as Hh.
    destruct (deleteSession sessionId st) as [st' []]; cbn in *;
      rewrite Hh; apply keeps_refl.
  - rewrite Hretry by done. unfold retryRoute.
    destruct (getSession _ _ _ _); [|apply keeps_refl].
    destruct (decide _); [apply keeps_refl|]. apply keeps_retrySession.
  - apply keeps_weaken, keeps_resume. intros. apply keeps_onChunk.
  - apply keeps_weaken, keeps_resume. intros. apply keeps_onEnd.
  - apply keeps_weaken, keeps_resume. intros. apply keeps_onThrow.
  - by destruct Hrestart.
Qed.

(** X7. Whatever is served or delivered short of a restart, an object of the
    heap stays at its address, and its [id], [ticker], [stockName], [market],
    [model], [startDate], [endDate], [userId] and [createdAt] stay what they
    were; unless the event is a retry, its [progress] is extended at the end
    or unchanged. *)
Theorem request_fields_fixed e st r s :
  ¬ is_restart e → heap st !! r = Some s →
  ∃ s', heap (exec e st) !! r = Some s' ∧ same_request s s'
        ∧ (¬ is_retry e → progress s `prefix_of` progress s').
Proof.
  intros Hrestart Hs.
  destruct (keeps_exec true e st Hrestart) with r s as (s' & Hs' & Hreq & _);
    [done..|].
  exists s'. split_and!; [done..|]. intros Hretry.
  destruct (keeps_exec false e st Hrestart) with r s as (s2 & Hs2 & _ & Hp);
    [done..|].
  assert (s2 = s') as -> by congruence. by apply Hp.
Qed.
End Evolution.

(** ** The store after a request *)

Section MapAlgebra.
Context {V : Type}.
Implicit Types m : list (string * V).

Lemma get_None m k : JsMap.get k m = None ↔ k ∉ m.*1.
Proof.
  induction m as [|[k' v'] m IH]; simpl.
  - split; [intros _; apply not_elem_of_nil|done].
  - rewrite not_elem_of_cons. destruct (decide (k = k')); [|tauto].
    split; [done|tauto].
Qed.

Lemma set_fresh m k v : JsMap.get k m = None → JsMap.set k v m = m ++ [(k, v)].
Proof.
  induction m as [|[k' v'] m IH]; simpl; [done|].
  destruct (decide (k = k')); [done|]. intros Hm. by rewrite IH.
Qed.

Lemma filter_all {A} (P : A → Prop) `{∀ x, Decision (P x)} (l : list A) :
  Forall P l → filter P l = l.
Proof.
  induction 1 as [|x l Hx Hl IH]; [done|].
  by rewrite filter_cons, decide_True, IH.
Qed.

Lemma delete_filter m k :
  NoDup m.*1 → JsMap.delete k m = filter (λ kv, kv.1 ≠ k) m.
Proof.
  induction m as [|[k' v'] m IH]; [done|].
  rewrite fmap_cons. intros [Hk' Hm]%NoDup_cons. rewrite filter_cons.
  cbn [JsMap.delete fst]. destruct (decide (k = k')) as [->|Hne].
  - rewrite decide_False by tauto. symmetry. apply filter_all.
    apply Forall_forall. intros [k v] Hin Hkk. cbn in Hkk. subst k.
    apply Hk'. apply list_elem_of_fmap. by exists (k', v).
  - rewrite decide_True by done. by rewrite IH.
Qed.

Lemma filter_none {A} (P : A → Prop) `{∀ x, Decision (P x)} (l : list A) :
  (∀ x, ¬ P x) → filter P l = [].
Proof.
  intros HP. induction l as [|x l IH]; [done|].
  by rewrite filter_cons_False.
Qed.

Lemma omap_filter {A B} (f : A → option B) (P : A → Prop) (Q : B → Prop)
    `{∀ x, Decision (P x)} `{∀ y, Decision (Q y)} (l : list A) :
  (∀ x y, x ∈ l → f x = Some y → (P x ↔ Q y)) →
  omap f (filter P l) = filter Q (omap f l).
Proof.
  induction l as [|x l IH]; intros Hl; [done|].
  rewrite filter_cons. cbn [omap list_omap].
  assert (omap f (filter P l) = filter Q (omap f l)) as IH'.
  { apply IH. intros x' y Hx'. apply Hl. by right. }
  destruct (f x) as [y|] eqn:Hy.
  - rewrite filter_cons. destruct (decide (P x)) as [HP|HP].
    + rewrite decide_True by (eapply Hl; [by left|done..]).
      cbn [omap list_omap]. by rewrite Hy, IH'.
    + rewrite decide_False; [done|]. intros HQ. apply HP.
      eapply Hl; [by left|done..].
  - destruct (decide (P x)); [|done]. cbn [omap list_omap]. by rewrite Hy.
Qed.
End MapAlgebra.

Section Requests.
Context `{Clock}.

Lemma str_or_empty s : str_or s "" = s.
Proof. unfold str_or. by destruct (decide (s = "")). Qed.

(** Every address in the store is below the end of the heap. *)
Lemma entry_lt x st k r :
  InvX x st → (k, r) ∈ sessions st → r < length (heap st).
Proof.
  intros HI Hin. destruct (inv_ids _ _ HI k r Hin) as (s & Hs & _).
  by apply lookup_lt_Some in Hs.
Qed.

Lemma omap_ext_in {A B} (f g : A → option B) (l : list A) :
  (∀ x, x ∈ l → f x = g x) → omap f l = omap g l.
Proof.
  induction l as [|x l IH]; intros Hl; [done|]. cbn [omap list_omap].
  rewrite (Hl x) by by left. rewrite IH; [done|].
  intros y Hy. apply Hl. by right.
Qed.

Lemma alter_app_last {A} (f : A → A) (h : list A) (s : A) :
  alter f (length h) (h ++ [s]) = h ++ [f s].
Proof. rewrite alter_app_r_alt by lia. by rewrite Nat.sub_diag. Qed.

(** The store after a new object has been put under a key that was free. *)
Lemma values_alloc x st k s :
  InvX x st → JsMap.get k (sessions st) = None →
  ∀ st', heap st' = heap st ++ [s] →
         sessions st' = JsMap.set k (length (heap st)) (sessions st) →
         values st' = values st ++ [s].
Proof.
  intros HI Hk st' Hheap Hsessions. unfold values.
  rewrite Hheap, Hsessions, set_fresh, omap_app by done. f_equal.
  - apply omap_ext_in. intros [k' r'] Hin. cbn.
    apply lookup_app_l, (entry_lt x st k'); done.
  - cbn. by rewrite list_lookup_middle.
Qed.

Lemma getUserRunningSession_app st st' user s :
  values st' = values st ++ [s] → status s ≠ running →
  getUserRunningSession st' user = getUserRunningSession st user.
Proof.
  unfold getUserRunningSession. intros -> Hs.
  induction (values st) as [|y l IH]; cbn.
  - by rewrite bool_decide_eq_false_2 by tauto.
  - by rewrite IH.
Qed.

(** X8. A valid request whose new id is not in use, in a reachable state.
    The answer is the new session; it is stored under its id at the end of
    the store, which is otherwise unchanged; it has the ticker and the name
    that the validation gave and the user id of the requester, and it keeps
    the analysts of the request.  It is queued if the requester has a running
    session in the store, and running (at the first stage) if not. *)
Theorem post_runs_or_queues st user body validation random36 nowIso :
  reachable st → valid validation = true →
  JsMap.get (generateId random36) (sessions st) = None →
  let st' := (postSessions user body validation random36 nowIso st).1 in
  ∃ s',
    (postSessions user body validation random36 nowIso st).2 = Json (Some s')
    ∧ getObj st' (generateId random36) = Some (length (heap st), s')
    ∧ values st' = values st ++ [s']
    ∧ id s' = generateId random36 ∧ userId s' = username user
    ∧ ticker s' = normalized validation ∧ stockName s' = name validation
    ∧ _analysts s' = Some (b_analysts body)
    ∧ match getUserRunningSession st (username user) with
      | Some _ => status s' = queued ∧ currentAgent s' = ""
      | None => status s' = running ∧ currentAgent s' = "Market Analyst"
      end.
Proof.
  intros HI%reachable_Inv Hvalid Hfresh. unfold postSessions.
  rewrite Hvalid, str_or_empty.
  set (params := mkParams _ _ _ _ _ _ _).
  pose proof (createSession_getObj st params random36 nowIso) as Hcreate.
  destruct (createSession params random36 nowIso st) as [st0 session] eqn:Hc.
  destruct Hcreate as [Hget Hpending].
  assert (session = mkSession (generateId random36) (normalized validation)
            (name validation) (p_market params) (p_model params)
            (b_startDate body) (b_endDate body) (username user) pending "" []
            ∅ (substring0 19 (replaceT nowIso)) "" "" None
          ∧ heap st0 = heap st ++ [session]
          ∧ sessions st0
            = JsMap.set (generateId random36) (length (heap st)) (sessions st))
    as (Hsession & Hheap0 & Hsessions0).
  { unfold createSession in Hc. by injection Hc as <- <-. }
  assert (id session = generateId random36) as Hid by by rewrite Hsession.
  assert (userId session = username user) as Huser by by rewrite Hsession.
  rewrite Hid in *.
  pose proof (startSession_getObj st0 _ _ _ (b_analysts body) Hget) as Hstart.
  cbn zeta in Hstart. cbn [fst snd].
  set (st1 := modify (length (heap st)) (set_analysts (b_analysts body)) st0)
    in Hstart.
  assert (values st1 = values st ++ [set_analysts (b_analysts body) session])
    as Hvalues1.
  { apply (values_alloc None _ (generateId random36)); [done..| |done].
    unfold st1. cbn. by rewrite Hheap0, alter_app_last. }
  assert (getUserRunningSession st1 (userId session)
          = getUserRunningSession st (username user)) as Hrun.
  { rewrite Huser. apply getUserRunningSession_app with (1 := Hvalues1).
    cbn. by rewrite Hpending. }
  rewrite Hrun in Hstart.
  assert (getObj st1 (generateId random36)
          = Some (length (heap st), set_analysts (b_analysts body) session))
    as Hget1 by by apply getObj_modify_same.
  set (s' := match getUserRunningSession st (username user) with
             | Some _ =>
                 set_status queued (set_analysts (b_analysts body) session)
             | None => started (set_analysts (b_analysts body) session)
             end) in *.
  assert (heap (startSession (generateId random36) (b_analysts body) st0)
          = heap st ++ [s']
          ∧ sessions (startSession (generateId random36) (b_analysts body) st0)
            = sessions st0) as [Hheap' Hsessions'].
  { unfold startSession. rewrite Hget. fold st1. rewrite Hrun. unfold s'.
    destruct (getUserRunningSession st (username user)).
    - rewrite publish_heap, publish_sessions. cbn.
      by rewrite Hheap0, !alter_app_last.
    - destruct (startSessionNow_effect st1 _ (b_analysts body) _ _ Hget1)
        as (-> & -> & _).
      cbn. by rewrite Hheap0, !alter_app_last. }
  assert (userId s' = username user) as Huser'.
  { unfold s'. by destruct (getUserRunningSession st (username user)). }
  exists s'. split_and!.
  - f_equal. unfold getSession. rewrite Hstart.
    destruct (isAdmin user); [done|].
    rewrite (bool_decide_eq_false_2 (Some (userId s') ≠ _));
      [|by rewrite Huser'; auto].
    by rewrite andb_false_r.
  - done.
  - apply (values_alloc None _ (generateId random36)); [done..|].
    by rewrite Hsessions'.
  - unfold s'. by destruct (getUserRunningSession st (username user)).
  - done.
  - unfold s'. rewrite Hsession.
    by destruct (getUserRunningSession st (username user)).
  - unfold s'. rewrite Hsession.
    by destruct (getUserRunningSession st (username user)).
  - unfold s'. by destruct (getUserRunningSession st (username user)).
  - unfold s'. rewrite Hsession.
    by destruct (getUserRunningSession st (username user)).
Qed.
Lemma values_delete x st sid st' :
  InvX x st → heap st' = heap st →
  sessions st' = JsMap.delete sid (sessions st) →
  values st' = filter (λ s, id s ≠ sid) (values st)
  ∧ getObj st' sid = None.
Proof.
  intros HI Hheap Hsessions. split.
  - unfold values. rewrite Hheap, Hsessions, delete_filter by apply HI.
    apply omap_filter. intros [k r] s Hin Hs. cbn in *.
    destruct (inv_ids _ _ HI k r Hin) as (s' & Hs' & <-).
    by assert (s' = s) as -> by congruence.
  - unfold getObj. rewrite Hsessions.
    assert (JsMap.get sid (JsMap.delete sid (sessions st)) = None) as ->;
      [|done].
    apply get_None. rewrite delete_filter by apply HI.
    intros ([k r] & -> & [Hk _]%list_elem_of_filter)%list_elem_of_fmap. done.
Qed.

(** X9. A deletion that is granted, in a reachable state.  The answer is
    [success]; the session with that id is gone from the store and the other
    sessions are kept, in their order; the new store is in the file; the
    coroutine registered for the id, if there is one, is cancelled.  No
    object is changed: the deleted one keeps the status it had. *)
Theorem delete_removes_only_entry st user sid s :
  reachable st →
  getSession st sid (Some (username user)) (isAdmin user) = Some s →
  let st' := (deleteSessionRoute user sid st).1 in
  (deleteSessionRoute user sid st).2 = JsonSuccess
  ∧ values st' = filter (λ s', id s' ≠ sid) (values st)
  ∧ getObj st' sid = None
  ∧ persisted st'
  ∧ heap st' = heap st
  ∧ ∀ c t, JsMap.get sid (runningTasks st) = Some c →
           tasks st !! c = Some t → tasks st' !! c = Some (abort t).
Proof.
  intros HI%reachable_Inv Hget.
  destruct (getSession_getObj _ _ _ _ _ Hget) as [r Hr].
  apply getObj_Some in Hr as [Hr Hs].
  unfold deleteSessionRoute. rewrite Hget. unfold deleteSession, JsMap.has.
  rewrite Hr. cbn [fst snd].
  set (st1 := match JsMap.get sid (runningTasks st) with
              | Some controller =>
                  upd_runningTasks (JsMap.delete sid)
                    (upd_tasks (alter abort controller) st)
              | None => st
              end).
  assert (heap st1 = heap st ∧ sessions st1 = sessions st) as [Hh1 Hs1].
  { unfold st1. by destruct (JsMap.get sid (runningTasks st)). }
  destruct (values_delete None st sid
              (saveSessions (upd_sessions (JsMap.delete sid) st1)))
    as [Hvalues Hgone]; [done|by cbn|by cbn; rewrite Hs1|].
  split_and!; [done..|apply saveSessions_persisted|by cbn|].
  intros c t Hc Ht. unfold st1. rewrite Hc. cbn.
  by rewrite list_lookup_alter_eq, Ht.
Qed.
End Requests.

(** ** Shutdown, restart and clearing *)

Section Shutdown.
Context `{Clock}.

Lemma alter_fixed {A} (f : A → A) (l : list A) (i : nat) :
  (∀ x, l !! i = Some x → f x = x) → alter f i l = l.
Proof.
  intros Hf. apply list_eq. intros j. destruct (decide (j = i)) as [->|Hne].
  - rewrite list_lookup_alter_eq. destruct (l !! i) as [x|] eqn:Hx; [|done].
    cbn. by rewrite Hf.
  - by rewrite list_lookup_alter_ne.
Qed.

(** The objects at the addresses [rs] have each been through [f] (any
    number of times, [f] being idempotent). *)
Lemma lookup_foldl_alter {A K} (f : A → A) (p : K → nat) (l : list K)
    (h : list A) (r : nat) :
  (∀ x, f (f x) = f x) →
  foldl (λ h k, alter f (p k) h) h l !! r
  = if decide (r ∈ p <$> l) then f <$> h !! r else h !! r.
Proof.
  intros Hf. revert h. induction l as [|k l IH]; intros h; cbn [foldl].
  - rewrite decide_False; [done|]. cbn. apply not_elem_of_nil.
  - rewrite IH, fmap_cons. destruct (decide (r = p k)) as [->|Hne].
    + rewrite list_lookup_alter_eq.
      destruct (decide (p k ∈ p k :: (p <$> l))) as [_|[]]; [|by left].
      destruct (decide (p k ∈ p <$> l)); [|done].
      destruct (h !! p k); [|done]. cbn. by rewrite Hf.
    + rewrite list_lookup_alter_ne by done.
      destruct (decide (r ∈ p <$> l)) as [Hin|Hout].
      * by rewrite decide_True by by right.
      * rewrite decide_False; [done|]. by intros [|]%elem_of_cons.
Qed.

Lemma interrupt_idemp s : interrupt (interrupt s) = interrupt s.
Proof.
  unfold interrupt. destruct (decide (status s = running)) as [Hr|Hr]; cbn.
  - done.
  - by rewrite decide_False.
Qed.

Lemma abort_idemp t : abort (abort t) = abort t.
Proof. done. Qed.

Lemma omap_fmap_lookup {A B K} (g : A → B) (f : K → option A) (l : list K) :
  omap (λ k, g <$> f k) l = g <$> omap f l.
Proof.
  induction l as [|k l IH]; [done|]. cbn [omap list_omap].
  destruct (f k); cbn; by rewrite IH.
Qed.

Lemma shutdownStep_effect st n k r :
  let res := shutdownStep (st, n) (k, r) in
  heap res.1 = alter interrupt r (heap st)
  ∧ sessions res.1 = sessions st ∧ runningTasks res.1 = runningTasks st
  ∧ tasks res.1 = tasks st ∧ disk res.1 = disk st
  ∧ res.2 = (n + length (filter (λ s, status s = running)
                           (omap (λ kr, heap st !! kr.2) [(k, r)])))%nat.
Proof.
  cbn [shutdownStep snd omap list_omap].
  destruct (heap st !! r) as [s|] eqn:Hs; cbv beta iota.
  - destruct (decide (status s = running)) as [Hrun|Hrun].
    + rewrite filter_cons_True by done. cbn. split_and!; try done. lia.
    + rewrite filter_cons_False by done. cbn. split_and!; try done.
      symmetry. apply alter_fixed. intros x Hx. unfold interrupt.
      assert (x = s) as -> by congruence. by rewrite decide_False.
  - cbn. split_and!; try done.
    symmetry. apply alter_fixed. intros x Hx. congruence.
Qed.

Lemma shutdown_loop l st n :
  NoDup l.*2 →
  let res := foldl shutdownStep (st, n) l in
  heap res.1 = foldl (λ h kr, alter interrupt kr.2 h) (heap st) l
  ∧ sessions res.1 = sessions st ∧ runningTasks res.1 = runningTasks st
  ∧ tasks res.1 = tasks st ∧ disk res.1 = disk st
  ∧ res.2 = (n + length (filter (λ s, status s = running)
                           (omap (λ kr, heap st !! kr.2) l)))%nat.
Proof.
  revert st n. induction l as [|[k r] l IH]; intros st n Hnodup.
  - cbn. split_and!; first [done|lia].
  - rewrite fmap_cons in Hnodup. apply NoDup_cons in Hnodup as [Hr Hnodup].
    cbn [foldl].
    destruct (shutdownStep_effect st n k r) as (Hh & Hs & Hrt & Ht & Hd & Hn).
    destruct (shutdownStep (st, n) (k, r)) as [st1 n1]. cbn [fst snd] in *.
    destruct (IH st1 n1 Hnodup) as (Hh' & Hs' & Hrt' & Ht' & Hd' & Hn').
    split_and!; try congruence.
    rewrite Hn', Hn.
    change ((k, r) :: l) with ([(k, r)] ++ l). rewrite omap_app, filter_app.
    rewrite length_app, Nat.add_assoc. f_equal. f_equal. f_equal.
    rewrite Hh. apply omap_ext_in. intros [k' r'] Hin.
    cbn. apply list_lookup_alter_ne. intros ->. apply Hr.
    apply list_elem_of_fmap. by exists (k', r').
Qed.

(** X10. [gracefulShutdown] in a reachable state.  Every running session of
    the store becomes an [error] session with the shutdown message and no
    current stage, and no other session is changed; no session of the store
    is running afterwards.  The store is written to the file if a session
    was running, otherwise file and objects are untouched.  Every registered
    coroutine is cancelled, and the register is empty. *)
Theorem gracefulShutdown_interrupts st :
  reachable st →
  let st' := gracefulShutdown st in
  values st' = interrupt <$> values st
  ∧ (∀ s, s ∈ values st' → status s ≠ running)
  ∧ ((∃ s, s ∈ values st ∧ status s = running) → persisted st')
  ∧ ((∀ s, s ∈ values st → status s ≠ running) →
       disk st' = disk st ∧ heap st' = heap st)
  ∧ runningTasks st' = []
  ∧ ∀ k c t, (k, c) ∈ runningTasks st → tasks st !! c = Some t →
             tasks st' !! c = Some (abort t).
Proof.
  intros HI%reachable_Inv st'.
  assert (∀ (l : list (string * nat)) (st0 : State),
            heap (foldl (λ st kc, upd_tasks (alter abort kc.2) st) st0 l)
            = heap st0
            ∧ sessions (foldl (λ st kc, upd_tasks (alter abort kc.2) st) st0 l)
              = sessions st0
            ∧ disk (foldl (λ st kc, upd_tasks (alter abort kc.2) st) st0 l)
              = disk st0
            ∧ tasks (foldl (λ st kc, upd_tasks (alter abort kc.2) st) st0 l)
              = foldl (λ ts kc, alter abort kc.2 ts) (tasks st0) l)
    as Habort.
  { induction l as [|kc l IH]; intros st0; [done|]. cbn [foldl].
    destruct (IH (upd_tasks (alter abort kc.2) st0)) as (-> & -> & -> & ->).
    done. }
  unfold gracefulShutdown in st'.
  destruct (shutdown_loop (sessions st) st 0 (inv_refs _ _ HI))
    as (Hh1 & Hs1 & Hrt1 & Ht1 & Hd1 & Hn1).
  destruct (foldl shutdownStep (st, 0%nat) (sessions st)) as [st1 n].
  cbn [fst snd] in *. fold (values st) in Hn1.
  set (st2 := if (0 <? n)%nat then saveSessions st1 else st1) in st'.
  assert (values st1 = interrupt <$> values st) as Hvalues1.
  { unfold values. rewrite Hh1, Hs1.
    rewrite <- omap_fmap_lookup. apply omap_ext_in. intros [k r] Hin.
    rewrite (lookup_foldl_alter interrupt snd) by apply interrupt_idemp.
    rewrite decide_True; [done|]. apply list_elem_of_fmap. by exists (k, r). }
  assert (heap st2 = heap st1 ∧ sessions st2 = sessions st1
          ∧ tasks st2 = tasks st ∧ runningTasks st2 = runningTasks st)
    as (Hh2 & Hs2 & Ht2 & Hr2).
  { unfold st2. by destruct (0 <? n)%nat. }
  destruct (Habort (runningTasks st2) st2) as (Hh' & Hs' & Hd' & Ht').
  assert (values st' = interrupt <$> values st) as Hvalues.
  { rewrite <- Hvalues1. unfold st'. apply values_ext; cbn; congruence. }
  split_and!.
  - done.
  - rewrite Hvalues. intros s (s0 & -> & _)%list_elem_of_fmap.
    unfold interrupt. by destruct (decide (status s0 = running)).
  - intros (s & Hs & Hrun). unfold persisted. rewrite Hvalues.
    unfold st'. cbn [disk upd_runningTasks]. rewrite Hd'.
    assert ((0 <? n)%nat = true) as Hn.
    { apply Nat.ltb_lt. rewrite Hn1.
      assert (s ∈ filter (λ s, status s = running) (values st)) as Hin
        by by apply list_elem_of_filter.
      destruct (filter _ (values st)); [by apply elem_of_nil in Hin|cbn; lia]. }
    unfold st2. rewrite Hn. cbn. by rewrite Hvalues1.
  - intros Hidle.
    assert (n = 0%nat) as Hn.
    { rewrite Hn1. cbn.
      assert (∀ l : list Session,
                (∀ s, s ∈ l → status s ≠ running) →
                length (filter (λ s, status s = running) l) = 0%nat) as Hnone.
      { induction l as [|s l IH]; intros Hl; [done|].
        rewrite filter_cons_False by (apply Hl; by left).
        apply IH. intros s' Hin'. apply Hl. by right. }
      by apply Hnone. }
    unfold st'. cbn [disk heap upd_runningTasks]. rewrite Hd', Hh'.
    unfold st2. rewrite Hn. cbn. split; [done|]. rewrite Hh1.
    apply list_eq. intros r.
    rewrite (lookup_foldl_alter interrupt snd) by apply interrupt_idemp.
    destruct (decide _) as [Hin|]; [|done].
    apply list_elem_of_fmap in Hin as ([k r'] & -> & Hin). cbn.
    destruct (inv_ids _ _ HI k r' Hin) as (s & Hs & _). rewrite Hs. cbn.
    unfold interrupt. rewrite decide_False; [done|]. apply Hidle.
    apply values_elem_of. by exists k, r'.
  - done.
  - intros k c t Hin Ht. unfold st'. cbn [tasks upd_runningTasks].
    rewrite Ht', Ht2, Hr2.
    rewrite (lookup_foldl_alter abort snd) by apply abort_idemp.
    rewrite decide_True, Ht; [done|]. apply list_elem_of_fmap. by exists (k, c).
Qed.
Lemma str_or_nonempty s d : s ≠ "" → str_or s d = s.
Proof. intros Hs. unfold str_or. by rewrite decide_False. Qed.

Lemma loadOne_reloaded random36 nowIso d st :
  id d ≠ "" → createdAt d ≠ "" →
  heap (loadOne random36 nowIso d st) = heap st ++ [reloaded d]
  ∧ sessions (loadOne random36 nowIso d st)
    = JsMap.set (id (reloaded d)) (length (heap st)) (sessions st)
  ∧ id (reloaded d) = id d.
Proof.
  intros Hid Hcreated. unfold loadOne, reloaded, parseSession.
  rewrite !(str_or_nonempty (id d)), !(str_or_nonempty (createdAt d)) by done.
  cbn [status]. by destruct (decide (status d = running)).
Qed.

Lemma loadFrom_values oracle data i st :
  Inv st → Forall rec_ok data → NoDup (id <$> data) →
  (∀ d, d ∈ data →
        id d ≠ "" ∧ createdAt d ≠ "" ∧ id d ∉ (sessions st).*1) →
  values (loadFrom oracle i data st) = values st ++ (reloaded <$> data).
Proof.
  revert i st. induction data as [|d data IH]; intros i st HI Hok Hnodup Hdata.
  - cbn. by rewrite app_nil_r.
  - apply Forall_cons in Hok as [Hd Hok]. rewrite fmap_cons in Hnodup.
    apply NoDup_cons in Hnodup as [Hfresh Hnodup].
    destruct (Hdata d) as (Hid & Hcreated & Hkey); [by left|].
    cbn [loadFrom].
    destruct (loadOne_reloaded (oracle i).1 (oracle i).2 d st Hid Hcreated)
      as (Hheap & Hsessions & Hidr).
    set (st1 := loadOne _ _ d st) in *.
    assert (values st1 = values st ++ [reloaded d]) as Hvalues1.
    { apply (values_alloc None _ (id d)); [done|by apply get_None|done|].
      by rewrite Hsessions, Hidr. }
    rewrite IH, Hvalues1; [by rewrite <- app_assoc| |done..|].
    + unfold st1, loadOne. by apply Inv_alloc, rec_ok_loaded.
    + intros d' Hd'. destruct (Hdata d') as (? & ? & Hkey'); [by right|].
      split_and!; [done..|].
      rewrite Hsessions, Hidr, set_fresh, fmap_app by by apply get_None.
      intros [|Heq%list_elem_of_singleton]%elem_of_app; [done|].
      cbn in Heq. apply Hfresh. rewrite <- Heq.
      apply list_elem_of_fmap. by exists d'.
Qed.

(** X11. A restart in a reachable state whose file is up to date, when no
    stored session has an empty id or an empty creation time.  The new store
    holds the sessions of the old one in the same order, each as
    [loadSessions] reads it: a running session is in [error] with the restart
    message and without current stage; any other session is as it was, but
    for the analysts of a queued request, which [parseSession] does not read
    from the file, and for an empty market or model, which get the
    default. *)
Theorem restart_reloads_store oracle st :
  reachable st → persisted st →
  (∀ s, s ∈ values st → id s ≠ "" ∧ createdAt s ≠ "") →
  values (restart oracle st) = reloaded <$> values st
  ∧ (∀ s, status s = running →
          status (reloaded s) = error ∧ currentAgent (reloaded s) = ""
          ∧ errorMsg (reloaded s) = "Server restarted, analysis interrupted")
  ∧ (∀ s, s ∈ values st →
          status s ≠ running → market s ≠ "" → model s ≠ "" →
          toSummary (reloaded s) None = toSummary s None
          ∧ reports (reloaded s) = reports s
          ∧ _analysts (reloaded s) = None).
Proof.
  intros HI%reachable_Inv Hdisk Hgood. split_and!.
  - unfold restart, loadSessions. cbn [disk]. rewrite Hdisk.
    assert (Inv (mkState [] [] [] [] (Some (values st)) [])) as HI0.
    { split; simpl; try done; try apply NoDup_nil_2.
      - by intros k r ?%elem_of_nil.
      - intros d [= <-]. by apply (values_rec_ok None). }
    rewrite loadFrom_values; [done|done|by apply (values_rec_ok None)|..].
    + rewrite (values_ids None) by done. apply HI.
    + intros d Hd. destruct (Hgood d Hd). split_and!; [done..|].
      apply not_elem_of_nil.
  - intros s Hrun. unfold reloaded. cbn [status parseSession].
    by rewrite decide_True.
  - intros s [Hid Hcreated]%Hgood Hrun Hmarket Hmodel.
    unfold reloaded. cbn [status parseSession].
    rewrite decide_False by done. unfold parseSession, toSummary. cbn.
    by rewrite !str_or_nonempty by done.
Qed.
Lemma loadFrom_quiet oracle data i st :
  Forall (λ s, status s ≠ running) (heap st) →
  let st' := loadFrom oracle i data st in
  Forall (λ s, status s ≠ running) (heap st')
  ∧ tasks st' = tasks st ∧ runningTasks st' = runningTasks st
  ∧ disk st' = disk st ∧ published st' = published st.
Proof.
  revert i st. induction data as [|d data IH]; intros i st Hidle; [done|].
  cbn [loadFrom].
  destruct (IH (S i) (loadOne (oracle i).1 (oracle i).2 d st))
    as (? & -> & -> & -> & ->); [|done].
  unfold loadOne. cbn [heap upd_sessions upd_heap].
  apply Forall_app. split; [done|]. apply Forall_singleton.
  destruct (decide _); [done|]. done.
Qed.

(** X12. After a restart, whatever the state before it, no session object
    is running, no coroutine exists and none is registered, and nothing has
    been published; the file is the one that was found: the sessions that
    were marked as interrupted are so in memory only. *)
Theorem restart_starts_nothing oracle st :
  let st' := restart oracle st in
  Forall (λ s, status s ≠ running) (heap st')
  ∧ tasks st' = [] ∧ runningTasks st' = [] ∧ published st' = []
  ∧ disk st' = disk st.
Proof.
  unfold restart, loadSessions. cbn [disk].
  destruct (disk st) as [data|] eqn:Hdisk; [|cbn; by split_and!].
  destruct (loadFrom_quiet oracle data 0 (mkState [] [] [] [] (Some data) []))
    as (? & -> & -> & -> & ->); [constructor|done].
Qed.

Lemma clear_loop (ks : list string) st :
  let st' := foldl (λ st k, upd_sessions (JsMap.delete k) st) st ks in
  heap st' = heap st ∧ tasks st' = tasks st
  ∧ runningTasks st' = runningTasks st ∧ disk st' = disk st
  ∧ sessions st' = foldl (λ m k, JsMap.delete k m) (sessions st) ks.
Proof.
  revert st. induction ks as [|k ks IH]; intros st; [done|]. cbn [foldl].
  by destruct (IH (upd_sessions (JsMap.delete k) st))
    as (-> & -> & -> & -> & ->).
Qed.

Lemma foldl_delete_filter {V} (ks : list string) (m : list (string * V)) :
  NoDup m.*1 →
  foldl (λ m k, JsMap.delete k m) m ks = filter (λ kv, kv.1 ∉ ks) m.
Proof.
  revert m. induction ks as [|k ks IH]; intros m Hm; cbn [foldl].
  - symmetry. apply filter_all, Forall_forall. intros kv _.
    apply not_elem_of_nil.
  - rewrite IH by by apply delete_keys_NoDup.
    rewrite delete_filter, list_filter_filter by done.
    apply list_filter_iff. intros [k' v]. cbn. rewrite not_elem_of_cons. tauto.
Qed.

Lemma toDelete_length (h : list Session) (l : list (string * nat)) :
  length (omap (λ kr, s ← h !! kr.2; if terminal s then Some kr.1 else None) l)
  = length (filter (λ s, terminal s) (omap (λ kr, h !! kr.2) l)).
Proof.
  induction l as [|[k r] l IH]; [done|]. cbn [omap list_omap snd fst].
  destruct (h !! r) as [s|]; cbn [mbind option_bind]; [|done].
  rewrite filter_cons. destruct (terminal s) eqn:Ht.
  - cbn. by rewrite IH.
  - cbn. exact IH.
Qed.

(** X13. [clearCompleted] in a reachable state.  The completed and the failed
    sessions are gone from the store and the others are kept, in their order;
    the number returned is the number of sessions removed.  The store is
    written to the file if that number is not zero, and otherwise nothing
    changes.  No object, coroutine or registration is touched, and a second
    call removes nothing. *)
Theorem clearCompleted_removes_finished st :
  reachable st →
  let st' := (clearCompleted st).1 in
  values st' = filter (λ s, ¬ terminal s) (values st)
  ∧ (clearCompleted st).2 = length (filter (λ s, terminal s) (values st))
  ∧ ((clearCompleted st).2 ≠ 0%nat → persisted st')
  ∧ ((clearCompleted st).2 = 0%nat → st' = st)
  ∧ heap st' = heap st ∧ tasks st' = tasks st
  ∧ runningTasks st' = runningTasks st
  ∧ (clearCompleted st').2 = 0%nat.
Proof.
  intros HI%reachable_Inv st'. unfold clearCompleted at 1 2 3.
  unfold clearCompleted in st'. cbn [fst snd] in *.
  destruct (clear_loop (toDelete st) st) as (Hh1 & Ht1 & Hr1 & Hd1 & Hs1).
  set (st1 := foldl _ st (toDelete st)) in *.
  rewrite foldl_delete_filter in Hs1 by apply HI.
  set (st2 := if (0 <? length (toDelete st))%nat then saveSessions st1 else st1)
    in *.
  subst st'.
  assert (heap st2 = heap st1 ∧ sessions st2 = sessions st1
          ∧ tasks st2 = tasks st1 ∧ runningTasks st2 = runningTasks st1)
    as (Hh2 & Hs2 & Ht2 & Hr2) by (unfold st2; by destruct (0 <? _)%nat).
  assert (values st1 = filter (λ s, ¬ terminal s) (values st)) as Hvalues1.
  { unfold values. rewrite Hh1, Hs1. apply omap_filter.
    intros [k r] s Hin Hs. cbn [fst snd] in *. split.
    - intros Hk Hterm. apply Hk. unfold toDelete.
      apply list_elem_of_omap. exists (k, r). split; [done|]. cbn.
      rewrite Hs. cbn. by destruct (terminal s).
    - intros Hterm (kr & Hin' & Hk)%list_elem_of_omap. apply Hterm.
      destruct kr as [k' r']. cbn in Hk.
      destruct (heap st !! r') as [s'|] eqn:Hs'; [|done]. cbn in Hk.
      destruct (terminal s') eqn:Ht'; [|done]. injection Hk as ->.
      pose proof (get_of_elem _ _ _ (inv_keys _ _ HI) Hin) as Hg.
      pose proof (get_of_elem _ _ _ (inv_keys _ _ HI) Hin') as Hg'.
      assert (r' = r) as -> by congruence.
      assert (s' = s) as -> by congruence. by rewrite Ht'. }
  assert (values st2 = values st1) as Hvalues2 by by apply values_ext.
  assert (length (toDelete st)
          = length (filter (λ s, terminal s) (values st)))
    as Hlen by apply toDelete_length.
  split_and!.
  - by rewrite Hvalues2.
  - done.
  - intros Hn. unfold st2.
    destruct (length (toDelete st)) as [|n]; [done|].
    apply saveSessions_persisted.
  - intros Hn. unfold st2, st1.
    destruct (toDelete st); [done|discriminate Hn].
  - congruence.
  - congruence.
  - congruence.
  - unfold clearCompleted. cbn [snd]. unfold toDelete.
    rewrite toDelete_length. fold (values st2).
    rewrite Hvalues2, Hvalues1.
    rewrite list_filter_filter.
    rewrite (filter_none (λ s, terminal s ∧ ¬ terminal s)); [done|].
    intros s. tauto.
Qed.
End Shutdown.

(** ** The end of a coroutine *)

Section Endings.
Context `{Clock}.

Lemma startSessionNow_tasks st sid a i t :
  tasks st !! i = Some t → tasks (startSessionNow sid a st) !! i = Some t.
Proof.
  intros Ht. unfold startSessionNow.
  destruct (getObj st sid) as [[r s]|]; [|done].
  cbn [tasks upd_tasks]. apply lookup_app_l_Some. by state_simpl.
Qed.

Lemma finally_task st tid t :
  tasks st !! tid = Some t →
  tasks (finally tid t st) !! tid = Some (finished t).
Proof.
  intros Ht. unfold finally. cbn [heap upd_tasks upd_runningTasks].
  set (st1 := upd_tasks _ _).
  assert (tasks st1 !! tid = Some (finished t)) as Ht1.
  { unfold st1. cbn. by rewrite list_lookup_alter_eq, Ht. }
  destruct (heap st !! t_session t) as [s|]; [|done].
  destruct (bool_decide _); [|done].
  unfold startNextQueuedSession. destruct (nextQueued _ _); [|done].
  by apply startSessionNow_tasks.
Qed.

(** X14. A cancelled coroutine that receives a chunk, whatever the chunk,
    returns without touching its session: the object is what it was, still
    [running], and the coroutine is gone. *)
Theorem cancelled_coroutine_is_silent st tid t s chunk :
  reachable st →
  tasks st !! tid = Some t → t_alive t = true → t_aborted t = true →
  heap st !! t_session t = Some s →
  let st' := exec (FeedChunk tid chunk) st in
  heap st' !! t_session t = Some s ∧ status s = running
  ∧ tasks st' !! tid = Some (finished t).
Proof.
  intros HI%reachable_Inv Ht Halive Habort Hs. cbn [exec]. unfold resume.
  rewrite Ht, Halive. unfold onChunk. rewrite Habort.
  assert (status s = running) as Hrun
    by by apply (no_task_unless_running st tid t).
  split_and!; [|done|by apply finally_task].
  apply finally_keeps; [by apply InvX_weaken|done|]. by rewrite Hrun.
Qed.

Lemma length_substring0 n s : (String.length (substring0 n s) ≤ n)%nat.
Proof.
  unfold substring0. revert s. induction n as [|n IH]; intros [|c s]; cbn;
    try lia.
  specialize (IH s). lia.
Qed.

Lemma failureMessage_ok e tid :
  is_failure e tid →
  failureMessage e ≠ "" ∧ (String.length (failureMessage e) ≤ 200)%nat.
Proof.
  destruct e; try done; cbn.
  - intros [_ [Hty|[Hty|Hty]]]; rewrite Hty.
    + split; [|apply length_substring0].
      by apply (substring0_nonempty 199), or_else_nonempty.
    + split; [done|]. cbn. lia.
    + split; [done|]. cbn. lia.
  - intros _. destruct message as [m|]; cbn; [|split; [done|lia]].
    destruct (decide (substring0 200 m = "")); [split; [done|cbn; lia]|].
    split; [done|apply length_substring0].
Qed.

Lemma failure_exec st e tid t :
  tasks st !! tid = Some t → t_alive t = true → t_aborted t = false →
  is_failure e tid →
  exec e st = finally tid t (fail t (failureMessage e) st).
Proof.
  intros Ht Halive Habort. destruct e; try done; cbn [is_failure exec].
  - intros [-> Hty]. unfold resume. rewrite Ht, Halive. unfold onChunk.
    rewrite Habort. cbn [failureMessage].
    by destruct Hty as [Hty|[Hty|Hty]]; rewrite Hty.
  - intros ->. unfold resume. by rewrite Ht, Halive.
Qed.

(** X15. A failure of a coroutine that has not been cancelled, in a reachable
    state: an [error], [quota_error] or [timeout_error] chunk, or an
    exception of the feed.  The session becomes an [error] session without
    current stage, and nothing else of it changes; its message is the fixed
    text of the quota or timeout case, or else the first 200 characters of
    the text received, or "Unknown error" when there is none; it is never
    empty and never longer than 200 characters.  The coroutine is gone. *)
Theorem failure_is_recorded st e tid t s :
  reachable st → folding st tid t s → is_failure e tid →
  heap (exec e st) !! t_session t
  = Some (set_currentAgent ""
            (set_errorMsg (failureMessage e) (set_status error s)))
  ∧ failureMessage e ≠ ""
  ∧ (String.length (failureMessage e) ≤ 200)%nat
  ∧ tasks (exec e st) !! tid = Some (finished t).
Proof.
  intros HI%reachable_Inv (Ht & Halive & Habort & Hs) Hfail.
  destruct (failureMessage_ok e tid Hfail) as [Hne Hlen].
  rewrite (failure_exec st e tid t) by done.
  split_and!; [|done..|].
  - apply finally_keeps; [by apply Inv_fail| |done].
    unfold fail. state_simpl. by rewrite list_lookup_alter_eq, Hs.
  - apply finally_task. unfold fail. by state_simpl.
Qed.

(** The loop of [startNextQueuedSession] over [l], from the start. *)
Lemma nextQueued_loop user l :
  match foldl (earlier user) (None, None) l with
  | (Some q, Some tq) =>
      ∃ i, l !! i = Some q ∧ eligible user q tq
           ∧ ∀ j q' t', l !! j = Some q' → eligible user q' t' →
                        (tq ≤ t')%Z ∧ (j < i → (tq < t')%Z)
  | (None, None) => ∀ q' t', q' ∈ l → ¬ eligible user q' t'
  | _ => False
  end.
Proof.
  induction l as [|x l IH] using rev_ind.
  - cbn. by intros q' t' ?%elem_of_nil.
  - rewrite foldl_app. cbn [foldl].
    destruct (foldl (earlier user) (None, None) l) as [[q|] [tq|]];
      try done; unfold earlier; cbn [snd].
    + destruct IH as (i & Hi & Hq & Hmin).
      assert (i < length l) as Hlt by by apply lookup_lt_Some in Hi.
      destruct (decide (status x = queued ∧ userId x = user)) as [[Hsx Hux]|Hx].
      * destruct (Date_getTime (createdAt x)) as [tx|] eqn:Htx.
        -- destruct (tx <? tq)%Z eqn:Hcmp.
           ++ exists (length l). split_and!.
              ** by rewrite list_lookup_middle.
              ** done.
              ** intros j q' t' Hj Hq'.
                 destruct (decide (j < length l)) as [Hjl|Hjl].
                 --- rewrite lookup_app_l in Hj by done.
                     destruct (Hmin j q' t' Hj Hq') as [Hle _]. lia.
                 --- apply lookup_lt_Some in Hj as Hjlt.
                     rewrite length_app in Hjlt. cbn in Hjlt.
                     assert (j = length l) as -> by lia.
                     rewrite list_lookup_middle in Hj by done.
                     injection Hj as <-. destruct Hq' as (_ & _ & Ht').
                     assert (t' = tx) as -> by congruence. lia.
           ++ exists i. split_and!; [by apply lookup_app_l_Some|done|].
              intros j q' t' Hj Hq'.
              destruct (decide (j < length l)) as [Hjl|Hjl].
              ** rewrite lookup_app_l in Hj by done.
                 exact (Hmin j q' t' Hj Hq').
              ** apply lookup_lt_Some in Hj as Hjlt.
                 rewrite length_app in Hjlt. cbn in Hjlt.
                 assert (j = length l) as -> by lia.
                 rewrite list_lookup_middle in Hj by done.
                 injection Hj as <-. destruct Hq' as (_ & _ & Ht').
                 assert (t' = tx) as -> by congruence. lia.
        -- exists i. split_and!; [by apply lookup_app_l_Some|done|].
           intros j q' t' Hj Hq'.
           destruct (decide (j < length l)) as [Hjl|Hjl].
           ++ rewrite lookup_app_l in Hj by done. exact (Hmin j q' t' Hj Hq').
           ++ apply lookup_lt_Some in Hj as Hjlt.
              rewrite length_app in Hjlt. cbn in Hjlt.
              assert (j = length l) as -> by lia.
              rewrite list_lookup_middle in Hj by done.
              injection Hj as <-. destruct Hq' as (_ & _ & Ht'). congruence.
      * exists i. split_and!; [by apply lookup_app_l_Some|done|].
        intros j q' t' Hj Hq'.
        destruct (decide (j < length l)) as [Hjl|Hjl].
        -- rewrite lookup_app_l in Hj by done. exact (Hmin j q' t' Hj Hq').
        -- apply lookup_lt_Some in Hj as Hjlt.
           rewrite length_app in Hjlt. cbn in Hjlt.
           assert (j = length l) as -> by lia.
           rewrite list_lookup_middle in Hj by done.
           injection Hj as <-. destruct Hq' as (? & ? & _). tauto.
    + destruct (decide (status x = queued ∧ userId x = user)) as [[Hsx Hux]|Hx].
      * destruct (Date_getTime (createdAt x)) as [tx|] eqn:Htx.
        -- exists (length l). split_and!.
           ++ by rewrite list_lookup_middle.
           ++ done.
           ++ intros j q' t' Hj Hq'.
              destruct (decide (j < length l)) as [Hjl|Hjl].
              ** rewrite lookup_app_l in Hj by done.
                 exfalso. apply (IH q' t'); [|done].
                 by apply (list_elem_of_lookup_2 _ j).
              ** apply lookup_lt_Some in Hj as Hjlt.
                 rewrite length_app in Hjlt. cbn in Hjlt.
                 assert (j = length l) as -> by lia.
                 rewrite list_lookup_middle in Hj by done.
                 injection Hj as <-. destruct Hq' as (_ & _ & Ht').
                 assert (t' = tx) as -> by congruence. lia.
        -- intros q' t' [Hin|Hin%list_elem_of_singleton]%elem_of_app Hq'.
           ++ by apply (IH q' t').
           ++ subst q'. destruct Hq' as (_ & _ & Ht'). congruence.
      * intros q' t' [Hin|Hin%list_elem_of_singleton]%elem_of_app Hq'.
        -- by apply (IH q' t').
        -- subst q'. destruct Hq' as (? & ? & _). tauto.
Qed.

(** X16. The session that [startNextQueuedSession] picks from the list of
    stored sessions is a queued session of the user whose creation time can
    be read; no such session is older, and those that come before it in the
    list are strictly newer: among the oldest, the first in the order of the
    store is picked. *)
Theorem nextQueued_first_of_oldest user l q :
  nextQueued user l = Some q →
  ∃ i tq, l !! i = Some q ∧ eligible user q tq
          ∧ ∀ j q' t', l !! j = Some q' → eligible user q' t' →
                       (tq ≤ t')%Z ∧ (j < i → (tq < t')%Z).
Proof.
  unfold nextQueued. intros Hq. pose proof (nextQueued_loop user l) as Hloop.
  destruct (foldl (earlier user) (None, None) l) as [[q0|] [tq|]];
    try done.
  cbn in Hq. injection Hq as ->. destruct Hloop as (i & ?). by exists i, tq.
Qed.
End Endings.

(** ** The stream route and the order of the stages *)

Section StreamRoute.
Context `{Clock}.

(** X17. GET /api/sessions/:id/stream for a stored session.  The requester
    is what the query says: with [isAdmin=true], or without [username], the
    session is sent whoever owns it; otherwise it is refused exactly when it
    has an owner who is not the [username] of the query.  After the snapshot
    the route subscribes, unless the session is completed or failed. *)
Theorem stream_route_trusts_the_query st sid r s usernameQuery isAdminQuery :
  getObj st sid = Some (r, s) →
  let answer := streamRoute usernameQuery isAdminQuery sid st in
  (answer = StreamNotFound ∨ answer = StreamSnapshot s (negb (terminal s)))
  ∧ (answer = StreamNotFound ↔
     isAdminQuery ≠ Some "true" ∧ truthy usernameQuery = true
     ∧ userId s ≠ "" ∧ Some (userId s) ≠ usernameQuery).
Proof.
  intros Hobj. cbn zeta. unfold streamRoute, getSession. rewrite Hobj.
  assert (truthy (Some (or_else usernameQuery "")) = truthy usernameQuery)
    as Htruthy.
  { destruct usernameQuery as [u|]; [|done]. cbn.
    by destruct (decide (u = "")) as [->|]. }
  assert (truthy usernameQuery = true →
          Some (or_else usernameQuery "") = usernameQuery) as Hsame.
  { destruct usernameQuery as [u|]; [|done]. cbn.
    destruct (decide (u = "")) as [->|]; [|done].
    by rewrite bool_decide_eq_false_2 by auto. }
  rewrite Htruthy.
  destruct (bool_decide (isAdminQuery = Some "true")) eqn:Hadmin.
  - apply bool_decide_eq_true in Hadmin. split; [by right|].
    split; [done|]. by intros [? _].
  - apply bool_decide_eq_false in Hadmin.
    destruct (truthy usernameQuery) eqn:Hname; cbn [andb].
    + rewrite Hsame by done.
      destruct (bool_decide (userId s ≠ "")) eqn:Howner; cbn [andb].
      * apply bool_decide_eq_true in Howner.
        destruct (bool_decide (Some (userId s) ≠ usernameQuery)) eqn:Hother.
        -- apply bool_decide_eq_true in Hother. split; [by left|]. done.
        -- apply bool_decide_eq_false in Hother. split; [by right|].
           split; [done|]. intros (_ & _ & _ & ?). done.
      * apply bool_decide_eq_false in Howner. split; [by right|].
        split; [done|]. intros (_ & _ & ? & _). done.
    + split; [by right|]. split; [done|]. by intros (_ & ? & _).
Qed.
End StreamRoute.

(** X18. [getNextAgent] follows [AGENT_ORDER]: a name has a next stage
    exactly when it is a stage other than the last, and the next stage is
    then the one after it in the order; the last stage and a name that is no
    stage get the empty string. *)
Theorem next_agent_follows_order (a b : string) :
  b ≠ "" →
  getNextAgent a = b ↔
  ∃ i, AGENT_ORDER !! i = Some a ∧ AGENT_ORDER !! S i = Some b.
Proof.
  intros Hb. split.
  - intros Hnext. destruct (decide (a ∈ AGENT_ORDER)) as [Hin|Hout].
    + apply list_elem_of_lookup_1 in Hin as [i Hi]. exists i. split; [done|].
      rewrite (getNextAgent_order i a Hi) in Hnext.
      destruct (AGENT_ORDER !! S i) as [b'|]; cbn in Hnext; congruence.
    + rewrite getNextAgent_unknown in Hnext by done. congruence.
  - intros (i & Hi & Hsi). rewrite (getNextAgent_order i a Hi). by rewrite Hsi.
Qed.

(** ** The subscriptions *)

Section MapMore.
Context {V : Type}.
Implicit Types m : list (string * V).

Lemma get_elem m k v : JsMap.get k m = Some v → (k, v) ∈ m.
Proof.
  induction m as [|[k' v'] m IH]; [done|]. cbn.
  destruct (decide (k = k')) as [->|]; [intros [= ->]; by left|].
  intros Hm. right. by apply IH.
Qed.

Lemma get_set_ne m k k' v :
  k' ≠ k → JsMap.get k' (JsMap.set k v m) = JsMap.get k' m.
Proof.
  intros Hne. induction m as [|[k0 v0] m IH]; cbn.
  - by rewrite decide_False.
  - destruct (decide (k = k0)) as [->|]; cbn.
    + by rewrite !decide_False.
    + destruct (decide (k' = k0)); [done|apply IH].
Qed.

Lemma set_same m k v : JsMap.get k m = Some v → JsMap.set k v m = m.
Proof.
  induction m as [|[k0 v0] m IH]; [done|]. cbn.
  destruct (decide (k = k0)) as [->|]; [by intros [= ->]|].
  intros Hm. by rewrite IH.
Qed.

Lemma set_set m k v v' : JsMap.set k v (JsMap.set k v' m) = JsMap.set k v m.
Proof.
  induction m as [|[k0 v0] m IH]; cbn.
  - by rewrite decide_True.
  - destruct (decide (k = k0)) as [->|]; cbn.
    + by rewrite decide_True.
    + by rewrite decide_False, IH.
Qed.

Lemma set_keys m k v : is_Some (JsMap.get k m) → (JsMap.set k v m).*1 = m.*1.
Proof.
  induction m as [|[k0 v0] m IH]; [by intros [? ?]|]. cbn.
  destruct (decide (k = k0)) as [->|]; [done|].
  intros Hm. cbn. by rewrite IH.
Qed.

Lemma get_delete m k : NoDup m.*1 → JsMap.get k (JsMap.delete k m) = None.
Proof.
  induction m as [|[k0 v0] m IH]; [done|]. rewrite fmap_cons.
  intros [Hk0 Hm]%NoDup_cons. cbn.
  destruct (decide (k = k0)) as [->|Hne].
  - destruct (JsMap.get k0 m) as [v|] eqn:Hv; [|done].
    apply get_elem in Hv. destruct Hk0. apply list_elem_of_fmap.
    by exists (k0, v).
  - cbn. rewrite decide_False by done. by apply IH.
Qed.

Lemma get_delete_ne m k k' :
  k' ≠ k → JsMap.get k' (JsMap.delete k m) = JsMap.get k' m.
Proof.
  intros Hne. induction m as [|[k0 v0] m IH]; [done|]. cbn.
  destruct (decide (k = k0)) as [->|]; cbn.
  - by rewrite decide_False.
  - destruct (decide (k' = k0)); [done|apply IH].
Qed.
End MapMore.

Section Subscriptions.
Import SSEManager.

Lemma HubOk_shrinks hub hub' : HubOk hub → shrinks hub hub' → HubOk hub'.
Proof.
  intros Hok (Hlen & Hkeys & Hsub). split.
  - done.
  - intros k set' Hin. destruct (Hsub k set' Hin) as (set & Hset & Hs).
    eapply sublist_NoDup; [by eapply ok_set|done].
  - intros k set' c Hin Hc. destruct (Hsub k set' Hin) as (set & Hset & Hs).
    rewrite Hlen. eapply ok_addr; [done..|]. by eapply elem_of_sublist.
  - intros k k' set1 set2 c Hin1 Hin2 Hc1 Hc2.
    destruct (Hsub k set1 Hin1) as (s1 & Hs1 & Hsub1).
    destruct (Hsub k' set2 Hin2) as (s2 & Hs2 & Hsub2).
    apply (ok_one hub Hok k k' s1 s2 c Hs1 Hs2).
    + by apply (elem_of_sublist set1).
    + by apply (elem_of_sublist set2).
Qed.

Lemma shrinks_refl hub : HubOk hub → shrinks hub hub.
Proof.
  intros Hok. split_and!; [done|apply Hok|]. intros k set Hin. by exists set.
Qed.

Lemma shrinks_controllers hub cs :
  HubOk hub → length cs = length (controllers hub) →
  shrinks hub (mkHub cs (subscribers hub)).
Proof.
  intros Hok Hlen. split_and!; [done|apply Hok|].
  intros k set Hin. by exists set.
Qed.

Lemma shrinks_delete hub cs k :
  HubOk hub → length cs = length (controllers hub) →
  shrinks hub (mkHub cs (JsMap.delete k (subscribers hub))).
Proof.
  intros Hok Hlen. split_and!; [done|apply delete_keys_NoDup, Hok|].
  intros k' set Hin%delete_elem_of. by exists set.
Qed.

Lemma shrinks_remove hub cs k set set' :
  HubOk hub → length cs = length (controllers hub) →
  JsMap.get k (subscribers hub) = Some set → set' `sublist_of` set →
  shrinks hub (mkHub cs (JsMap.set k set' (subscribers hub))).
Proof.
  intros Hok Hlen Hget Hsub. split_and!; [done|apply set_keys_NoDup, Hok|].
  intros k' s' [[= -> ->]|Hin]%set_elem_of.
  - exists set. split; [by apply get_elem|done].
  - by exists s'.
Qed.

Lemma filter_all_true {A} (P : A → Prop) `{∀ x, Decision (P x)} (l : list A) :
  (∀ x, x ∈ l → P x) → filter P l = l.
Proof.
  induction l as [|x l IH]; intros Hl; [done|].
  rewrite filter_cons_True by (apply Hl; by left).
  rewrite IH; [done|]. intros y Hy. apply Hl. by right.
Qed.

Lemma filter_ext_in {A} (P Q : A → Prop) `{∀ x, Decision (P x)}
    `{∀ x, Decision (Q x)} (l : list A) :
  (∀ x, x ∈ l → P x ↔ Q x) → filter P l = filter Q l.
Proof.
  induction l as [|x l IH]; intros Hl; [done|].
  rewrite !filter_cons.
  assert (filter P l = filter Q l) as ->
    by (apply IH; intros y Hy; apply Hl; by right).
  destruct (decide (P x)) as [HP|HP].
  - by rewrite decide_True by (apply Hl; [by left|done]).
  - rewrite decide_False; [done|]. intros HQ. apply HP, Hl; [by left|done].
Qed.

Lemma remove_sublist c set : remove c set `sublist_of` set.
Proof. apply sublist_filter. Qed.

Lemma HubOk_empty : HubOk empty.
Proof.
  split; cbn.
  - apply NoDup_nil_2.
  - intros k set Hin. by apply elem_of_nil in Hin.
  - intros k set c Hin. by apply elem_of_nil in Hin.
  - intros k k' set set' c Hin. by apply elem_of_nil in Hin.
Qed.

Lemma HubOk_cancel hub sid c : HubOk hub → HubOk (cancel sid c hub).
Proof.
  intros Hok. apply (HubOk_shrinks hub); [done|]. unfold cancel. cbn.
  destruct (JsMap.get sid (subscribers hub)) as [set|].
  - destruct (length set =? 0)%nat.
    + apply shrinks_delete; [done|]. by rewrite length_alter.
    + apply shrinks_controllers; [done|]. by rewrite length_alter.
  - apply shrinks_controllers; [done|]. by rewrite length_alter.
Qed.

Lemma HubOk_unsubscribe hub sid c : HubOk hub → HubOk (unsubscribe sid c hub).
Proof.
  intros Hok. apply (HubOk_shrinks hub); [done|]. unfold unsubscribe.
  destruct (JsMap.get sid (subscribers hub)) as [set|] eqn:Hget;
    [|by apply shrinks_refl].
  destruct (length (remove c set) =? 0)%nat.
  - by apply shrinks_delete.
  - eapply shrinks_remove; [done..|apply remove_sublist].
Qed.

Lemma HubOk_send hub sid msg c : HubOk hub → HubOk (send sid msg hub c).
Proof.
  intros Hok. apply (HubOk_shrinks hub); [done|]. unfold send.
  destruct (controllers hub !! c ≫= enqueue msg) as [ctl|].
  - apply shrinks_controllers; [done|]. by rewrite length_insert.
  - destruct (JsMap.get sid (subscribers hub)) as [set|] eqn:Hget;
      [|by apply shrinks_refl].
    eapply shrinks_remove; [done..|apply remove_sublist].
Qed.

Lemma HubOk_foldl {A} (f : Hub → A → Hub) (l : list A) hub :
  (∀ hub a, HubOk hub → HubOk (f hub a)) → HubOk hub → HubOk (foldl f hub l).
Proof.
  intros Hf. revert hub. induction l as [|a l IH]; intros hub Hok; [done|].
  cbn. by apply IH, Hf.
Qed.

Lemma HubOk_sendAll hub sid msg : HubOk hub → HubOk (sendAll sid msg hub).
Proof.
  intros Hok. unfold sendAll.
  destruct (JsMap.get sid (subscribers hub)) as [set|]; [|done].
  destruct (length set =? 0)%nat; [done|].
  apply HubOk_foldl; [|done]. intros. by apply HubOk_send.
Qed.

Lemma HubOk_closeSession hub sid : HubOk hub → HubOk (closeSession sid hub).
Proof.
  intros Hok. unfold closeSession.
  destruct (JsMap.get sid (subscribers hub)) as [set|]; [|done].
  set (hub1 := foldl _ hub set).
  assert (HubOk hub1) as Hok1.
  { apply HubOk_foldl; [|done]. intros h c Hh.
    destruct (controllers h !! c ≫= close) as [ctl|]; [|done].
    apply (HubOk_shrinks h); [done|]. apply shrinks_controllers; [done|].
    by rewrite length_insert. }
  apply (HubOk_shrinks hub1); [done|]. by apply shrinks_delete.
Qed.

Lemma HubOk_subscribe hub sid : HubOk hub → HubOk (subscribe sid hub).1.
Proof.
  intros Hok. unfold subscribe. cbn [fst].
  set (c := length (controllers hub)).
  set (subs1 := if JsMap.has sid (subscribers hub) then subscribers hub
                else JsMap.set sid [] (subscribers hub)).
  assert (NoDup subs1.*1) as Hkeys1.
  { unfold subs1. destruct (JsMap.has _ _); [apply Hok|].
    apply set_keys_NoDup, Hok. }
  assert (∀ k set, (k, set) ∈ subs1 →
            (k, set) ∈ subscribers hub ∨ set = []) as Hsubs1.
  { unfold subs1. intros k set. destruct (JsMap.has _ _); [by left|].
    intros [[= -> ->]|Hin]%set_elem_of; [by right|by left]. }
  assert (∀ k set c', (k, set) ∈ subs1 → c' ∈ set →
            (k, set) ∈ subscribers hub ∧ c' < c) as Hold.
  { intros k set c' Hin Hc'. destruct (Hsubs1 k set Hin) as [Hin'| ->].
    - split; [done|]. by eapply ok_addr.
    - by apply elem_of_nil in Hc'. }
  destruct (JsMap.get sid subs1) as [set|] eqn:Hget.
  - assert ((sid, set) ∈ subs1) as Hset by by apply get_elem.
    assert (c ∉ set) as Hfresh.
    { intros Hc. destruct (Hold sid set c Hset Hc). lia. }
    assert (add c set = set ++ [c]) as Hadd
      by (unfold add; by rewrite decide_False).
    assert (∀ k s, (k, s) ∈ JsMap.set sid (add c set) subs1 →
              (k = sid ∧ s = set ++ [c]) ∨ ((k, s) ∈ subs1 ∧ k ≠ sid)) as Hnew.
    { intros k s Hin.
      pose proof (set_keys_NoDup subs1 sid (add c set) Hkeys1) as Hnd.
      destruct (decide (k = sid)) as [->|Hne].
      - left. split; [done|].
        pose proof (get_of_elem _ _ _ Hnd Hin) as Hg.
        rewrite get_set in Hg. congruence.
      - right. split; [|done].
        apply set_elem_of in Hin as [[= -> ->]|Hin]; done. }
    split; cbn [controllers subscribers].
    + by apply set_keys_NoDup.
    + intros k s [[-> ->]|[Hin _]]%Hnew.
      * apply NoDup_app. split_and!.
        -- destruct (Hsubs1 sid set Hset) as [Hin| ->]; [|apply NoDup_nil_2].
           by eapply ok_set.
        -- intros x Hx Hx'. apply list_elem_of_singleton in Hx' as ->. done.
        -- apply NoDup_singleton.
      * destruct (Hsubs1 k s Hin) as [Hin'| ->]; [|apply NoDup_nil_2].
        by eapply ok_set.
    + intros k s c' [[-> ->]|[Hin _]]%Hnew Hc'; rewrite length_app; cbn.
      * apply elem_of_app in Hc' as [Hc'|Hc'];
           [|apply list_elem_of_singleton in Hc' as ->].
        -- destruct (Hold sid set c' Hset Hc'). fold c. lia.
        -- fold c. lia.
      * destruct (Hold k s c' Hin Hc'). fold c. lia.
    + intros k k' s s' c' [[-> ->]|[Hin Hk]]%Hnew [[-> ->]|[Hin' Hk']]%Hnew
        Hc Hc'; [done|..].
      * apply elem_of_app in Hc as [Hc|Hc];
           [|apply list_elem_of_singleton in Hc as ->].
        -- destruct (Hold sid set c' Hset Hc) as [Hs _].
           destruct (Hold k' s' c' Hin' Hc') as [Hs' _].
           by apply (ok_one hub Hok sid k' set s' c').
        -- destruct (Hold k' s' c Hin' Hc'). lia.
      * apply elem_of_app in Hc' as [Hc'|Hc'];
           [|apply list_elem_of_singleton in Hc' as ->].
        -- destruct (Hold sid set c' Hset Hc') as [Hs _].
           destruct (Hold k s c' Hin Hc) as [Hs' _].
           by apply (ok_one hub Hok k sid s set c').
        -- destruct (Hold k s c Hin Hc). lia.
      * destruct (Hold k s c' Hin Hc) as [Hs _].
        destruct (Hold k' s' c' Hin' Hc') as [Hs' _].
        by apply (ok_one hub Hok k k' s s' c').
  - exfalso. unfold subs1 in Hget. unfold JsMap.has in Hget.
    destruct (JsMap.get sid (subscribers hub)) eqn:Hg; [congruence|].
    by rewrite get_set in Hget.
Qed.

(** X19. Every state that the manager reaches through its methods and
    through cancellations of its streams is well formed: no session has two
    sets, each set lists a controller once, every member of a set is a
    controller that was created, and no controller is in the sets of two
    sessions. *)
Theorem subscriptions_well_formed hub : SSEManager.reachable hub → HubOk hub.
Proof.
  induction 1 as [|c hub _ IH]; [apply HubOk_empty|].
  destruct c; cbn [call].
  - by apply HubOk_subscribe.
  - by apply HubOk_cancel.
  - by apply HubOk_unsubscribe.
  - by apply HubOk_sendAll.
  - by apply HubOk_sendAll.
  - by apply HubOk_closeSession.
Qed.

Lemma sent_sendAll sid msg hub : sent sid msg hub = sendAll sid msg hub.
Proof. by destruct msg. Qed.

Lemma insert_alter {A} (f : A → A) (l : list A) (i : nat) (x : A) :
  l !! i = Some x → <[i := f x]> l = alter f i l.
Proof.
  intros Hx. apply list_eq. intros j. destruct (decide (i = j)) as [<-|Hne].
  - rewrite list_lookup_insert_eq by by eapply lookup_lt_Some.
    by rewrite list_lookup_alter_eq, Hx.
  - by rewrite list_lookup_insert_ne, list_lookup_alter_ne.
Qed.

Lemma send_effect hub sid msg c :
  controllers (send sid msg hub c) = alter (offered msg) c (controllers hub)
  ∧ subscribers (send sid msg hub c)
    = if accepting hub c then subscribers hub
      else match JsMap.get sid (subscribers hub) with
           | Some set => JsMap.set sid (remove c set) (subscribers hub)
           | None => subscribers hub
           end.
Proof.
  unfold send, accepting.
  destruct (controllers hub !! c) as [ctl|] eqn:Hctl; cbn.
  - unfold enqueue. destruct (c_open ctl) eqn:Hopen.
    + cbn. split; [|done].
      rewrite <- (insert_alter (offered msg) _ _ ctl) by done.
      unfold offered. by rewrite Hopen.
    + assert (alter (offered msg) c (controllers hub) = controllers hub) as ->.
      { apply alter_fixed. intros x Hx. unfold offered.
        assert (x = ctl) as -> by congruence. by rewrite Hopen. }
      by destruct (JsMap.get sid (subscribers hub)).
  - assert (alter (offered msg) c (controllers hub) = controllers hub) as ->.
    { apply alter_fixed. intros x Hx. congruence. }
    by destruct (JsMap.get sid (subscribers hub)).
Qed.

Lemma accepting_offered hub hub' msg c c' :
  controllers hub' = alter (offered msg) c (controllers hub) →
  accepting hub' c' = accepting hub c'.
Proof.
  intros Hc. unfold accepting. rewrite Hc.
  destruct (decide (c' = c)) as [->|Hne].
  - rewrite list_lookup_alter_eq.
    destruct (controllers hub !! c) as [ctl|]; [|done].
    cbn. unfold offered. by destruct (c_open ctl) eqn:Ho.
  - by rewrite list_lookup_alter_ne.
Qed.

Lemma send_fold sid msg l hub :
  NoDup l →
  let hub' := foldl (send sid msg) hub l in
  controllers hub'
  = foldl (λ cs c, alter (offered msg) c cs) (controllers hub) l
  ∧ subscribers hub'
    = match JsMap.get sid (subscribers hub) with
      | Some set =>
          JsMap.set sid (filter (λ c, c ∉ l ∨ accepting hub c = true) set)
            (subscribers hub)
      | None => subscribers hub
      end.
Proof.
  revert hub. induction l as [|c l IH]; intros hub Hnodup.
  - cbn. split; [done|].
    destruct (JsMap.get sid (subscribers hub)) as [set|] eqn:Hget; [|done].
    rewrite filter_all_true; [by rewrite set_same|].
    intros c _. left. apply not_elem_of_nil.
  - apply NoDup_cons in Hnodup as [Hc Hnodup]. cbn [foldl].
    destruct (send_effect hub sid msg c) as [Hctl Hsubs].
    destruct (IH (send sid msg hub c) Hnodup) as [-> ->].
    rewrite Hctl. split; [done|]. rewrite Hsubs.
    assert (∀ c', accepting (send sid msg hub c) c' = accepting hub c') as Hacc
      by (intros c'; by apply (accepting_offered _ _ msg c)).
    destruct (JsMap.get sid (subscribers hub)) as [set|] eqn:Hget.
    + destruct (accepting hub c) eqn:Hopen.
      * rewrite Hget. f_equal. apply list_filter_iff. intros c'.
        rewrite Hacc, not_elem_of_cons.
        destruct (decide (c' = c)) as [->|]; [tauto|tauto].
      * rewrite get_set, set_set. f_equal. unfold remove.
        rewrite list_filter_filter. apply list_filter_iff. intros c'.
        rewrite Hacc, not_elem_of_cons.
        destruct (decide (c' = c)) as [->|]; [|tauto].
        rewrite Hopen. split; [tauto|]. intros [[]|]; [done|discriminate].
    + destruct (accepting hub c); by rewrite Hget.
Qed.

Lemma lookup_foldl_alter_NoDup {A} (f : A → A) (l : list nat) (h : list A)
    (r : nat) :
  NoDup l →
  foldl (λ h c, alter f c h) h l !! r
  = if decide (r ∈ l) then f <$> h !! r else h !! r.
Proof.
  revert h. induction l as [|c l IH]; intros h Hnodup; cbn [foldl].
  - rewrite decide_False; [done|]. apply not_elem_of_nil.
  - apply NoDup_cons in Hnodup as [Hc Hnodup]. rewrite IH by done.
    destruct (decide (r = c)) as [->|Hne].
    + rewrite list_lookup_alter_eq.
      destruct (decide (c ∈ l)); [done|].
      destruct (decide (c ∈ c :: l)) as [_|[]]; [done|by left].
    + rewrite list_lookup_alter_ne by done.
      destruct (decide (r ∈ l)) as [Hin|Hout].
      * destruct (decide (r ∈ c :: l)) as [_|[]]; [done|by right].
      * rewrite decide_False; [done|]. by intros [|]%elem_of_cons.
Qed.

Lemma sendAll_effect hub sid msg :
  HubOk hub →
  let hub' := sendAll sid msg hub in
  (∀ c, controllers hub' !! c
        = if decide (subscribed hub sid c)
          then offered msg <$> controllers hub !! c
          else controllers hub !! c)
  ∧ (∀ set, JsMap.get sid (subscribers hub) = Some set →
            JsMap.get sid (subscribers hub')
            = Some (filter (λ c, accepting hub c = true) set))
  ∧ (∀ k, k ≠ sid →
          JsMap.get k (subscribers hub') = JsMap.get k (subscribers hub)).
Proof.
  intros Hok. unfold sendAll.
  destruct (JsMap.get sid (subscribers hub)) as [set|] eqn:Hget; cbn.
  - assert (NoDup set) as Hnodup
      by (eapply ok_set; [done|by apply get_elem]).
    assert (∀ c, subscribed hub sid c ↔ c ∈ set) as Hsub
      by (intros c; unfold subscribed; by rewrite Hget).
    destruct (length set =? 0)%nat eqn:Hlen.
    + apply Nat.eqb_eq in Hlen. destruct set; [|done]. split_and!.
      * intros c. rewrite decide_False; [done|]. rewrite Hsub.
        apply not_elem_of_nil.
      * intros set' [= <-]. by rewrite Hget.
      * done.
    + destruct (send_fold sid msg set hub Hnodup) as [Hctl Hsubs].
      rewrite Hget in Hsubs. split_and!.
      * intros c. rewrite Hctl, lookup_foldl_alter_NoDup by done.
        destruct (decide (c ∈ set)), (decide (subscribed hub sid c));
          rewrite ?Hsub in *; done.
      * intros set' [= <-]. rewrite Hsubs, get_set. f_equal.
        apply filter_ext_in.
        intros c Hc. split; [|tauto]. intros [Hout|]; done.
      * intros k Hk. rewrite Hsubs. by apply get_set_ne.
  - split_and!; [|done..]. intros c. rewrite decide_False; [done|].
    unfold subscribed. rewrite Hget. apply not_elem_of_nil.
Qed.

Lemma queue_offered hub hub' msg c :
  controllers hub' !! c = offered msg <$> controllers hub !! c →
  queue hub' c = if accepting hub c then queue hub c ++ [msg] else queue hub c.
Proof.
  unfold queue, accepting. intros ->.
  destruct (controllers hub !! c) as [ctl|]; [|done]. cbn.
  unfold offered. by destruct (c_open ctl).
Qed.

(** X20. A message sent to a session by [publish] or [sendHeartbeat], in a
    well-formed state of the manager.  It is added at the end of the queue of
    every controller that is subscribed to the session and accepts messages,
    and no other queue changes.  The controllers that do not accept messages
    any more are taken out of the set of the session, the others stay in
    their order; no stream is closed or reopened, and the sets of the other
    sessions are as they were. *)
Theorem message_reaches_open_subscribers hub sid msg :
  HubOk hub →
  let hub' := sent sid msg hub in
  (∀ c, queue hub' c
        = if decide (subscribed hub sid c ∧ accepting hub c = true)
          then queue hub c ++ [msg] else queue hub c)
  ∧ (∀ c, accepting hub' c = accepting hub c)
  ∧ default [] (JsMap.get sid (subscribers hub'))
    = filter (λ c, accepting hub c = true)
        (default [] (JsMap.get sid (subscribers hub)))
  ∧ (∀ k, k ≠ sid →
          JsMap.get k (subscribers hub') = JsMap.get k (subscribers hub)).
Proof.
  intros Hok. rewrite sent_sendAll.
  destruct (sendAll_effect hub sid msg Hok) as (Hctl & Hset & Hother).
  split_and!.
  - intros c. specialize (Hctl c).
    destruct (decide (subscribed hub sid c)) as [Hsub|Hsub].
    + rewrite (queue_offered hub _ msg c Hctl).
      destruct (accepting hub c).
      * by rewrite decide_True.
      * rewrite decide_False; [done|]. by intros [_ ?].
    + rewrite decide_False by tauto. unfold queue. by rewrite Hctl.
  - intros c. unfold accepting. rewrite Hctl.
    destruct (decide _); [|done].
    destruct (controllers hub !! c) as [ctl|]; [|done]. cbn.
    unfold offered. by destruct (c_open ctl) eqn:Ho.
  - destruct (JsMap.get sid (subscribers hub)) as [set|] eqn:Hget.
    + by rewrite (Hset set).
    + unfold sendAll. by rewrite Hget, Hget.
  - done.
Qed.
Lemma publish_subscribed hub sid sid' data c :
  HubOk hub → subscribed hub sid c → accepting hub c = true →
  let hub' := publish sid' data hub in
  subscribed hub' sid c ∧ accepting hub' c = true
  ∧ queue hub' c
    = if decide (sid' = sid) then queue hub c ++ [Data data] else queue hub c.
Proof.
  intros Hok Hsub Hacc. unfold publish.
  assert (subscribed hub sid' c ↔ sid' = sid) as Hwhich.
  { split; [|by intros ->]. unfold subscribed in *.
    destruct (JsMap.get sid' (subscribers hub)) as [set'|] eqn:Hget';
      [|by intros ?%elem_of_nil].
    destruct (JsMap.get sid (subscribers hub)) as [set|] eqn:Hget;
      [|by apply elem_of_nil in Hsub].
    cbn in *. intros Hc.
    eapply (ok_one hub Hok sid' sid set' set c); try done; by apply get_elem. }
  destruct (sendAll_effect hub sid' (Data data) Hok) as (Hctl & Hset & Hother).
  split_and!.
  - unfold subscribed in Hsub |- *. destruct (decide (sid' = sid)) as [->|Hne].
    + destruct (JsMap.get sid (subscribers hub)) as [set|] eqn:Hget;
        [|by apply elem_of_nil in Hsub].
      rewrite (Hset set) by done. cbn in *. by apply list_elem_of_filter.
    + by rewrite Hother.
  - unfold accepting in Hacc |- *. rewrite Hctl.
    destruct (decide _); [|done].
    destruct (controllers hub !! c) as [ctl|]; [|done]. cbn in *.
    unfold offered. by rewrite Hacc.
  - specialize (Hctl c). destruct (decide (sid' = sid)) as [->|Hne].
    + rewrite decide_True in Hctl by done.
      by rewrite (queue_offered hub _ (Data data) c Hctl), Hacc.
    + rewrite decide_False in Hctl by by rewrite Hwhich.
      unfold queue. by rewrite Hctl.
Qed.

(** X21. In a well-formed state, a controller that is subscribed to a
    session and accepts messages is given, in the order of the calls, the
    data of every call of [publish] for its session and of none for another
    session; it is still subscribed, and accepting, afterwards. *)
Theorem subscriber_receives_in_order hub sid c log :
  HubOk hub → subscribed hub sid c → accepting hub c = true →
  let hub' := deliver log hub in
  queue hub' c
  = queue hub c ++ (Data <$> (filter (λ entry, entry.1 = sid) log).*2)
  ∧ subscribed hub' sid c ∧ accepting hub' c = true.
Proof.
  intros Hok. revert hub Hok.
  induction log as [|[sid' data] log IH]; intros hub Hok Hsub Hacc.
  - cbn. by rewrite app_nil_r.
  - cbn [deliver foldl fst snd].
    destruct (publish_subscribed hub sid sid' data c Hok Hsub Hacc)
      as (Hsub' & Hacc' & Hqueue).
    destruct (IH (publish sid' data hub)) as (Hq & ? & ?);
      [by apply HubOk_sendAll|done..|].
    unfold deliver in Hq. split_and!; [|done..].
    rewrite Hq, Hqueue, filter_cons. cbn [fst].
    destruct (decide (sid' = sid)) as [->|Hne].
    + by rewrite <- app_assoc.
    + done.
Qed.

(** X22. [subscribe] in a well-formed state adds one fresh controller, open and
    with an empty queue, to the set of the session, so that the count of the
    session grows by one.  An [unsubscribe] of that controller brings the
    count back to what it was; the session has no set left if it had no
    subscriber before, and the sets of the other sessions are untouched. *)
Theorem subscribe_then_unsubscribe hub sid :
  HubOk hub →
  let hub1 := (subscribe sid hub).1 in
  let c := (subscribe sid hub).2 in
  let hub2 := unsubscribe sid c hub1 in
  getSubscriberCount sid hub1 = S (getSubscriberCount sid hub)
  ∧ subscribed hub1 sid c ∧ ¬ subscribed hub sid c
  ∧ accepting hub1 c = true ∧ queue hub1 c = []
  ∧ getSubscriberCount sid hub2 = getSubscriberCount sid hub
  ∧ (getSubscriberCount sid hub = 0%nat →
       JsMap.get sid (subscribers hub2) = None)
  ∧ (∀ k, k ≠ sid →
          JsMap.get k (subscribers hub2) = JsMap.get k (subscribers hub)).
Proof.
  intros Hok.
  pose proof (HubOk_subscribe hub sid Hok) as Hok1.
  unfold subscribe in *. cbn [fst snd] in *.
  set (c := length (controllers hub)) in *.
  set (subs1 := if JsMap.has sid (subscribers hub) then subscribers hub
                else JsMap.set sid [] (subscribers hub)) in *.
  set (set0 := default [] (JsMap.get sid (subscribers hub))).
  assert (JsMap.get sid subs1 = Some set0
          ∧ ∀ k, k ≠ sid → JsMap.get k subs1 = JsMap.get k (subscribers hub))
    as [Hget1 Hother1].
  { unfold subs1, set0, JsMap.has.
    destruct (JsMap.get sid (subscribers hub)) as [set|] eqn:Hget; [done|].
    split; [apply get_set|]. intros k Hk. by apply get_set_ne. }
  rewrite Hget1 in *.
  assert (c ∉ set0) as Hfresh.
  { unfold set0. intros Hc.
    destruct (JsMap.get sid (subscribers hub)) as [set|] eqn:Hget;
      [|by apply elem_of_nil in Hc].
    pose proof (ok_addr hub Hok sid set c (get_elem _ _ _ Hget) Hc). lia. }
  assert (add c set0 = set0 ++ [c]) as Hadd
    by (unfold add; by rewrite decide_False).
  assert (remove c (set0 ++ [c]) = set0) as Hremove.
  { unfold remove. rewrite filter_app, filter_cons_False, filter_nil, app_nil_r
      by (intros Hc; by apply Hc).
    apply filter_all_true. intros x Hx ->. done. }
  assert (getSubscriberCount sid hub = length set0) as Hcount.
  { unfold getSubscriberCount, set0.
    by destruct (JsMap.get sid (subscribers hub)). }
  rewrite Hcount.
  pose proof (ok_keys _ Hok1) as Hkeys1. cbn [subscribers] in Hkeys1.
  rewrite Hadd in Hkeys1.
  unfold getSubscriberCount, subscribed, accepting, queue, unsubscribe.
  cbn [subscribers controllers]. rewrite !get_set, Hadd, Hremove.
  cbn [default]. rewrite list_lookup_middle by done. cbn.
  split_and!.
  - rewrite length_app. cbn. lia.
  - apply elem_of_app. right. by left.
  - done.
  - done.
  - done.
  - destruct (length set0 =? 0)%nat eqn:Hlen; cbn.
    + rewrite get_delete by done. by apply Nat.eqb_eq in Hlen.
    + by rewrite get_set.
  - intros Hlen. rewrite Hlen. cbn. by apply get_delete.
  - intros k Hk. destruct (length set0 =? 0)%nat; cbn.
    + rewrite get_delete_ne, get_set_ne by done. by apply Hother1.
    + rewrite !get_set_ne by done. by apply Hother1.
Qed.
Lemma close_fold (l : list nat) hub :
  let hub' :=
    foldl (λ hub controller,
             match controllers hub !! controller ≫= close with
             | Some c =>
                 mkHub (<[controller := c]> (controllers hub))
                   (subscribers hub)
             | None => hub
             end) hub l in
  controllers hub' = foldl (λ cs c, alter shut c cs) (controllers hub) l
  ∧ subscribers hub' = subscribers hub.
Proof.
  revert hub. induction l as [|c l IH]; intros hub; [done|]. cbn [foldl].
  set (hub1 := match controllers hub !! c ≫= close with
               | Some ctl => mkHub (<[c := ctl]> (controllers hub))
                               (subscribers hub)
               | None => hub
               end).
  assert (controllers hub1 = alter shut c (controllers hub)
          ∧ subscribers hub1 = subscribers hub) as [Hc Hs].
  { unfold hub1. destruct (controllers hub !! c) as [ctl|] eqn:Hctl; cbn.
    - unfold close. destruct (c_open ctl) eqn:Hopen; cbn.
      + split; [|done]. by apply (insert_alter shut).
      + split; [|done]. symmetry. apply alter_fixed. intros x Hx.
        assert (x = ctl) as -> by congruence. destruct ctl. cbn in *.
        by subst.
    - split; [|done]. symmetry. apply alter_fixed. intros x Hx. congruence. }
  destruct (IH hub1) as [-> ->]. by rewrite Hc, Hs.
Qed.

(** X23. [closeSession] in a well-formed state.  The session has no set and
    no subscriber afterwards; the streams of its former subscribers accept
    nothing more, but keep what was queued; no other stream and no other set
    is touched; and a message sent to the session afterwards changes
    nothing. *)
Theorem closeSession_closes_subscribers hub sid :
  HubOk hub →
  let hub' := closeSession sid hub in
  JsMap.get sid (subscribers hub') = None
  ∧ getSubscriberCount sid hub' = 0%nat
  ∧ (∀ c, subscribed hub sid c → accepting hub' c = false)
  ∧ (∀ c, ¬ subscribed hub sid c → accepting hub' c = accepting hub c)
  ∧ (∀ c, queue hub' c = queue hub c)
  ∧ (∀ k, k ≠ sid →
          JsMap.get k (subscribers hub') = JsMap.get k (subscribers hub))
  ∧ (∀ msg, sent sid msg hub' = hub').
Proof.
  intros Hok hub'.
  assert (JsMap.get sid (subscribers hub') = None) as Hnone.
  { unfold hub', closeSession.
    destruct (JsMap.get sid (subscribers hub)) as [set|] eqn:Hget; [|done].
    cbn. destruct (close_fold set hub) as [_ ->]. apply get_delete, Hok. }
  assert (∀ c, controllers hub' !! c
               = if decide (subscribed hub sid c)
                 then shut <$> controllers hub !! c
                 else controllers hub !! c) as Hctl.
  { intros c. unfold hub', closeSession.
    destruct (decide (subscribed hub sid c)) as [Hsub|Hsub];
      unfold subscribed in Hsub;
      destruct (JsMap.get sid (subscribers hub)) as [set|] eqn:Hget;
      cbn in Hsub; try done.
    - cbn. destruct (close_fold set hub) as [-> _].
      rewrite lookup_foldl_alter_NoDup, decide_True; [done..|].
      eapply ok_set; [done|by apply get_elem].
    - by apply elem_of_nil in Hsub.
    - cbn. destruct (close_fold set hub) as [-> _].
      rewrite lookup_foldl_alter_NoDup, decide_False; [done..|].
      eapply ok_set; [done|by apply get_elem]. }
  split_and!.
  - done.
  - unfold getSubscriberCount. by rewrite Hnone.
  - intros c Hc. unfold accepting. rewrite Hctl, decide_True by done.
    by destruct (controllers hub !! c).
  - intros c Hc. unfold accepting. by rewrite Hctl, decide_False by done.
  - intros c. unfold queue. rewrite Hctl. destruct (decide _); [|done].
    by destruct (controllers hub !! c).
  - intros k Hk. unfold hub', closeSession.
    destruct (JsMap.get sid (subscribers hub)) as [set|] eqn:Hget; [|done].
    cbn. destruct (close_fold set hub) as [_ ->]. by apply get_delete_ne.
  - intros msg. rewrite sent_sendAll. unfold sendAll. by rewrite Hnone.
Qed.

(** X24. The cancellation of a stream whose controller is subscribed, in a
    well-formed state: the controller stays in the set of its session, so that
    the count of the session does not change; its stream accepts nothing
    more.  The next message sent to the session takes it out of the set. *)
Theorem cancel_does_not_unsubscribe hub sid c :
  HubOk hub → subscribed hub sid c →
  let hub' := cancel sid c hub in
  subscribers hub' = subscribers hub
  ∧ getSubscriberCount sid hub' = getSubscriberCount sid hub
  ∧ accepting hub' c = false
  ∧ ∀ msg, ¬ subscribed (sent sid msg hub') sid c.
Proof.
  intros Hok Hsub hub'.
  pose proof (HubOk_cancel hub sid c Hok) as Hok'. fold hub' in Hok'.
  assert (subscribers hub' = subscribers hub) as Hsubs.
  { unfold hub', cancel. unfold subscribed in Hsub. cbn.
    destruct (JsMap.get sid (subscribers hub)) as [set|]; [|done].
    destruct set; [by apply elem_of_nil in Hsub|done]. }
  assert (accepting hub' c = false) as Hclosed.
  { unfold accepting.
    assert (controllers hub'
            = alter (λ _, mkController false []) c (controllers hub)) as ->.
    { unfold hub', cancel. cbn.
      destruct (JsMap.get sid (subscribers hub)) as [set|]; [|done].
      by destruct (length set =? 0)%nat. }
    rewrite list_lookup_alter_eq. by destruct (controllers hub !! c). }
  split_and!; [done| |done|].
  - unfold getSubscriberCount. by rewrite Hsubs.
  - intros msg. rewrite sent_sendAll.
    destruct (sendAll_effect hub' sid msg Hok') as (_ & Hset & _).
    unfold subscribed in Hsub |- *. rewrite Hsubs in Hset.
    destruct (JsMap.get sid (subscribers hub)) as [set|] eqn:Hget;
      [|by apply elem_of_nil in Hsub].
    rewrite (Hset set) by done. cbn.
    intros [Hacc _]%list_elem_of_filter. congruence.
Qed.
End Subscriptions.

(** ** The framing of the feed *)

Section Framing.
Context {Y : Type} (JSON_parse : string → option Y).

Lemma split_nonempty sep s : split sep s ≠ [].
Proof.
  destruct s as [|c s]; [done|]. cbn.
  destruct (Ascii.eqb c sep); [done|]. by destruct (split sep s).
Qed.

Lemma pop_Some {A} (l : list A) : l ≠ [] → is_Some (pop l).1.
Proof.
  induction l as [|x l IH]; [done|]. intros _. cbn.
  destruct (pop l) as [[y|] r]; by eexists.
Qed.

Lemma pop_cons {A} (x : A) (l : list A) :
  l ≠ [] → pop (x :: l) = ((pop l).1, x :: (pop l).2).
Proof.
  intros [y Hy]%pop_Some. cbn [pop]. destruct (pop l) as [o r].
  cbn in Hy. by subst o.
Qed.

Lemma or_else_empty o : or_else o "" = default "" o.
Proof. destruct o as [s|]; [|done]. cbn. by destruct (decide (s = "")). Qed.

Lemma append_String c a b : String c a +:+ b = String c (a +:+ b).
Proof. done. Qed.

Lemma append_Empty b : "" +:+ b = b.
Proof. done. Qed.

Lemma append_Empty_r a : a +:+ "" = a.
Proof. induction a as [|c a IH]; [done|]. by rewrite append_String, IH. Qed.

Lemma append_assoc a b c : (a +:+ b) +:+ c = a +:+ (b +:+ c).
Proof.
  induction a as [|x a IH]; [done|]. by rewrite !append_String, IH.
Qed.

(** Splitting a text that comes in two parts. *)
Lemma split_app sep a b :
  split sep (a +:+ b)
  = (pop (split sep a)).2
    ++ split sep (default "" (pop (split sep a)).1 +:+ b).
Proof.
  induction a as [|c a IH].
  - done.
  - rewrite append_String. cbn [split]. destruct (Ascii.eqb c sep) eqn:Hc.
    + rewrite pop_cons by apply split_nonempty. cbn [fst snd].
      by rewrite IH.
    + rewrite IH. clear IH.
      pose proof (split_nonempty sep a) as Hne.
      destruct (split sep a) as [|p ps]; [done|].
      destruct ps as [|p2 ps].
      * cbn. rewrite append_String. cbn [split]. by rewrite Hc.
      * rewrite !(pop_cons _ (p2 :: ps)) by done. cbn [fst snd].
        by rewrite <- app_comm_cons.
Qed.

Lemma pop_split_last sep s :
  split sep (default "" (pop (split sep s)).1)
  = [default "" (pop (split sep s)).1].
Proof.
  induction s as [|c s IH]; [done|]. cbn [split].
  destruct (Ascii.eqb c sep) eqn:Hc.
  - by rewrite pop_cons by apply split_nonempty.
  - pose proof (split_nonempty sep s) as Hne.
    destruct (split sep s) as [|p ps]; [done|]. destruct ps as [|p2 ps].
    + cbn in *. by rewrite Hc, IH.
    + by rewrite !(pop_cons _ (p2 :: ps)) in * by done.
Qed.

Lemma pop_app {A} (l1 l2 : list A) :
  l2 ≠ [] → pop (l1 ++ l2) = ((pop l2).1, l1 ++ (pop l2).2).
Proof.
  intros Hl2. induction l1 as [|x l1 IH].
  - cbn. by destruct (pop l2).
  - rewrite <- app_comm_cons, pop_cons, IH; [done|].
    intros [_ ->]%app_eq_nil. done.
Qed.

(** The loop from a buffer that holds no line feed: the lines of the whole
    text but the last are parsed, and the last is what is left. *)
Lemma readLoop_lines buffer reads last :
  split LF buffer = [buffer] →
  readLoop JSON_parse buffer reads last
  = let '(rest, lines) := pop (split LF (buffer +:+ received reads)) in
    (omap (parseLine JSON_parse) lines
     ++ match last with
        | Returns => onDone JSON_parse (default "" rest)
        | Throws _ => []
        end, last).
Proof.
  revert buffer. induction reads as [|value reads IH]; intros buffer Hbuffer.
  - cbn [readLoop received foldr]. rewrite append_Empty_r, Hbuffer. cbn.
    destruct last; [done|]. done.
  - cbn [readLoop received foldr]. unfold onRead.
    rewrite <- append_assoc. rewrite (split_app LF (buffer +:+ value)).
    destruct (pop (split LF (buffer +:+ value))) as [o lines] eqn:Hpop.
    rewrite or_else_empty. cbn [fst snd].
    assert (split LF (default "" o) = [default "" o]) as Hkeep.
    { pose proof (pop_split_last LF (buffer +:+ value)) as Hl.
      by rewrite Hpop in Hl. }
    rewrite (IH _ Hkeep). fold (received reads).
    rewrite pop_app by apply split_nonempty.
    destruct (pop (split LF (default "" o +:+ received reads))) as [o' lines'].
    cbn [fst snd]. by rewrite omap_app, app_assoc.
Qed.

(** X25. What [streamTokens] (and [stream]) yields depends on the text of
    the body, not on the pieces in which it is read: it is what the lines of
    the whole text parse to, in their order, blank lines and lines that do
    not parse being skipped.  If the body ends, the generator returns; if a
    read fails, the generator throws after the complete lines, and the text
    after the last line feed is lost.  A response without body or with an
    error status yields nothing. *)
Theorem stream_yields_the_lines reads last :
  streamTokens JSON_parse (Pieces reads last)
  = let '(rest, lines) := pop (split LF (received reads)) in
    (omap (parseLine JSON_parse) lines
     ++ match last with
        | Returns => option_list (parseLine JSON_parse (default "" rest))
        | Throws _ => []
        end, last).
Proof.
  cbn [streamTokens]. rewrite readLoop_lines by done. rewrite append_Empty.
  destruct (pop (split LF (received reads))) as [rest lines].
  destruct last; [|done]. do 2 f_equal. unfold onDone, parseLine.
  destruct (decide (trim (default "" rest) = "")); [done|].
  by destruct (JSON_parse _).
Qed.
End Framing.

(** ** Strings *)

Lemma length_append a b :
  String.length (a +:+ b) = (String.length a + String.length b)%nat.
Proof.
  induction a as [|c a IH]; [done|]. rewrite append_String. cbn. by rewrite IH.
Qed.

Lemma substring0_0 s : substring0 0 s = "".
Proof. by destruct s. Qed.

Lemma substring0_S n c s :
  substring0 (S n) (String c s) = String c (substring0 n s).
Proof. done. Qed.

Lemma length_substring0_exact n s :
  (n ≤ String.length s)%nat → String.length (substring0 n s) = n.
Proof.
  revert s. induction n as [|n IH]; intros s Hn.
  - by rewrite substring0_0.
  - destruct s as [|c s]; [cbn in Hn; lia|]. rewrite substring0_S.
    cbn [String.length] in *. f_equal. apply IH. lia.
Qed.

Lemma substring0_split n s : s = substring0 n s +:+ substringFrom n s.
Proof.
  revert s. induction n as [|n IH]; intros s.
  - by rewrite substring0_0.
  - destruct s as [|c s]; [done|].
    rewrite substring0_S, append_String. cbn [substringFrom]. by rewrite <- IH.
Qed.

Lemma substring0_all s : substring0 (String.length s) s = s.
Proof.
  induction s as [|c s IH]; [done|]. cbn [String.length].
  by rewrite substring0_S, IH.
Qed.

Lemma substring0_append a b : substring0 (String.length a) (a +:+ b) = a.
Proof.
  induction a as [|c a IH]; [by rewrite substring0_0|].
  rewrite append_String. cbn [String.length]. by rewrite substring0_S, IH.
Qed.

Lemma substringFrom_append a b : substringFrom (String.length a) (a +:+ b) = b.
Proof. induction a as [|c a IH]; [done|]. by rewrite append_String. Qed.

Lemma substringFrom_empty n s :
  (n ≤ String.length s)%nat → substringFrom n s = "" → n = String.length s.
Proof.
  revert s. induction n as [|n IH]; intros [|c s]; cbn; try done; try lia.
  intros Hn Hs. f_equal. apply IH; [lia|done].
Qed.

Lemma allIn_append set a b :
  allIn set (a +:+ b) = allIn set a && allIn set b.
Proof.
  induction a as [|c a IH]; [done|]. rewrite append_String. cbn.
  by rewrite IH, andb_assoc.
Qed.

(** ** [trim] *)

Lemma trimStart_headOk s : headOk (trimStart s).
Proof.
  induction s as [|c s IH]; [done|]. cbn.
  by destruct (isWhiteSpace c) eqn:Hc.
Qed.

Lemma trimStart_fixed s : headOk s → trimStart s = s.
Proof. destruct s as [|c s]; [done|]. cbn. by intros ->. Qed.

Lemma trimEnd_headOk s : headOk s → headOk (trimEnd s).
Proof.
  destruct s as [|c s]; [done|]. cbn. intros Hc.
  destruct (trimEnd s); [by rewrite Hc|done].
Qed.

Lemma trimEnd_idemp s : trimEnd (trimEnd s) = trimEnd s.
Proof.
  induction s as [|c s IH]; [done|]. cbn.
  destruct (trimEnd s) as [|d t] eqn:Ht.
  - destruct (isWhiteSpace c) eqn:Hc; [done|]. cbn. by rewrite Hc.
  - cbn [trimEnd]. cbn [trimEnd] in IH. by rewrite IH.
Qed.

Lemma trim_idemp s : trim (trim s) = trim s.
Proof.
  unfold trim. rewrite (trimStart_fixed (trimEnd _)).
  - apply trimEnd_idemp.
  - apply trimEnd_headOk, trimStart_headOk.
Qed.

Lemma plain_append a b : plain (a +:+ b) = plain a && plain b.
Proof.
  induction a as [|c a IH]; [done|]. rewrite append_String. cbn.
  by rewrite IH, !andb_assoc.
Qed.

Lemma trimEnd_plain s : plain s = true → trimEnd s = s.
Proof.
  induction s as [|c s IH]; [done|]. cbn.
  intros [[Hc _]%andb_prop Hs]%andb_prop. rewrite IH by done.
  destruct s; [|done]. by apply negb_true_iff in Hc as ->.
Qed.

Lemma trim_plain s : plain s = true → trim s = s.
Proof.
  intros Hs. unfold trim. rewrite trimStart_fixed; [by apply trimEnd_plain|].
  destruct s as [|c s]; [done|]. cbn in *.
  apply andb_prop in Hs as [[Hc _]%andb_prop _]. by apply negb_true_iff.
Qed.

Lemma toUpperCase_plain s : plain s = true → toUpperCase s = s.
Proof.
  induction s as [|c s IH]; [done|]. cbn.
  intros [[_ Hc%bool_decide_eq_true]%andb_prop Hs]%andb_prop.
  by rewrite Hc, IH.
Qed.

Lemma upper_idemp c : upper (upper c) = upper c.
Proof. by destruct c as [[] [] [] [] [] [] [] []]. Qed.

Lemma toUpperCase_idemp s : toUpperCase (toUpperCase s) = toUpperCase s.
Proof.
  induction s as [|c s IH]; [done|]. cbn. by rewrite upper_idemp, IH.
Qed.

Lemma plainSet_Digit : plainSet Digit.
Proof. intros c. by destruct c as [[] [] [] [] [] [] [] []]. Qed.

Lemma plainSet_Upper : plainSet Upper.
Proof. intros c. by destruct c as [[] [] [] [] [] [] [] []]. Qed.

Lemma plainSet_OneOf chars : plain chars = true → plainSet (OneOf chars).
Proof.
  intros Hchars c. cbn. induction chars as [|d chars IH]; [done|].
  cbn in *. apply andb_prop in Hchars as [[Hd Hu]%andb_prop Hchars].
  intros [Hc|Hc]%orb_prop; [|by apply IH].
  apply Ascii.eqb_eq in Hc as ->. split.
  - by apply negb_true_iff.
  - by apply bool_decide_eq_true in Hu.
Qed.

Lemma allIn_plain set s : plainSet set → allIn set s = true → plain s = true.
Proof.
  intros Hset. induction s as [|c s IH]; [done|]. cbn.
  intros [Hc Hs]%andb_prop. destruct (Hset c Hc) as [-> ->]. cbn.
  rewrite bool_decide_eq_true_2 by done. by apply IH.
Qed.

(** ** The regular expressions *)

Lemma test_cons item pattern s :
  test (item :: pattern) s = true ↔
  ∃ a b, s = a +:+ b
         ∧ (i_min item ≤ String.length a ≤ i_max item)%nat
         ∧ allIn (i_set item) a = true ∧ test pattern b = true.
Proof.
  cbn [test]. rewrite existsb_exists. split.
  - intros (n & Hn%in_seq & [[Hlen%Nat.leb_le Hall]%andb_prop Hrest]%andb_prop).
    exists (substring0 n s), (substringFrom n s). split_and!.
    + apply substring0_split.
    + rewrite length_substring0_exact by done. lia.
    + rewrite length_substring0_exact by done. lia.
    + done.
    + done.
  - intros (a & b & -> & Hlen & Hall & Hrest). exists (String.length a).
    split; [apply in_seq; lia|].
    rewrite substring0_append, substringFrom_append, Hall, Hrest.
    rewrite length_append. rewrite andb_true_r, andb_true_r.
    apply Nat.leb_le. lia.
Qed.

Lemma test_nil s : test [] s = true ↔ s = "".
Proof. cbn. apply bool_decide_eq_true. Qed.

Lemma test_single set lo hi s :
  test [mkItem set lo hi] s = true ↔
  (lo ≤ String.length s ≤ hi)%nat ∧ allIn set s = true.
Proof.
  rewrite test_cons. split.
  - intros (a & b & -> & Hlen & Hall & ->%test_nil).
    by rewrite append_Empty_r.
  - intros [Hlen Hall]. exists s, "". rewrite append_Empty_r.
    by rewrite test_nil.
Qed.

Lemma allIn_lit chars a :
  String.length a = 1%nat → allIn (OneOf chars) a = true →
  ∃ c, a = String c "" ∧ inSet (OneOf chars) c = true.
Proof.
  destruct a as [|c [|d a]]; try done. cbn [allIn]. rewrite andb_true_r.
  intros _ Hc. by exists c.
Qed.

(** Every character of a string that matches is in the set of an item. *)
Lemma test_plain pattern s :
  Forall (λ item, plainSet (i_set item)) pattern →
  test pattern s = true → plain s = true.
Proof.
  intros Hpattern. revert s.
  induction Hpattern as [|item pattern Hitem _ IH]; intros s.
  - by intros ->%test_nil.
  - intros (a & b & -> & _ & Hall & Hrest)%test_cons.
    rewrite plain_append, (allIn_plain _ a Hitem Hall). by apply IH.
Qed.

Lemma test_nonempty item pattern s :
  (0 < i_min item)%nat → test (item :: pattern) s = true → s ≠ "".
Proof.
  intros Hmin (a & b & -> & Hlen & _)%test_cons.
  destruct a; [cbn in *; lia|done].
Qed.

(** ** The validator *)

Lemma inSet_dot c : inSet (OneOf ".") c = true → c = "."%char.
Proof. cbn. rewrite orb_false_r. apply Ascii.eqb_eq. Qed.

Lemma inSet_H c : inSet (OneOf "H") c = true → c = "H"%char.
Proof. cbn. rewrite orb_false_r. apply Ascii.eqb_eq. Qed.

Lemma inSet_K c : inSet (OneOf "K") c = true → c = "K"%char.
Proof. cbn. rewrite orb_false_r. apply Ascii.eqb_eq. Qed.

Lemma test_HKForm s :
  test HKForm s = true ↔
  ∃ d, s = d +:+ ".HK" ∧ allIn Digit d = true
       ∧ (4 ≤ String.length d ≤ 5)%nat.
Proof.
  unfold HKForm, lit. split.
  - intros (d & b1 & -> & Hlen & Hd
            & (p1 & b2 & -> & Hl1 & Hp1
               & (p2 & b3 & -> & Hl2 & Hp2
                  & (p3 & b4 & -> & Hl3 & Hp3
                     & ->%test_nil)%test_cons)%test_cons)%test_cons)%test_cons.
    cbn [i_min i_max i_set] in *.
    destruct (allIn_lit "." p1) as (c1 & -> & ->%inSet_dot); [lia|done|].
    destruct (allIn_lit "H" p2) as (c2 & -> & ->%inSet_H); [lia|done|].
    destruct (allIn_lit "K" p3) as (c3 & -> & ->%inSet_K); [lia|done|].
    by exists d.
  - intros (d & -> & Hd & Hlen). apply test_cons. exists d, ".HK".
    split_and!; [done|cbn; lia|cbn; lia|done|]. done.
Qed.

Lemma digit_not_dot c : inSet Digit c = true → c ≠ "."%char.
Proof. by destruct c as [[] [] [] [] [] [] [] []]. Qed.

Lemma prefix_digit c s t :
  inSet Digit c = true → startsWith (String "." s) (String c t) = false.
Proof.
  intros Hc%digit_not_dot. cbn [startsWith].
  assert (Ascii.eqb "." c = false) as ->; [|done].
  apply Ascii.eqb_neq. congruence.
Qed.

Lemma replace_HK_suffix d :
  allIn Digit d = true → replace ".HK" "" (d +:+ ".HK") = d.
Proof.
  induction d as [|c d IH]; [done|]. cbn [allIn].
  intros [Hc Hd]%andb_prop. rewrite append_String. cbn [replace].
  rewrite prefix_digit by done. by rewrite IH.
Qed.

Lemma replace_HK_digits d : allIn Digit d = true → replace ".HK" "" d = d.
Proof.
  induction d as [|c d IH]; [done|]. cbn [allIn].
  intros [Hc Hd]%andb_prop. cbn [replace].
  rewrite prefix_digit by done. by rewrite IH.
Qed.

Lemma padStart_long n pad s : (n ≤ String.length s)%nat → padStart n pad s = s.
Proof.
  intros Hn. unfold padStart.
  by replace (n - String.length s)%nat with 0%nat by lia.
Qed.

Lemma padding_digits k :
  allIn Digit (String.string_of_list_ascii (replicate k "0"%char)) = true
  ∧ String.length (String.string_of_list_ascii (replicate k "0"%char)) = k.
Proof. induction k as [|k [IH1 IH2]]; [done|]. cbn. by rewrite IH1, IH2. Qed.

Lemma padStart_digits n d :
  allIn Digit d = true →
  allIn Digit (padStart n "0" d) = true
  ∧ String.length (padStart n "0" d) = (n `max` String.length d)%nat.
Proof.
  intros Hd. unfold padStart. rewrite allIn_append, length_append, Hd.
  destruct (padding_digits (n - String.length d)) as [-> ->]. split; [done|lia].
Qed.

(** The ticker that [normalizeTicker] makes for Hong Kong of a code that
    [validateHKFormat] accepts. *)
Lemma normalize_HK code :
  trim code = code → validateHKFormat code = true →
  ∃ d, allIn Digit d = true
       ∧ (toUpperCase code = d ∨ toUpperCase code = d +:+ ".HK")
       ∧ normalizeTicker code "HK" = padStart 4 "0" d +:+ ".HK"
       ∧ (4 ≤ String.length (padStart 4 "0" d) ≤ 5)%nat.
Proof.
  intros Htrim. unfold validateHKFormat, normalizeTicker. rewrite Htrim.
  rewrite decide_False, decide_True by done.
  fold HKForm. destruct (test HKForm (toUpperCase code)) eqn:Hform.
  - intros _. apply test_HKForm in Hform as (d & Hcode & Hd & Hlen).
    exists d. rewrite Hcode, replace_HK_suffix by done.
    rewrite padStart_long by lia. split_and!; [done|by right|done|lia..].
  - destruct (test [mkItem Digit 1 5] (toUpperCase code)) eqn:Hdigits; [|done].
    intros _. apply test_single in Hdigits as [Hlen Hd].
    exists (toUpperCase code). rewrite replace_HK_digits by done.
    destruct (padStart_digits 4 (toUpperCase code) Hd) as [_ Hpad].
    split_and!; [done|by left|done|lia..].
Qed.

Lemma plain_HK d :
  allIn Digit d = true → plain (d +:+ ".HK") = true.
Proof.
  intros Hd. rewrite plain_append.
  by rewrite (allIn_plain Digit d plainSet_Digit Hd).
Qed.

(** A ticker in the form for Hong Kong is accepted and left as it is. *)
Lemma fixed_HK d :
  allIn Digit d = true → (4 ≤ String.length d ≤ 5)%nat →
  validateHKFormat (d +:+ ".HK") = true
  ∧ normalizeTicker (d +:+ ".HK") "HK" = d +:+ ".HK".
Proof.
  intros Hd Hlen. pose proof (plain_HK d Hd) as Hplain.
  unfold validateHKFormat, normalizeTicker.
  rewrite decide_False, decide_True by done.
  rewrite (trim_plain _ Hplain), (toUpperCase_plain _ Hplain).
  fold HKForm.
  assert (test HKForm (d +:+ ".HK") = true) as ->
    by (apply test_HKForm; by exists d).
  split; [done|]. rewrite replace_HK_suffix by done.
  by rewrite padStart_long by lia.
Qed.

Lemma validateUSFormat_plain code :
  trim code = code → validateUSFormat code = true →
  plain (toUpperCase code) = true.
Proof.
  intros Hcode Hvalid. unfold validateUSFormat in Hvalid.
  rewrite Hcode in Hvalid.
  destruct (test [mkItem Upper 1 5] (toUpperCase code)) eqn:H1.
  - refine (test_plain _ _ _ H1).
    apply Forall_cons; split; [exact plainSet_Upper|apply Forall_nil_2].
  - destruct (test [mkItem Upper 1 4; lit ".-"; mkItem Upper 1 1]
                (toUpperCase code)) eqn:H2; [|done].
    refine (test_plain _ _ _ H2).
    apply Forall_cons; split; [exact plainSet_Upper|].
    apply Forall_cons; split; [exact (plainSet_OneOf ".-" eq_refl)|].
    apply Forall_cons; split; [exact plainSet_Upper|apply Forall_nil_2].
Qed.

(** The three markets, one by one. *)
Lemma format_result ticker market :
  let code := trim ticker in
  validateTickerFormat ticker market
  = if decide (code = "") then
      mkValidation false "" "" "Please enter a stock code"
    else if decide (market = "A-share") then
      if validateAShareFormat code then mkValidation true code "" ""
      else mkValidation false "" ""
             "A-Share code should be 6 digits (e.g. 600519, 000001)"
    else if decide (market = "US") then
      if validateUSFormat code then mkValidation true (toUpperCase code) "" ""
      else mkValidation false "" ""
             "US stock code should be 1-5 letters (e.g. AAPL, TSLA)"
    else if decide (market = "HK") then
      if validateHKFormat code
      then mkValidation true (normalizeTicker code "HK") "" ""
      else mkValidation false "" ""
             "HK stock code should be 4-5 digits (e.g. 0700, 9988)"
    else mkValidation false "" "" ("Unsupported market type: " +:+ market).
Proof.
  intros code. unfold validateTickerFormat. fold code.
  destruct (decide (code = "")); [done|].
  assert (trim code = code) as Hcode by apply trim_idemp.
  destruct (decide (market = "A-share")) as [->|].
  { destruct (validateAShareFormat code); [|done]. cbn [negb].
    unfold normalizeTicker. by rewrite !decide_False, Hcode by done. }
  destruct (decide (market = "US")) as [->|].
  { destruct (validateUSFormat code); [|done]. cbn [negb].
    unfold normalizeTicker. by rewrite decide_True, Hcode by done. }
  destruct (decide (market = "HK")) as [->|]; [|done].
  by destruct (validateHKFormat code).
Qed.

(** X26. A ticker of characters below 128 that [validateTickerFormat]
    accepts: the market is one of the three, the result has neither name nor
    error, and the normalized ticker is in the form of the market.  For
    A-shares it is the trimmed ticker, six digits that begin with one of the
    nine prefixes; for US stocks it is the trimmed ticker in upper case, one
    to five letters, or one to four letters, a dot or a hyphen, and a
    letter; for Hong Kong it is four or five digits followed by [.HK]: the
    digits of the ticker, filled up with zeros to four.  A ticker that is
    not accepted gets an error text and an empty normalized ticker. *)
Theorem valid_ticker_has_market_form ticker market :
  isASCII ticker = true →
  let r := validateTickerFormat ticker market in
  if valid r then
    name r = "" ∧ error_text r = ""
    ∧ ((market = "A-share" ∧ normalized r = trim ticker
        ∧ test AShareForm (normalized r) = true
        ∧ substring0 3 (normalized r) ∈ validPrefixes)
       ∨ (market = "US" ∧ normalized r = toUpperCase (trim ticker)
          ∧ (test USForm (normalized r) = true
             ∨ test USClassForm (normalized r) = true))
       ∨ (market = "HK" ∧ test HKForm (normalized r) = true
          ∧ ∃ d, allIn Digit d = true
                 ∧ normalized r = padStart 4 "0" d +:+ ".HK"
                 ∧ (toUpperCase (trim ticker) = d
                    ∨ toUpperCase (trim ticker) = d +:+ ".HK")))
  else normalized r = "" ∧ name r = "" ∧ error_text r ≠ "".
Proof.
  intros _ r. unfold r. rewrite format_result. cbn zeta.
  set (code := trim ticker).
  assert (trim code = code) as Hcode by apply trim_idemp.
  destruct (decide (code = "")); [done|].
  destruct (decide (market = "A-share")) as [->|].
  { destruct (validateAShareFormat code) eqn:Hvalid; [|done].
    cbn [valid name error_text normalized].
    split_and!; [done..|]. left. unfold validateAShareFormat in Hvalid.
    rewrite Hcode in Hvalid. fold AShareForm in Hvalid.
    destruct (test AShareForm code); [|done]. cbn [negb] in Hvalid.
    split_and!; [done..|]. by apply bool_decide_eq_true in Hvalid. }
  destruct (decide (market = "US")) as [->|].
  { destruct (validateUSFormat code) eqn:Hvalid; [|done].
    cbn [valid name error_text normalized].
    split_and!; [done..|]. right. left. unfold validateUSFormat in Hvalid.
    rewrite Hcode in Hvalid. fold USForm USClassForm in Hvalid.
    split_and!; [done..|].
    destruct (test USForm (toUpperCase code)); [by left|].
    destruct (test USClassForm (toUpperCase code)); [by right|done]. }
  destruct (decide (market = "HK")) as [->|].
  { destruct (validateHKFormat code) eqn:Hvalid; [|done].
    cbn [valid name error_text normalized].
    split_and!; [done..|]. right. right.
    destruct (normalize_HK code Hcode Hvalid) as (d & Hd & Hupper & -> & Hlen).
    destruct (padStart_digits 4 d Hd) as [Hpad _].
    split_and!; [done| |by exists d].
    apply test_HKForm. by exists (padStart 4 "0" d). }
  cbn. split_and!; [done..|]. by destruct market.
Qed.

(** X27. The normalized ticker of an accepted ticker is accepted for the
    same market, and it is its own normalized ticker: validating it gives
    the same result again. *)
Theorem normalized_ticker_is_fixed ticker market :
  isASCII ticker = true →
  valid (validateTickerFormat ticker market) = true →
  validateTickerFormat (normalized (validateTickerFormat ticker market)) market
  = validateTickerFormat ticker market.
Proof.
  intros _. rewrite (format_result ticker). cbn zeta.
  set (code := trim ticker).
  assert (trim code = code) as Hcode by apply trim_idemp.
  destruct (decide (code = "")) as [|Hne]; [done|].
  destruct (decide (market = "A-share")) as [->|].
  { destruct (validateAShareFormat code) eqn:Hvalid; [|done]. intros _.
    cbn [valid name error_text normalized].
    rewrite format_result. cbn zeta.
    by rewrite Hcode, decide_False, decide_True, Hvalid by done. }
  destruct (decide (market = "US")) as [->|].
  { destruct (validateUSFormat code) eqn:Hvalid; [|done]. intros _.
    cbn [valid name error_text normalized].
    pose proof (validateUSFormat_plain code Hcode Hvalid) as Hplain.
    assert (toUpperCase code ≠ "") as Hne'.
    { destruct code; [done|]. done. }
    rewrite format_result. cbn zeta.
    rewrite (trim_plain _ Hplain), decide_False, decide_False, decide_True
      by done.
    assert (validateUSFormat (toUpperCase code) = true) as ->; [|
      by rewrite toUpperCase_idemp].
    unfold validateUSFormat in *. rewrite Hcode in Hvalid.
    by rewrite (trim_plain _ Hplain), toUpperCase_idemp. }
  destruct (decide (market = "HK")) as [->|]; [|done].
  destruct (validateHKFormat code) eqn:Hvalid; [|done]. intros _.
    cbn [valid name error_text normalized].
  destruct (normalize_HK code Hcode Hvalid) as (d & Hd & Hupper & -> & Hlen).
  destruct (padStart_digits 4 d Hd) as [Hpad _].
  destruct (fixed_HK (padStart 4 "0" d) Hpad Hlen) as [Hvalid' Hfixed].
  pose proof (plain_HK _ Hpad) as Hplain.
  rewrite format_result. cbn zeta. rewrite (trim_plain _ Hplain).
  rewrite decide_False by (by destruct (padStart 4 "0" d)).
  by rewrite decide_False, decide_False, decide_True, Hvalid', Hfixed by done.
Qed.

(** X28. [validateAndGetName] accepts exactly the tickers that
    [validateTickerFormat] accepts, whatever the lookups give: an accepted
    ticker comes back with the normalized ticker of the format check, the
    name that was found and no error, and a ticker that is not accepted comes
    back with the result of the format check. *)
Theorem lookup_keeps_the_format_result found ticker market :
  isASCII ticker = true →
  let formatResult := validateTickerFormat ticker market in
  validateAndGetName found ticker market
  = if valid formatResult
    then mkValidation true (normalized formatResult) found ""
    else formatResult.
Proof.
  intros _ formatResult. unfold validateAndGetName. fold formatResult.
  destruct (valid formatResult) eqn:Hvalid; [|done]. cbn [negb].
  destruct (decide (market = "A-share")); [done|].
  unfold formatResult in *. rewrite format_result in *. cbn zeta in *.
  set (code := trim ticker) in *.
  assert (trim code = code) as Hcode by apply trim_idemp.
  destruct (decide (code = "")); [done|].
  rewrite (decide_False (P := market = "A-share")) in * by done.
  destruct (decide (market = "US")) as [->|].
  { rewrite decide_True by by left. unfold validateUSHK.
    destruct (validateUSFormat code) eqn:Hus; [|done].
    cbn [valid name error_text normalized]. f_equal.
    unfold normalizeTicker. rewrite decide_True by done.
    pose proof (validateUSFormat_plain code Hcode Hus) as Hplain.
    by rewrite (trim_plain _ Hplain), toUpperCase_idemp. }
  destruct (decide (market = "HK")) as [->|]; [|done].
  rewrite decide_True by by right. unfold validateUSHK.
  destruct (validateHKFormat code) eqn:Hhk; [|done].
  cbn [valid name error_text normalized]. f_equal.
  destruct (normalize_HK code Hcode Hhk) as (d & Hd & Hupper & -> & Hlen).
  destruct (padStart_digits 4 d Hd) as [Hpad _].
  by destruct (fixed_HK (padStart 4 "0" d) Hpad Hlen) as [_ ->].
Qed.

(** ** Administrators and invite codes *)

Lemma setAdd_elem x y set : y ∈ setAdd x set ↔ y = x ∨ y ∈ set.
Proof.
  unfold setAdd. destruct (decide (x ∈ set)) as [Hx|Hx].
  - split; [by right|]. by intros [->|].
  - rewrite elem_of_app, list_elem_of_singleton. tauto.
Qed.

Lemma setAdd_NoDup x set : NoDup set → NoDup (setAdd x set).
Proof.
  intros Hset. unfold setAdd. destruct (decide (x ∈ set)); [done|].
  apply NoDup_app. split_and!; [done| |apply NoDup_singleton].
  intros y Hy ->%list_elem_of_singleton. done.
Qed.

Lemma admins_loop pieces admins u :
  u ∈ foldl (λ admins user,
               if decide (trim user = "") then admins
               else setAdd (trim user) admins) admins pieces
  ↔ u ∈ admins ∨ (u ≠ "" ∧ ∃ piece, piece ∈ pieces ∧ trim piece = u).
Proof.
  revert admins. induction pieces as [|p pieces IH]; intros admins; cbn [foldl].
  - split; [by left|]. intros [|(_ & p & Hp%elem_of_nil & _)]; done.
  - rewrite IH. destruct (decide (trim p = "")) as [Hp|Hp].
    + split; (intros [|(Hu & q & Hq & <-)]; [by left|right]).
      * split; [done|]. exists q. split; [by right|done].
      * split; [done|]. exists q. split; [|done].
        apply elem_of_cons in Hq as [->|]; done.
    + rewrite setAdd_elem. split.
      * intros [[->|]|(Hu & q & Hq & <-)]; [right|by left|right].
        -- split; [done|]. exists p. split; [by left|done].
        -- split; [done|]. exists q. split; [by right|done].
      * intros [|(Hu & q & Hq & <-)]; [left; by right|].
        apply elem_of_cons in Hq as [->|]; [left; by left|right].
        split; [done|]. by exists q.
Qed.

(** X29. A request is served as an administrator exactly when its
    [X-Username] header is not empty and is, as it stands, the trimmed form
    of one of the pieces between the commas of [ADMIN_USERS]; a request
    without the header, or with an empty one, never is.  The user name of
    the context is the header, or the empty string. *)
Theorem admin_needs_listed_name env xUsername :
  let user := userContext env xUsername in
  username user = or_else xUsername ""
  ∧ (isAdmin user = true ↔
     ∃ u piece, xUsername = Some u ∧ u ≠ ""
                ∧ piece ∈ split "," (or_else (JsMap.get "ADMIN_USERS" env) "")
                ∧ trim piece = u).
Proof.
  cbn. split; [done|]. rewrite bool_decide_eq_true. unfold getAdminUsers.
  set (adminStr := or_else (JsMap.get "ADMIN_USERS" env) "").
  destruct (decide (adminStr = "")) as [Hempty|Hne].
  - rewrite Hempty. split; [by intros ?%elem_of_nil|].
    intros (u & piece & -> & Hu & Hpiece & Htrim). cbn in Hpiece.
    apply list_elem_of_singleton in Hpiece as ->. by cbn in Htrim.
  - rewrite admins_loop. split.
    + intros [?%elem_of_nil|(Hu & piece & Hpiece & Htrim)]; [done|].
      destruct xUsername as [u|]; [|done]. cbn in *.
      destruct (decide (u = "")); [done|]. by exists u, piece.
    + intros (u & piece & -> & Hu & Hpiece & Htrim). right. cbn.
      rewrite decide_False by done. split; [done|]. by exists piece.
Qed.

Lemma split_pieces sep s piece :
  piece ∈ split sep s → includes sep piece = false.
Proof.
  revert piece. induction s as [|c s IH]; intros piece; cbn [split].
  - by intros ->%list_elem_of_singleton.
  - destruct (Ascii.eqb c sep) eqn:Hc.
    + intros [->|Hin]%elem_of_cons; [done|by apply IH].
    + pose proof (split_nonempty sep s) as Hne.
      destruct (split sep s) as [|p ps]; [done|].
      intros [->|Hin]%elem_of_cons.
      * cbn. rewrite Hc. apply IH. by left.
      * apply IH. by right.
Qed.

Lemma includes_trimStart c s :
  includes c s = false → includes c (trimStart s) = false.
Proof.
  induction s as [|d s IH]; [done|]. cbn.
  intros [Hd Hs]%orb_false_elim. destruct (isWhiteSpace d); [by apply IH|].
  cbn. by rewrite Hd, Hs.
Qed.

Lemma includes_trimEnd c s :
  includes c s = false → includes c (trimEnd s) = false.
Proof.
  induction s as [|d s IH]; [done|]. cbn.
  intros [Hd Hs]%orb_false_elim. specialize (IH Hs).
  destruct (trimEnd s) as [|e t].
  - destruct (isWhiteSpace d); [done|]. cbn. by rewrite Hd.
  - cbn in *. by rewrite Hd, IH.
Qed.

Lemma includes_trim c s : includes c s = false → includes c (trim s) = false.
Proof. intros Hs. by apply includes_trimEnd, includes_trimStart. Qed.

Lemma addCode_colonFree text codes :
  colonFree codes → colonFree (addCode text codes).
Proof.
  intros Hcodes. unfold addCode.
  pose proof (split_pieces ":" text) as Hpieces.
  destruct (split ":" text) as [|user [|pwd pieces]]; [done..|].
  cbn [take]. destruct (_ && _); [|done].
  intros u p [[= -> ->]|Hin]%set_elem_of; [|by eapply Hcodes].
  apply includes_trim, Hpieces. right. by left.
Qed.

Lemma getInviteCodes_colonFree env : colonFree (getInviteCodes env).
Proof.
  unfold getInviteCodes.
  set (codes := if decide _ then [] else _).
  assert (colonFree codes) as Hcodes.
  { unfold codes. destruct (decide _); [by intros u p ?%elem_of_nil|].
    generalize (split "," (or_else (JsMap.get "INVITE_CODES" env) "")).
    intros pieces.
    assert (colonFree []) as Hnil by by intros u p ?%elem_of_nil.
    revert Hnil. generalize ([] : JsMap.t string).
    induction pieces as [|p pieces IH]; intros acc Hacc; [done|].
    cbn [foldl]. by apply IH, addCode_colonFree. }
  revert Hcodes. generalize codes. clear codes.
  induction env as [|[key value] env IH]; intros codes Hcodes; [done|].
  cbn [foldl]. apply IH. destruct (_ && _); [|done].
  by apply addCode_colonFree.
Qed.

(** X30. A login succeeds only when both fields are present, the trimmed
    user name and the trimmed password are not empty, and the invite codes
    hold that password for that user name; the answer names the trimmed user
    name.  The password holds no colon: [getInviteCodes] never stores one
    that does. *)
Theorem login_needs_stored_password env username password message u :
  login env username password = LoginSuccess message u →
  ∃ name pwd,
    username = Some name ∧ password = Some pwd
    ∧ u = trim name ∧ u ≠ "" ∧ trim pwd ≠ ""
    ∧ message = "Welcome, " +:+ u
    ∧ JsMap.get u (getInviteCodes env) = Some (trim pwd)
    ∧ includes ":" (trim pwd) = false.
Proof.
  unfold login.
  destruct (decide _) as [|Hfields]; [done|].
  assert (or_else (trim <$> username) "" ≠ "") as Hname
    by (intros ?; apply Hfields; by left).
  assert (or_else (trim <$> password) "" ≠ "") as Hpwd
    by (intros ?; apply Hfields; by right).
  clear Hfields.
  destruct username as [name|]; [|done]. destruct password as [pwd|]; [|done].
  cbn [fmap option_fmap option_map or_else] in *.
  destruct (decide (trim name = "")); [done|].
  destruct (decide (trim pwd = "")); [done|].
  destruct (JsMap.get (trim name) (getInviteCodes env)) as [stored|] eqn:Hget;
    [|done].
  destruct (bool_decide (stored ≠ "")); [|done].
  destruct (bool_decide (stored = trim pwd)) eqn:Hsame; [|done].
  apply bool_decide_eq_true in Hsame as ->. intros [= <- <-].
  exists name, pwd. split_and!; try done.
  eapply getInviteCodes_colonFree. by apply get_elem.
Qed.

(** * The properties on the sample data, and where the code departs from the
      specification *)

#[local] Existing Instance timestampClock.

Example timestampClock_epoch :
  timestampClock "1970-01-01 00:00:00" = Some 0%Z
  ∧ timestampClock "2024-03-01 10:00:02" = Some 1709287202000%Z
  ∧ timestampClock "soon" = None.
Proof. vm_compute. done. Qed.


(** C1: the code lets one user have two running sessions.  [deleteSession]
    removes the running session at once, but the queued session is promoted
    only when the coroutine of the deleted session is resumed; a session
    submitted in between finds no running session and starts, and the
    promotion that follows does not look for a running session.  Before the
    last event of [deleteThenSubmit] alice has one running session, after it
    two. *)
Theorem two_running_after_delete :
  let before := run (take 4 deleteThenSubmit) initial in
  let after := run deleteThenSubmit initial in
  reachable after
  ∧ (λ s, (id s, userId s, status s)) <$> values after
    = [("bbbbbbbb", "alice", running); ("cccccccc", "alice", running)]
  ∧ getRunningCount after (Some "alice") false = 2
  ∧ oneSlot before ∧ ¬ oneSlot after.
Proof.
  split_and!.
  - apply run_reachable, reachable_initial.
  - by vm_compute.
  - by vm_compute.
  - apply oneSlot_requests;
      [apply reachable_initial|apply oneSlot_initial|].
    repeat (apply Forall_cons; split; [by intros tid t []|]).
    apply Forall_nil_2.
  - intros Hone.
    assert (1 = 2) as Heq; [|done].
    apply (Hone "bbbbbbbb" 1 (started sample_b) "cccccccc" 2 (started sample_c));
      try done.
    + split; [|by vm_compute].
      apply (list_elem_of_lookup_2 _ 0). by vm_compute.
    + split; [|by vm_compute].
      apply (list_elem_of_lookup_2 _ 1). by vm_compute.
Qed.

(** C4: a session without user id is queued when another session without user
    id runs ([getUserRunningSession] is asked for the user [""]), and it stays
    queued when that session completes, the [finally] block promoting for
    non-empty user ids only: no coroutine is left. *)
Theorem anonymous_session_queued :
  (λ s, (id s, userId s, status s)) <$> values (run twoGuests initial)
  = [("aaaaaaaa", "", running); ("bbbbbbbb", "", queued)]
  ∧ (λ s, (id s, userId s, status s)) <$> values (run firstGuestDone initial)
    = [("aaaaaaaa", "", completed); ("bbbbbbbb", "", queued)]
  ∧ t_alive <$> tasks (run firstGuestDone initial) = [false].
Proof. by vm_compute. Qed.

(** C9: the positions are handed out in the order of the list, which is
    newest first: the newest queued session of alice gets position 1 and the
    oldest, which [startNextQueuedSession] will start first, gets position
    2.  No summary has a [reports] field ([SessionSummary] has none). *)
Theorem queue_position_newest_first :
  (λ s, (sum_id s, sum_createdAt s, sum_status s, queuePosition s))
    <$> listRoute alice twoWaiting
  = [ ("cccccccc", "2024-03-01 10:00:02", queued, Some 1);
      ("bbbbbbbb", "2024-03-01 10:00:01", queued, Some 2);
      ("aaaaaaaa", "2024-03-01 10:00:00", running, None) ]
  ∧ id <$> nextQueued "alice" (values twoWaiting) = Some "bbbbbbbb".
Proof. by vm_compute. Qed.

(** C3: a request without user name is not refused.  The middleware gives it
    the empty user name, and the guard of [getSession] lets an empty user name
    pass whoever owns the session.  Such a request reads the running session
    of alice and, the guard being the only check of the route, deletes it:
    the store and the file are empty afterwards.  The list and the count
    answered to the same request select by owner and do not show the session,
    and a request of bob is refused as for an unknown id.  In the other
    direction, alice reads a session that has no owner. *)
Theorem guest_reads_and_deletes_owned_session :
  userContext sampleEnv None = guest
  ∧ getSessionRoute guest "aaaaaaaa" oneRunning = Json (Some sample_a)
  ∧ listRoute guest oneRunning = []
  ∧ runningCountRoute guest oneRunning = 0%nat
  ∧ (deleteSessionRoute guest "aaaaaaaa" oneRunning).2 = JsonSuccess
  ∧ values (deleteSessionRoute guest "aaaaaaaa" oneRunning).1 = []
  ∧ disk (deleteSessionRoute guest "aaaaaaaa" oneRunning).1 = Some []
  ∧ getSessionRoute (mkUser "bob" false) "aaaaaaaa" oneRunning
    = getSessionRoute (mkUser "bob" false) "zzzzzzzz" oneRunning
  ∧ getSessionRoute (mkUser "bob" false) "aaaaaaaa" oneRunning
    = JsonError 404 "Session not found"
  ∧ ∃ s, getSessionRoute alice "aaaaaaaa" (run [firstSubmit guest] initial)
         = Json (Some s)
         ∧ userId s = "".
Proof.
  split_and!; try by vm_compute.
  eexists. split; by vm_compute.
Qed.

(** C6 as the specification words it does not hold: after a feed that ends
    without [complete], the session is [completed] and has no decision. *)
Lemma completed_without_decision :
  ¬ (∀ st s, reachable st → s ∈ values st →
       (decision s ≠ "" ↔ status s = completed)
       ∧ (errorMsg s ≠ "" ↔ status s = error)).
Proof.
  intros Hclaim.
  set (s := set_currentAgent "" (set_status completed sample_a)).
  destruct (Hclaim (run silentEnd initial) s) as [Hdec _].
  - apply run_reachable, reachable_initial.
  - apply (list_elem_of_lookup_2 _ 0%nat). by vm_compute.
  - by apply Hdec.
Qed.


(** ** The theorems at the sample data *)

Lemma market_analyst_scenario_witness :
  folding oneRunning 0 task_a sample_a
  ∧ ∃ s', heap (run marketAnalystFeed oneRunning) !! 0%nat = Some s'
          ∧ reports s' !! "Market Analyst" = Some "Price is up."
          ∧ progress s' = ["Market Analyst"]
          ∧ currentAgent s' = "Social Analyst".
Proof.
  split; [by vm_compute|].
  destruct (market_analyst_scenario oneRunning 0 task_a sample_a)
    as (s' & Hs' & Hrep & Hprog & _ & Hcur & _);
    [by vm_compute|reflexivity|reflexivity|].
  exists s'. by split_and!.
Defined.

Lemma empty_token_or_node_end_ignored_witness :
  let st' :=
    exec (FeedChunk 0 (mkChunk node_end (Some "Market Analyst") (Some "")))
      oneRunning in
  heap st' !! 0%nat = Some sample_a
  ∧ heap st' = heap oneRunning ∧ sessions st' = sessions oneRunning
  ∧ disk st' = disk oneRunning ∧ published st' = published oneRunning.
Proof.
  apply (empty_token_or_node_end_ignored oneRunning 0 task_a sample_a
           (mkChunk node_end (Some "Market Analyst") (Some "")));
    [by vm_compute|by right|by right].
Defined.

Lemma retry_only_from_error_witness :
  retryRoute alice "aaaaaaaa" twoWaiting
  = (twoWaiting, JsonError 400 "Can only retry sessions with errors")
  ∧ ∃ s', (retryRoute alice "aaaaaaaa" firstFailed).2 = Json (Some s')
          ∧ (status s' = queued ∨ status s' = running)
          ∧ progress s' = [] ∧ reports s' = ∅ ∧ decision s' = ""
          ∧ errorMsg s' = "".
Proof.
  split.
  - destruct (retry_only_from_error alice "aaaaaaaa" twoWaiting sample_a)
      as [Hrefused _]; [by vm_compute|].
    by apply Hrefused.
  - destruct (retry_only_from_error alice "aaaaaaaa" firstFailed
                sample_a_failed) as [_ Hretried]; [by vm_compute|].
    destruct (Hretried eq_refl)
      as (r & s' & _ & _ & _ & _ & _ & _ & _ & _ & _ & Hbody & Hst
          & Hp & Hr & Hd & He).
    exists s'. split; [exact Hbody|]. split.
    + destruct Hst as [[Hq _]|[Hr' _]]; [by left|by right].
    + by split_and!.
Defined.


Lemma oldest_queued_promoted_witness :
  ∃ q r,
    queuedFor "alice" twoWaiting q
    ∧ getObj (exec (FeedChunk 0 (mkChunk complete None (Some "BUY"))) twoWaiting)
        (id q) = Some (r, started q)
    ∧ ∀ q', queuedFor "alice" twoWaiting q' → q' ≠ q →
        ∃ r', getObj
                (exec (FeedChunk 0 (mkChunk complete None (Some "BUY")))
                   twoWaiting) (id q') = Some (r', q')
              ∧ status q' = queued.
Proof.
  destruct (oldest_queued_promoted twoWaiting
              (FeedChunk 0 (mkChunk complete None (Some "BUY"))) 0 task_a
              sample_a "alice" sample_c 1709287202000%Z)
    as (q & tq & r & Hq & _ & _ & Hobj & _ & _ & Hrest).
  - apply run_reachable, reachable_initial.
  - by vm_compute.
  - reflexivity.
  - by vm_compute.
  - reflexivity.
  - done.
  - simpl. split; [done|]. right. by left.
  - split_and!; [|reflexivity..].
    apply (list_elem_of_lookup_2 _ 2%nat). by vm_compute.
  - by vm_compute.
  - exists q, r. split; [exact Hq|]. split; [exact Hobj|exact Hrest].
Defined.

Lemma status_decision_errorMsg_witness :
  reachable oneRunning
  ∧ (errorMsg sample_a ≠ "" ↔ status sample_a = error)
  ∧ (decision sample_a ≠ "" → status sample_a = completed)
  ∧ ∃ s', heap (exec (FeedEnd 0) oneRunning) !! 0%nat = Some s'
          ∧ status s' = completed ∧ decision s' = "" ∧ errorMsg s' = "".
Proof.
  assert (reachable oneRunning) as Hreach
    by apply run_reachable, reachable_initial.
  destruct (status_decision_errorMsg oneRunning Hreach)
    as (Hrecords & _ & Hend).
  assert (sample_a ∈ values oneRunning) as Hin.
  { apply (list_elem_of_lookup_2 _ 0%nat). by vm_compute. }
  destruct (Hrecords sample_a Hin) as [Herr Hdec].
  split_and!; [done..|].
  apply (Hend 0%nat task_a sample_a); by vm_compute.
Defined.

Lemma twoWaiting_reachable : reachable twoWaiting.
Proof. apply run_reachable, reachable_initial. Qed.

Lemma stored_ids_unique_witness :
  NoDup (id <$> values twoWaiting)
  ∧ ∀ s, s ∈ values twoWaiting → ∃ r, getObj twoWaiting (id s) = Some (r, s).
Proof.
  apply (stored_ids_unique twoWaiting).
  apply run_reachable, reachable_initial.
Defined.

Lemma getAllSessions_newest_first_witness :
  StronglySorted notOlder (getAllSessions twoWaiting (Some "alice") false).
Proof.
  apply (getAllSessions_newest_first twoWaiting (Some "alice") false).
  intros s Hs. vm_compute in Hs.
  repeat (apply elem_of_cons in Hs as [->|Hs]; [by eexists|]).
  by apply elem_of_nil in Hs.
Defined.

Lemma listed_session_readable_witness :
  getSession twoWaiting (id sample_b) (Some "alice") false = Some sample_b.
Proof.
  apply (listed_session_readable twoWaiting (Some "alice") false sample_b).
  - apply run_reachable, reachable_initial.
  - apply (list_elem_of_lookup_2 _ 1%nat). by vm_compute.
Defined.

Lemma request_fields_fixed_witness :
  ∃ s', heap (exec marketToken oneRunning) !! 0%nat = Some s'
        ∧ same_request sample_a s'
        ∧ (¬ is_retry marketToken → progress sample_a `prefix_of` progress s').
Proof.
  apply (request_fields_fixed marketToken oneRunning 0 sample_a).
  - by intros [].
  - by vm_compute.
Defined.

Lemma post_runs_or_queues_witness :
  ∃ s',
    (postSessions alice sampleRequest sampleValidation "0.bbbbbbbbbb"
       "2024-03-01T10:00:01.000Z" oneRunning).2 = Json (Some s')
    ∧ id s' = "bbbbbbbb" ∧ status s' = queued ∧ currentAgent s' = "".
Proof.
  destruct (post_runs_or_queues oneRunning alice sampleRequest
              sampleValidation "0.bbbbbbbbbb" "2024-03-01T10:00:01.000Z")
    as (s' & Hanswer & _ & _ & Hid & _ & _ & _ & _ & Hstatus).
  - apply run_reachable, reachable_initial.
  - reflexivity.
  - by vm_compute.
  - exists s'. split; [exact Hanswer|]. split; [exact Hid|].
    assert (getUserRunningSession oneRunning (username alice) = Some sample_a)
      as Hrun by by vm_compute.
    rewrite Hrun in Hstatus. exact Hstatus.
Defined.

Lemma delete_removes_only_entry_witness :
  let st' := (deleteSessionRoute alice "aaaaaaaa" twoWaiting).1 in
  (deleteSessionRoute alice "aaaaaaaa" twoWaiting).2 = JsonSuccess
  ∧ values st' = filter (λ s', id s' ≠ "aaaaaaaa") (values twoWaiting)
  ∧ getObj st' "aaaaaaaa" = None
  ∧ persisted st'
  ∧ heap st' = heap twoWaiting
  ∧ ∀ c t, JsMap.get "aaaaaaaa" (runningTasks twoWaiting) = Some c →
           tasks twoWaiting !! c = Some t → tasks st' !! c = Some (abort t).
Proof.
  apply (delete_removes_only_entry twoWaiting alice "aaaaaaaa" sample_a).
  - apply run_reachable, reachable_initial.
  - by vm_compute.
Defined.

Lemma gracefulShutdown_interrupts_witness :
  values (gracefulShutdown twoWaiting) = interrupt <$> values twoWaiting
  ∧ runningTasks (gracefulShutdown twoWaiting) = [].
Proof.
  destruct (gracefulShutdown_interrupts twoWaiting)
    as (Hvalues & _ & _ & _ & Hnone & _).
  - apply run_reachable, reachable_initial.
  - split; [exact Hvalues|exact Hnone].
Defined.

Lemma restart_reloads_store_witness :
  values (restart (λ _, ("", "")) twoWaiting) = reloaded <$> values twoWaiting.
Proof.
  apply (restart_reloads_store (λ _, ("", "")) twoWaiting).
  - apply run_reachable, reachable_initial.
  - by vm_compute.
  - intros s Hs. vm_compute in Hs.
    repeat (apply elem_of_cons in Hs as [->|Hs]; [done|]).
    by apply elem_of_nil in Hs.
Defined.

Lemma clearCompleted_removes_finished_witness :
  values (clearCompleted firstFailed).1
  = filter (λ s, ¬ terminal s) (values firstFailed)
  ∧ (clearCompleted firstFailed).2
    = length (filter (λ s, terminal s) (values firstFailed)).
Proof.
  destruct (clearCompleted_removes_finished firstFailed)
    as (Hvalues & Hcount & _).
  - apply reachable_exec, run_reachable, reachable_initial.
  - split; [exact Hvalues|exact Hcount].
Defined.

Lemma cancelled_coroutine_is_silent_witness :
  let st' := exec (FeedChunk 0 (mkChunk complete None (Some "BUY")))
               cancelledRun in
  heap st' !! 0%nat = Some sample_a ∧ status sample_a = running
  ∧ tasks st' !! 0%nat = Some (finished task_a_cancelled).
Proof.
  apply (cancelled_coroutine_is_silent cancelledRun 0 task_a_cancelled sample_a
           (mkChunk complete None (Some "BUY"))).
  - apply run_reachable, reachable_initial.
  - by vm_compute.
  - reflexivity.
  - reflexivity.
  - by vm_compute.
Defined.

Lemma failure_is_recorded_witness :
  heap (exec (FeedChunk 0 (mkChunk quota_error None None)) oneRunning) !! 0%nat
  = Some (set_currentAgent ""
            (set_errorMsg "API quota exhausted" (set_status error sample_a))).
Proof.
  destruct (failure_is_recorded oneRunning
              (FeedChunk 0 (mkChunk quota_error None None)) 0 task_a sample_a)
    as (Hheap & _).
  - apply run_reachable, reachable_initial.
  - by vm_compute.
  - cbn. split; [done|]. right. by left.
  - exact Hheap.
Defined.

Lemma nextQueued_first_of_oldest_witness :
  ∃ i tq, values twoWaiting !! i = Some sample_b
          ∧ eligible "alice" sample_b tq
          ∧ ∀ j q' t', values twoWaiting !! j = Some q' →
                       eligible "alice" q' t' →
                       (tq ≤ t')%Z ∧ (j < i → (tq < t')%Z).
Proof.
  apply (nextQueued_first_of_oldest "alice" (values twoWaiting) sample_b).
  by vm_compute.
Defined.

Lemma stream_route_trusts_the_query_witness :
  streamRoute (Some "mallory") (Some "true") "aaaaaaaa" oneRunning
  = StreamSnapshot sample_a true.
Proof.
  destruct (stream_route_trusts_the_query oneRunning "aaaaaaaa" 0 sample_a
              (Some "mallory") (Some "true")) as [[Hno|Hyes] Hiff].
  - by vm_compute.
  - apply Hiff in Hno as [Hadmin _]. by destruct Hadmin.
  - exact Hyes.
Defined.

Lemma next_agent_follows_order_witness :
  getNextAgent "Trader" = "Risky Analyst" ↔
  ∃ i, AGENT_ORDER !! i = Some "Trader"
       ∧ AGENT_ORDER !! S i = Some "Risky Analyst".
Proof. apply (next_agent_follows_order "Trader" "Risky Analyst"). done. Defined.

Lemma oneSubscriber_ok : SSEManager.HubOk oneSubscriber.
Proof. apply HubOk_subscribe, HubOk_empty. Qed.

Lemma subscriptions_well_formed_witness : SSEManager.HubOk oneSubscriber.
Proof.
  apply (subscriptions_well_formed oneSubscriber).
  apply (SSEManager.reachable_call (SSEManager.Subscribe "aaaaaaaa")).
  apply SSEManager.reachable_empty.
Defined.

Lemma message_reaches_open_subscribers_witness :
  SSEManager.queue
    (SSEManager.sent "aaaaaaaa" (SSEManager.Data sample_a) oneSubscriber) 0
  = [SSEManager.Data sample_a].
Proof.
  destruct (message_reaches_open_subscribers oneSubscriber "aaaaaaaa"
              (SSEManager.Data sample_a)) as (Hqueue & _).
  - apply HubOk_subscribe, HubOk_empty.
  - rewrite (Hqueue 0%nat). reflexivity.
Defined.

Lemma subscriber_receives_in_order_witness :
  SSEManager.queue
    (SSEManager.deliver [("aaaaaaaa", sample_a); ("bbbbbbbb", sample_b);
                         ("aaaaaaaa", sample_a_failed)] oneSubscriber) 0
  = [SSEManager.Data sample_a; SSEManager.Data sample_a_failed].
Proof.
  destruct (subscriber_receives_in_order oneSubscriber "aaaaaaaa" 0
              [("aaaaaaaa", sample_a); ("bbbbbbbb", sample_b);
               ("aaaaaaaa", sample_a_failed)]) as (Hqueue & _).
  - apply HubOk_subscribe, HubOk_empty.
  - apply (list_elem_of_lookup_2 _ 0%nat). reflexivity.
  - reflexivity.
  - rewrite Hqueue. reflexivity.
Defined.

Lemma subscribe_then_unsubscribe_witness :
  SSEManager.getSubscriberCount "aaaaaaaa"
    (SSEManager.subscribe "aaaaaaaa" oneSubscriber).1 = 2%nat
  ∧ SSEManager.getSubscriberCount "aaaaaaaa"
      (SSEManager.unsubscribe "aaaaaaaa"
         (SSEManager.subscribe "aaaaaaaa" oneSubscriber).2
         (SSEManager.subscribe "aaaaaaaa" oneSubscriber).1) = 1%nat.
Proof.
  destruct (subscribe_then_unsubscribe oneSubscriber "aaaaaaaa")
    as (Hone & _ & _ & _ & _ & Hback & _).
  - apply HubOk_subscribe, HubOk_empty.
  - split; [exact Hone|exact Hback].
Defined.

Lemma closeSession_closes_subscribers_witness :
  SSEManager.getSubscriberCount "aaaaaaaa"
    (SSEManager.closeSession "aaaaaaaa" oneSubscriber) = 0%nat
  ∧ SSEManager.accepting
      (SSEManager.closeSession "aaaaaaaa" oneSubscriber) 0 = false.
Proof.
  destruct (closeSession_closes_subscribers oneSubscriber "aaaaaaaa")
    as (_ & Hcount & Hclosed & _).
  - apply HubOk_subscribe, HubOk_empty.
  - split; [exact Hcount|]. apply Hclosed.
    apply (list_elem_of_lookup_2 _ 0%nat). reflexivity.
Defined.

Lemma cancel_does_not_unsubscribe_witness :
  SSEManager.getSubscriberCount "aaaaaaaa"
    (SSEManager.cancel "aaaaaaaa" 0 oneSubscriber) = 1%nat
  ∧ SSEManager.accepting (SSEManager.cancel "aaaaaaaa" 0 oneSubscriber) 0
    = false.
Proof.
  destruct (cancel_does_not_unsubscribe oneSubscriber "aaaaaaaa" 0)
    as (_ & Hcount & Hclosed & _).
  - apply HubOk_subscribe, HubOk_empty.
  - apply (list_elem_of_lookup_2 _ 0%nat). reflexivity.
  - split; [exact Hcount|exact Hclosed].
Defined.

Lemma valid_ticker_has_market_form_witness :
  normalized (validateTickerFormat " 700 " "HK") = "0700.HK"
  ∧ test HKForm "0700.HK" = true.
Proof.
  pose proof (valid_ticker_has_market_form " 700 " "HK" eq_refl) as Hform.
  cbn zeta in Hform.
  assert (validateTickerFormat " 700 " "HK"
          = mkValidation true "0700.HK" "" "") as Hr by by vm_compute.
  rewrite Hr in Hform. cbn [valid normalized] in Hform.
  destruct Hform as (_ & _ & [[? _]|[[? _]|(_ & Htest & _)]]); [done..|].
  split; [reflexivity|exact Htest].
Defined.

Lemma normalized_ticker_is_fixed_witness :
  validateTickerFormat (normalized (validateTickerFormat "brk-b" "US")) "US"
  = validateTickerFormat "brk-b" "US".
Proof.
  apply (normalized_ticker_is_fixed "brk-b" "US"); reflexivity.
Defined.

Lemma lookup_keeps_the_format_result_witness :
  validateAndGetName "Kweichow Moutai" "600519" "A-share"
  = mkValidation true "600519" "Kweichow Moutai" "".
Proof.
  rewrite (lookup_keeps_the_format_result "Kweichow Moutai" "600519" "A-share")
    by reflexivity.
  reflexivity.
Defined.

Lemma login_needs_stored_password_witness :
  ∃ name pwd,
    Some " alice" = Some name ∧ Some "secret " = Some pwd
    ∧ "alice" = trim name ∧ "alice" ≠ "" ∧ trim pwd ≠ ""
    ∧ "Welcome, alice" = "Welcome, " +:+ "alice"
    ∧ JsMap.get "alice" (getInviteCodes sampleEnv) = Some (trim pwd)
    ∧ includes ":" (trim pwd) = false.
Proof.
  apply (login_needs_stored_password sampleEnv (Some " alice")
           (Some "secret ") "Welcome, alice" "alice").
  reflexivity.
Defined.
